(** * noorlib: the hadith parser (parser.js) and the translation driver
    (translate.js), embedded as Rocq functions.

    Conventions of the embedding.
    - JavaScript strings are [string]; the regular expressions of the source
      only inspect ASCII characters, so working on bytes is exact.
    - The numbers the parser handles all come from [Number] applied to a run
      of decimal digits: doubles whose value is a natural number, or
      Infinity.  They are modelled by that value in [N], with the rounding
      of [Number] written out ([to_double]); [Infinity] is written 2^1024,
      the first value past the finite doubles.
    - Plain objects used as maps are [gmap]s; where the source reads a key
      that may be inherited from [Object.prototype], the inherited keys are
      modelled explicitly ([proto_key]).
    - A thrown exception is the [Throw] case of the result type [Exc]; an
      exception that reaches [main().catch] ends the run. *)

From stdpp Require Import gmap strings list sorting.
From Stdlib Require Import Ascii String NArith.

(** ** Exceptions *)

Inductive Error :=
| SyntaxError   (* JSON.parse on a text that is not JSON *)
| TypeError.    (* property access on undefined, call of a non-function *)

Inductive Exc (A : Type) : Type :=
| Ok (a : A)
| Throw (e : Error).
Arguments Ok {A} a.
Arguments Throw {A} e.

#[global] Instance Exc_ret : MRet Exc := λ A a, Ok a.
#[global] Instance Exc_bind : MBind Exc := λ A B k c,
  match c with
  | Ok a => k a
  | Throw e => Throw e
  end.
#[global] Instance Exc_fmap : FMap Exc := λ A B f c,
  match c with
  | Ok a => Ok (f a)
  | Throw e => Throw e
  end.

(** ** Built-ins

    [String.prototype.trim] is used by both programs and left abstract. *)

Class StringTrim := { trim : string → string }.

(** A string in a condition: the empty string is falsy. *)
Definition truthy (s : string) : bool := negb (String.eqb s EmptyString).

(** The names every plain object inherits from [Object.prototype]; the
    values found there are functions, or the prototype itself for
    [__proto__]: all of them truthy, none of them a string, none of them
    with a [pages] field. *)
Definition proto_keys : list string :=
  ["constructor"; "__defineGetter__"; "__defineSetter__"; "hasOwnProperty";
   "__lookupGetter__"; "__lookupSetter__"; "isPrototypeOf";
   "propertyIsEnumerable"; "toString"; "valueOf"; "__proto__";
   "toLocaleString"]%string.

Definition proto_key (k : string) : bool := bool_decide (k ∈ proto_keys).

(** * parser.js *)

Module Parser.

#[local] Open Scope N_scope.

(** ** Path indexer (lines 28-56) *)

Definition is_digit (c : ascii) : bool :=
  (48 <=? N_of_ascii c) && (N_of_ascii c <=? 57).

(** The double nearest to a natural number, ties to the even significand
    (53 bits), as Node computes [Number] of a run of digits (the language
    leaves a choice past twenty significant digits only).  From
    2^1024 - 2^970 on the result is [Infinity].  The code
    only compares these numbers (in [a - b] of a comparator, where the NaN
    of Infinity - Infinity counts as 0, and in [includes]) and uses them as
    property keys, so that all it needs of [Infinity] is that it is above
    every finite double and equal to itself. *)
Definition Infinity : N := 2 ^ 1024.

Definition to_double (n : N) : N :=
  if n <? 2 ^ 53 then n
  else
    let shift := N.log2 n - 52 in
    let significand := N.shiftr n shift in
    let rest := N.land n (N.ones shift) in
    let half := N.shiftl 1 (shift - 1) in
    let rounded :=
      if (half <? rest) || ((rest =? half) && N.odd significand)
      then significand + 1 else significand in
    let m := N.shiftl rounded shift in
    if m <? Infinity then m else Infinity.

(** [Number] on a capture of [\d+]: the decimal value of the digits,
    as a double. *)
Definition Number (digits : list ascii) : N :=
  to_double (fold_left (λ acc c, 10 * acc + (N_of_ascii c - 48)) digits 0).

(** The pattern [/volume_(\d+)\/section_(\d+)\/page_(\d+)\.json$/] is
    anchored at the end of the path only.  Each run of digits is preceded by
    a character that is not a digit, so the three captures are the maximal
    runs of digits; the match is read off the reversed path. *)
Fixpoint strip_prefix (pre s : list ascii) : option (list ascii) :=
  match pre, s with
  | [], _ => Some s
  | a :: pre', b :: s' => if Ascii.eqb a b then strip_prefix pre' s' else None
  | _ :: _, [] => None
  end.

Fixpoint span_digits (s : list ascii) : list ascii * list ascii :=
  match s with
  | c :: s' =>
      if is_digit c
      then let '(d, r) := span_digits s' in (c :: d, r)
      else ([], s)
  | [] => ([], [])
  end.

(** One group [(\d+)] followed (to its right) by the literal [lit]:
    the reversed input starts with the reversed literal, then at least one
    digit. *)
Definition literal_then_digits (lit : string) (r : list ascii)
  : option (list ascii * list ascii) :=
  r1 ← strip_prefix (rev (list_ascii_of_string lit)) r;
  let '(d, r2) := span_digits r1 in
  match d with
  | [] => None
  | _ :: _ => Some (rev d, r2)
  end.

Definition matchPath (filePath : string) : option (N * N * N) :=
  '(p, r1) ← literal_then_digits ".json" (rev (list_ascii_of_string filePath));
  '(s, r2) ← literal_then_digits "/page_" r1;
  '(v, r3) ← literal_then_digits "/section_" r2;
  _ ← strip_prefix (rev (list_ascii_of_string "volume_")) r3;
  Some (Number v, Number s, Number p).

Record PageEntry := { path : string; page : N }.

(** The callback of [filePaths.reduce]: [acc[volume][section].push(...)],
    creating the two levels on first use. *)
Definition group_step (acc : gmap N (gmap N (list PageEntry))) (filePath : string)
  : gmap N (gmap N (list PageEntry)) :=
  match matchPath filePath with
  | Some (volume, section, pg) =>
      let acc1 :=
        match acc !! volume with
        | Some _ => acc
        | None => <[volume := ∅]> acc
        end in
      let sections := default ∅ (acc1 !! volume) in
      let sections1 :=
        match sections !! section with
        | Some _ => sections
        | None => <[section := []]> sections
        end in
      let pages := default [] (sections1 !! section) in
      <[volume := <[section := pages ++ [{| path := filePath; page := pg |}]]> sections1]> acc1
  | None => acc
  end.

Definition groupedFiles (filePaths : list string) : gmap N (gmap N (list PageEntry)) :=
  fold_left group_step filePaths ∅.

(** [Array.prototype.sort] with the comparator [(a, b) => key a - key b]:
    a stable sort, ascending in the key. *)
Fixpoint insert_by {A} (key : A → N) (x : A) (l : list A) : list A :=
  match l with
  | [] => [x]
  | y :: l' => if key x <=? key y then x :: l else y :: insert_by key x l'
  end.

Fixpoint sort_by {A} (key : A → N) (l : list A) : list A :=
  match l with
  | [] => []
  | x :: l' => insert_by key x (sort_by key l')
  end.

(** [Object.keys(o).sort((a, b) => Number(a) - Number(b))] *)
Definition sorted_keys {V} (o : gmap N V) : list N :=
  sort_by id (map_to_list o).*1.

(** [groupedFiles[volume][section]], the empty list when a level is missing. *)
Definition pages_of (grouped : gmap N (gmap N (list PageEntry)))
    (volume section : N) : list PageEntry :=
  default [] (default ∅ (grouped !! volume) !! section).

(** Lines 43-56. *)
Definition sortedPaths (filePaths : list string) : list string :=
  let grouped := groupedFiles filePaths in
  volume ← sorted_keys grouped;
  section ← sorted_keys (default ∅ (grouped !! volume));
  path <$> sort_by page (pages_of grouped volume section).

(** ** Input pages

    A page file is read and handed to [JSON.parse]; the parser then reads
    [jsonData.data[0].paragList].  The embedding keeps the shapes that decide
    what these two lines do: a text that is not JSON, an object without
    [data], a [data] array without first element, a first element without
    [paragList], and the regular case. *)

Record Parag := {
  text : string;          (* parag.text, the markup of the fragment *)
  paragraphId : string;   (* parag.paragraphId, as a template literal renders it *)
}.

Record DataItem := { paragList : option (list Parag) }.

Record PageJson := { data : option (list DataItem) }.

Inductive FileContent :=
| NotJson
| Json (jsonData : PageJson).

(** ** The markup library

    cheerio is not part of the repository.  The parser uses it through the
    selections below, each taken on the document loaded from [parag.text]. *)

Record HadithElement := {
  revayatindex : option string;  (* $hadith.attr('revayatindex') *)
  closest_p_id : option string;  (* $hadith.closest('p').attr('id') *)
  hadithContent : string;        (* the clone without format.sanadHadith and
                                    lfootnote: .text().trim() *)
  ghaelText : string;            (* $hadith.find('format.sanadHadith')
                                      .find('format.maasoom').text().trim() *)
  sanadText : string;            (* $hadith.find('format.sanadHadith').text().trim() *)
}.

Class Cheerio := {
  heading_text : string → string;                 (* $('heading').text().trim() *)
  hadith_elements : string → list HadithElement;  (* $('format.hadith') *)
  p_text : string → string;                       (* $('p').text() *)
  (* text.match(/(.+) فرمود: «(.+)»/): the two groups of the match *)
  fallback_pattern : string → option (string * string);
}.

(** ** Records *)

Record Hadith := {
  vol : N;
  sec : N;
  pages : list N;
  id : string;
  title : string;
  ghael : string;
  sanad : string;
  parts : list string;
}.

(** [`${v}`] for a value that is a string or undefined. *)
Definition template (v : option string) : string := default "undefined"%string v.

(** ** Primary extraction (lines 60-123) *)

Section Extraction.
Context {C : Cheerio} {T : StringTrim}.

(** Lines 83-88. *)
Definition identity (filePath : string) (h : HadithElement) : string :=
  match revayatindex h with
  | Some revayatIndex =>
      if truthy revayatIndex then revayatIndex
      else "gen_" +:+ filePath +:+ "_" +:+ template (closest_p_id h)
  | None => "gen_" +:+ filePath +:+ "_" +:+ template (closest_p_id h)
  end.

(** Lines 97-103: the record is updated in place. *)
Definition merge (existingHadith : Hadith) (pg : N) (content : string) : Hadith :=
  {| vol := vol existingHadith;
     sec := sec existingHadith;
     pages := if bool_decide (pg ∈ pages existingHadith)
              then pages existingHadith
              else pages existingHadith ++ [pg];
     id := id existingHadith;
     title := title existingHadith;
     ghael := ghael existingHadith;
     sanad := sanad existingHadith;
     parts := if truthy content && negb (bool_decide (content ∈ parts existingHadith))
              then parts existingHadith ++ [content]
              else parts existingHadith |}.

(** Lines 105-119. *)
Definition create (volume section pg : N) (revayatIndex currentTitle : string)
    (h : HadithElement) : Hadith :=
  {| vol := volume;
     sec := section;
     pages := [pg];
     id := revayatIndex;
     title := currentTitle;
     ghael := ghaelText h;
     sanad := sanadText h;
     parts := if truthy (hadithContent h) then [hadithContent h] else [] |}.

(** The callback of [$('format.hadith').each] (lines 81-121).
    [hadithsById[revayatIndex]] finds the record stored under the key, or
    else what [Object.prototype] has under that name; in the second case
    [existingHadith.pages] is undefined and [.includes] throws. *)
Definition hadith_step (filePath : string) (volume section pg : N)
    (currentTitle : string) (hadithsById : gmap string Hadith)
    (h : HadithElement) : Exc (gmap string Hadith) :=
  let revayatIndex := identity filePath h in
  match hadithsById !! revayatIndex with
  | Some existingHadith =>
      Ok (<[revayatIndex := merge existingHadith pg (hadithContent h)]> hadithsById)
  | None =>
      if proto_key revayatIndex then Throw TypeError
      else Ok (<[revayatIndex :=
                   create volume section pg revayatIndex currentTitle h]> hadithsById)
  end.

Fixpoint each_hadith (filePath : string) (volume section pg : N)
    (currentTitle : string) (hadithsById : gmap string Hadith)
    (hs : list HadithElement) : Exc (gmap string Hadith) :=
  match hs with
  | [] => Ok hadithsById
  | h :: hs' =>
      m ← hadith_step filePath volume section pg currentTitle hadithsById h;
      each_hadith filePath volume section pg currentTitle m hs'
  end.

(** The two variables the traversal mutates. *)
Record State := {
  hadithsById : gmap string Hadith;
  currentTitle : string;
}.

(** One paragraph (lines 74-122). *)
Definition parag_step (filePath : string) (volume section pg : N)
    (st : State) (parag : Parag) : Exc State :=
  let heading := heading_text (text parag) in
  let title1 := if truthy heading then heading else currentTitle st in
  m ← each_hadith filePath volume section pg title1 (hadithsById st)
        (hadith_elements (text parag));
  Ok {| hadithsById := m; currentTitle := title1 |}.

Fixpoint for_parags (filePath : string) (volume section pg : N)
    (st : State) (ps : list Parag) : Exc State :=
  match ps with
  | [] => Ok st
  | parag :: ps' =>
      st1 ← parag_step filePath volume section pg st parag;
      for_parags filePath volume section pg st1 ps'
  end.

(** Lines 64-72, the same as lines 129-137: what is read from a page before
    its paragraphs are visited.  [Ok None] is [continue]. *)
Definition open_page (readFile : string → FileContent) (filePath : string)
  : Exc (option (N * N * N * list Parag)) :=
  match readFile filePath with
  | NotJson => Throw SyntaxError              (* JSON.parse(fileContent) *)
  | Json jsonData =>
      match data jsonData with
      | None => Throw TypeError               (* undefined[0] *)
      | Some [] => Throw TypeError            (* undefined.paragList *)
      | Some (first :: _) =>
          match paragList first with
          | None => Ok None                   (* if (!paragList) continue *)
          | Some ps =>
              match matchPath filePath with
              | None => Ok None               (* if (!match) continue *)
              | Some (volume, section, pg) => Ok (Some (volume, section, pg, ps))
              end
          end
      end
  end.

Definition primary_page (readFile : string → FileContent) (st : State)
    (filePath : string) : Exc State :=
  o ← open_page readFile filePath;
  match o with
  | None => Ok st
  | Some (volume, section, pg, ps) => for_parags filePath volume section pg st ps
  end.

Fixpoint primary_pass (readFile : string → FileContent) (st : State)
    (sorted : list string) : Exc State :=
  match sorted with
  | [] => Ok st
  | filePath :: rest =>
      st1 ← primary_page readFile st filePath;
      primary_pass readFile st1 rest
  end.

Definition initial : State :=
  {| hadithsById := ∅; currentTitle := "Untitled" |}.

(** ** Fallback extraction (lines 126-163) *)

(** Lines 141-160; [!hadithsById[revayatIndex]] is false as soon as the key
    is found, stored or inherited. *)
Definition fallback_step (volume section pg : N) (currentTitle : string)
    (hadithsById : gmap string Hadith) (parag : Parag) : gmap string Hadith :=
  match fallback_pattern (p_text (text parag)) with
  | Some (ghael0, content) =>
      let revayatIndex := "fallback_" +:+ paragraphId parag in
      match hadithsById !! revayatIndex with
      | Some _ => hadithsById
      | None =>
          if proto_key revayatIndex then hadithsById
          else <[revayatIndex :=
                   {| vol := volume; sec := section; pages := [pg];
                      id := revayatIndex; title := currentTitle;
                      ghael := trim ghael0; sanad := EmptyString;
                      parts := [trim content] |}]> hadithsById
      end
  | None => hadithsById
  end.

Definition fallback_page (readFile : string → FileContent) (currentTitle : string)
    (hadithsById : gmap string Hadith) (filePath : string)
  : Exc (gmap string Hadith) :=
  o ← open_page readFile filePath;
  match o with
  | None => Ok hadithsById
  | Some (volume, section, pg, ps) =>
      Ok (fold_left (fallback_step volume section pg currentTitle) ps hadithsById)
  end.

Fixpoint fallback_pass (readFile : string → FileContent) (currentTitle : string)
    (hadithsById : gmap string Hadith) (sorted : list string)
  : Exc (gmap string Hadith) :=
  match sorted with
  | [] => Ok hadithsById
  | filePath :: rest =>
      m ← fallback_page readFile currentTitle hadithsById filePath;
      fallback_pass readFile currentTitle m rest
  end.

(** ** The driver (lines 24-176) *)

Inductive LogLine :=
| LogStarting
| LogFound (files : nat)
| LogTryingFallback
| LogSaved (hadiths : nat)
| LogComplete.

(** Lines 165-171, for one record. *)
Record Output := {
  out_vol : N;
  out_sec : N;
  out_pages : list N;
  out_id : string;
  out_title : string;
  out_ghael : string;
  out_sanad : string;
  out_content : string;
}.

Definition join (sep : string) (l : list string) : string :=
  match l with
  | [] => EmptyString
  | s :: l' => fold_left (λ acc t, acc +:+ sep +:+ t) l' s
  end.

Definition newline : string := String (ascii_of_nat 10) EmptyString.

Definition finalize (h : Hadith) : Output :=
  {| out_vol := vol h; out_sec := sec h; out_pages := pages h; out_id := id h;
     out_title := title h; out_ghael := ghael h; out_sanad := sanad h;
     out_content := trim (join newline (parts h)) |}.

(** What a run leaves: the lines logged, the records written to the output
    file (keyed by identity; the order of [Object.values] is not part of the
    model).  A [Throw] reaches [main().catch]: the process exits with
    status 1 and nothing is written. *)
Record Run := {
  log : list LogLine;
  extracted : gmap string Hadith;
  written : gmap string Output;
}.

Definition main (readFile : string → FileContent) (filePaths : list string)
  : Exc Run :=
  let sorted := sortedPaths filePaths in
  st ← primary_pass readFile initial sorted;
  if bool_decide (size (hadithsById st) = 0%nat) then
    m ← fallback_pass readFile (currentTitle st) (hadithsById st) sorted;
    Ok {| log := [LogStarting; LogFound (List.length sorted); LogTryingFallback;
                  LogSaved (size m); LogComplete];
          extracted := m;
          written := finalize <$> m |}
  else
    Ok {| log := [LogStarting; LogFound (List.length sorted);
                  LogSaved (size (hadithsById st)); LogComplete];
          extracted := hadithsById st;
          written := finalize <$> hadithsById st |}.

End Extraction.

(** ** Discovery (lines 9-22)

    What [fs.readdir(dir, { withFileTypes: true })] lists: regular files,
    directories with their own entries, and entries that are neither (links,
    sockets, ...), for which both [isDirectory()] and [isFile()] are false. *)

#[warnings="-register-all"] Inductive Dirent :=
| RegularFile (name : string)
| Directory (name : string) (entries : list Dirent)
| Special (name : string).

(** [name.endsWith(suffix)] *)
Definition endsWith (name suffix : string) : bool :=
  match strip_prefix (rev (list_ascii_of_string suffix))
          (rev (list_ascii_of_string name)) with
  | Some _ => true
  | None => false
  end.

(** [path.resolve(dir, name)], POSIX.  The arguments are taken from the
    right until one of them is absolute, [process.cwd()] (an absolute path)
    before them when none is; an empty argument adds nothing.  What was
    taken is joined with slashes and normalized: empty segments and [.]
    are dropped, [..] removes the segment before it (at the root there is
    none and it is dropped); the result starts with a slash and has none at
    its end, the root apart. *)
Definition absolute (p : string) : bool :=
  match p with
  | String c _ => Ascii.eqb c "/"%char
  | EmptyString => false
  end.

Fixpoint split_slash (p : string) : list string :=
  match p with
  | EmptyString => [EmptyString]
  | String c p' =>
      if Ascii.eqb c "/"%char then EmptyString :: split_slash p'
      else
        match split_slash p' with
        | segment :: rest => String c segment :: rest
        | [] => [String c EmptyString]
        end
  end.

Definition normalize_step (stack : list string) (segment : string) : list string :=
  if String.eqb segment EmptyString || String.eqb segment "." then stack
  else if String.eqb segment ".." then removelast stack
  else stack ++ [segment].

Definition resolve (cwd dir name : string) : string :=
  let taken :=
    if absolute name then [name]
    else if absolute dir then [dir; name]
    else [cwd; dir; name] in
  "/" +:+ join "/" (fold_left normalize_step (taken ≫= split_slash) []).

Section Discovery.
(** [process.cwd()] *)
Variable cwd : string.

(** The body of the loop (lines 14-19), for one entry; the recursive call
    of line 16 is the loop over the entries of the directory. *)
Fixpoint visit (dir : string) (dirent : Dirent) {struct dirent} : list string :=
  match dirent with
  | Directory name entries =>
      (fix getFilePaths (dir : string) (dirents : list Dirent) {struct dirents}
         : list string :=
         match dirents with
         | [] => []
         | dirent :: rest => visit dir dirent ++ getFilePaths dir rest
         end) (resolve cwd dir name) entries
  | RegularFile name =>
      if endsWith name ".json" then [resolve cwd dir name] else []
  | Special _ => []
  end.

Fixpoint getFilePaths (dir : string) (dirents : list Dirent) : list string :=
  match dirents with
  | [] => []
  | dirent :: rest => visit dir dirent ++ getFilePaths dir rest
  end.

End Discovery.

(** Line 6 and line 26: the directory [main] lists. *)
Definition BOOK_DIR (BOOK_NAME : string) : string := "./scraped_data/" +:+ BOOK_NAME.

End Parser.

(** * translate.js *)

Module Translate.

(** A record of hadiths.json, and a record of hadiths_translated.json:
    the first with [title_fa] and [content_fa] added. *)
Definition Hadith := Parser.Output.

Record TranslatedHadith := {
  original : Hadith;
  title_fa : string;
  content_fa : string;
}.

(** ** The text-generation service

    [ai.models.generateContent] followed by
    [JSON.parse(response.text).translation]: either the translation (a
    string, by the response schema), or an exception with [error.status]
    (undefined when the exception has none, as for a response that is not
    JSON). *)
Inductive ApiResult :=
| Translated (translation : string)
| Failed (status : option N).

(** What the program does to the outside, in order. *)
Inductive Event :=
| Request (apiKey : option string) (prompt : string)
| BackOff (milliseconds : N)
| LogTranslating (id : string)
| WriteFile (records : list TranslatedHadith)
| LogSaved (id : string)
| LogMaxAttempts (text : string)
| LogError
| FixFile.

(** The module-level variables (lines 8-10 and 17) and the events so far. *)
Record State := {
  currentApiKeyIndex : nat;
  consecutiveErrors : nat;
  fullCycleCompleted : bool;
  titleCache : gmap string string;
  trace : list Event;
}.

Definition emit (e : Event) (st : State) : State :=
  {| currentApiKeyIndex := currentApiKeyIndex st;
     consecutiveErrors := consecutiveErrors st;
     fullCycleCompleted := fullCycleCompleted st;
     titleCache := titleCache st;
     trace := trace st ++ [e] |}.

Definition start : State :=
  {| currentApiKeyIndex := 0; consecutiveErrors := 0;
     fullCycleCompleted := false; titleCache := ∅; trace := [] |}.

(** What [translateText] returns: a string, or, when [titleCache[text]] is
    found on [Object.prototype], the function or object stored there. *)
Inductive Value :=
| VString (s : string)
| VInherited.

Section Driver.
Context {T : StringTrim}.
(** The pool of credentials (line 7; the program exits at line 14 when it
    is empty) and the service, which answers a request knowing the events
    that came before it. *)
Variable apiKeys : list string.
Variable generateContent : list Event → option string → string → ApiResult.

Definition prefix : string := "Translate the following Arabic text to Farsi:".

Definition dquote : string := String (ascii_of_nat 34) EmptyString.

Definition helper (word meaning : string) : string :=
  "   - The word " +:+ dquote +:+ word +:+ dquote +:+ " is "
    +:+ dquote +:+ meaning +:+ dquote +:+ "." +:+ Parser.newline.

Definition title_sufix : string :=
  Parser.newline +:+ "  ### Translation Helpers" +:+ Parser.newline
    +:+ helper "باب" "موضوع"
    +:+ helper "کراث" "تره"
    +:+ helper "جبن" "پنیر"
    +:+ "   - The word " +:+ dquote +:+ "مفضل" +:+ dquote
    +:+ " sometimes relates to a person." +:+ Parser.newline +:+ "  ".

Definition prompt_of (text : string) (isTitle : bool) : string :=
  prefix +:+ " " +:+ (if isTitle then title_sufix else EmptyString) +:+ Parser.newline
    +:+ "---" +:+ Parser.newline +:+ text.

Definition retryable (status : option N) : bool :=
  match status with
  | Some s => (s =? 429)%N || (s =? 503)%N
  | None => false
  end.

(** The [catch] block (lines 65-87). *)
Definition on_error (status : option N) (st : State) : State :=
  let errors1 := if retryable status then S (consecutiveErrors st) else 0%nat in
  let index1 := ((currentApiKeyIndex st + 1) mod List.length apiKeys)%nat in
  let cycle1 := if (index1 =? 0)%nat then true else fullCycleCompleted st in
  if cycle1 && (2 <=? errors1)%nat then
    {| currentApiKeyIndex := index1; consecutiveErrors := 0;
       fullCycleCompleted := cycle1; titleCache := titleCache st;
       trace := trace st ++ [BackOff 8000] |}
  else
    {| currentApiKeyIndex := index1; consecutiveErrors := errors1;
       fullCycleCompleted := cycle1; titleCache := titleCache st;
       trace := trace st |}.

(** The [while] loop (lines 37-92), by recursion on [maxAttempts - attempt]. *)
Fixpoint attempts (remaining : nat) (text : string) (isTitle : bool)
    (st : State) : Value * State :=
  match remaining with
  | O => (VString text, emit (LogMaxAttempts text) st)
  | S remaining' =>
      let apiKey := apiKeys !! currentApiKeyIndex st in
      let prompt := prompt_of text isTitle in
      let st1 := emit (Request apiKey prompt) st in
      match generateContent (trace st) apiKey prompt with
      | Translated translated =>
          (VString translated,
           {| currentApiKeyIndex := currentApiKeyIndex st1;
              consecutiveErrors := 0;
              fullCycleCompleted := fullCycleCompleted st1;
              titleCache := if isTitle then <[text := translated]> (titleCache st1)
                            else titleCache st1;
              trace := trace st1 |})
      | Failed status => attempts remaining' text isTitle (on_error status st1)
      end
  end.

(** [titleCache[text]] in the condition of line 20: [None] when what is
    read is falsy (nothing stored, or the empty string). *)
Definition cache_read (titleCache : gmap string string) (text : string)
  : option Value :=
  match titleCache !! text with
  | Some t => if truthy t then Some (VString t) else None
  | None => if proto_key text then Some VInherited else None
  end.

(** Lines 19-93. *)
Definition translateText (text : string) (isTitle : bool) (st : State)
  : Value * State :=
  match (if isTitle then cache_read (titleCache st) text else None) with
  | Some v => (v, st)
  | None => attempts (List.length apiKeys * 3) text isTitle st
  end.

(** ** The driver (lines 109-191) *)

(** Reading hadiths_translated.json (lines 139-149). *)
Inductive ReadResult :=
| ENOENT
| OtherError
| Loaded (translatedHadiths : list TranslatedHadith).

(** The [for] loop of lines 153-181; [Throw] leaves the loop for the [catch]
    of line 186, with the state reached. *)
Fixpoint translate_loop (translatedIds : gset string) (hadiths : list Hadith)
    (translatedHadiths : list TranslatedHadith) (st : State)
  : Exc (list TranslatedHadith) * State :=
  match hadiths with
  | [] => (Ok translatedHadiths, st)
  | hadith :: rest =>
      if bool_decide (Parser.out_id hadith ∈ translatedIds) then
        translate_loop translatedIds rest translatedHadiths st
      else if negb (truthy (trim (Parser.out_content hadith))) then
        translate_loop translatedIds rest translatedHadiths st
      else
        let st0 := emit (LogTranslating (Parser.out_id hadith)) st in
        let '(translatedTitle, st1) := translateText (Parser.out_title hadith) true st0 in
        let '(translatedContent, st2) := translateText (Parser.out_content hadith) false st1 in
        match translatedTitle, translatedContent with
        | VString t, VString c =>
            let newHadith :=
              {| original := hadith; title_fa := trim t; content_fa := trim c |} in
            let translatedHadiths1 := translatedHadiths ++ [newHadith] in
            let st3 := emit (WriteFile translatedHadiths1) st2 in
            let st4 := emit (LogSaved (Parser.out_id hadith)) st3 in
            translate_loop translatedIds rest translatedHadiths1 st4
        | _, _ => (Throw TypeError, st2)      (* .trim is not a function *)
        end
  end.

Definition farsi_directly (hadith : Hadith) : TranslatedHadith :=
  {| original :=
       {| Parser.out_vol := Parser.out_vol hadith;
          Parser.out_sec := Parser.out_sec hadith;
          Parser.out_pages := Parser.out_pages hadith;
          Parser.out_id := Parser.out_id hadith;
          Parser.out_title := EmptyString;
          Parser.out_ghael := Parser.out_ghael hadith;
          Parser.out_sanad := Parser.out_sanad hadith;
          Parser.out_content := EmptyString |};
     title_fa := Parser.out_title hadith;
     content_fa := Parser.out_content hadith |}.

Definition ids_of (translatedHadiths : list TranslatedHadith) : gset string :=
  list_to_set (map (λ h, Parser.out_id (original h)) translatedHadiths).

(** The [return] of line 135 is inside the [try]: when the book is not
    translated the function ends there, and [fixTranslatedFile] (line 190)
    is not called. *)
Definition main (hadiths : list Hadith) (doTranslate : bool)
    (existing : ReadResult) (st : State) : State :=
  if negb doTranslate then emit (WriteFile (map farsi_directly hadiths)) st
  else
    let st1 :=
      match existing with
      | OtherError => emit LogError st
      | ENOENT =>
          match translate_loop ∅ hadiths [] st with
          | (Ok _, st') => st'
          | (Throw _, st') => emit LogError st'
          end
      | Loaded translatedHadiths =>
          match translate_loop (ids_of translatedHadiths) hadiths translatedHadiths st with
          | (Ok _, st') => st'
          | (Throw _, st') => emit LogError st'
          end
      end in
    emit FixFile st1.

End Driver.

(** ** [fixTranslatedFile]: the text written back

    The file is read as a JavaScript string, a sequence of UTF-16 code
    units.  Both regular expressions are a literal of three code units
    with the [g] flag, so [replace] scans from the left and replaces every
    match, going on after the match; the replacements hold no [$] and are
    inserted as they are. *)

Section Replace.
Variables (open letter close : N) (replacement : list N).

(** A match of [/\(letter\)/] at the head of [data]. *)
Definition starts (data : list N) : bool :=
  match data with
  | x :: rest =>
      N.eqb x open &&
      match rest with
      | y :: rest' =>
          N.eqb y letter &&
          match rest' with
          | z :: _ => N.eqb z close
          | [] => false
          end
      | [] => false
      end
  | [] => false
  end.

Fixpoint replace (data : list N) : list N :=
  match data with
  | [] => []
  | x :: rest =>
      match rest with
      | y :: z :: rest' =>
          if N.eqb x open && (N.eqb y letter && N.eqb z close)
          then replacement ++ replace rest'
          else x :: replace rest
      | _ => x :: replace rest
      end
  end.

End Replace.

Definition paren_open : N := 40.
Definition paren_close : N := 41.
Definition sad : N := 1589.
Definition ain : N := 1593.

(** "(" sad lam waw alef teh " " alef lam lam heh " " ain lam yeh heh ")" *)
Definition salawat : list N :=
  [40; 1589; 1604; 1608; 1575; 1578; 32; 1575; 1604; 1604; 1607; 32;
   1593; 1604; 1740; 1607; 41]%N.

(** "(" ain lam yeh heh " " alef lam seen lam alef meem ")" *)
Definition salam : list N :=
  [40; 1593; 1604; 1740; 1607; 32; 1575; 1604; 1587; 1604; 1575; 1605; 41]%N.

Definition fixedData (data : list N) : list N :=
  replace paren_open ain paren_close salam
    (replace paren_open sad paren_close salawat data).

End Translate.

(** * Concrete inputs for the examples *)

Module Demo.

(** [trim] on texts whose only white space is ASCII (tab, line feed,
    vertical tab, form feed, carriage return, space). *)
Definition is_space (c : ascii) : bool :=
  let n := nat_of_ascii c in
  ((9 <=? n)%nat && (n <=? 13)%nat) || (n =? 32)%nat.

Fixpoint drop_spaces (s : list ascii) : list ascii :=
  match s with
  | c :: s' => if is_space c then drop_spaces s' else s
  | [] => []
  end.

Definition ascii_trim (s : string) : string :=
  string_of_list_ascii
    (rev (drop_spaces (rev (drop_spaces (list_ascii_of_string s))))).

Definition trim_instance : StringTrim := {| trim := ascii_trim |}.

(** A markup library given by a table: for each fragment text, what the
    selections return. *)
Record Doc := {
  doc_heading : string;
  doc_hadiths : list Parser.HadithElement;
  doc_p_text : string;
}.

Definition no_doc : Doc :=
  {| doc_heading := EmptyString; doc_hadiths := []; doc_p_text := EmptyString |}.

Fixpoint lookup_table {V} (d : V) (table : list (string * V)) (k : string) : V :=
  match table with
  | [] => d
  | (k', v) :: table' => if String.eqb k k' then v else lookup_table d table' k
  end.

Definition table_cheerio (docs : list (string * Doc))
    (matches : list (string * (string * string))) : Parser.Cheerio :=
  {| Parser.heading_text t := doc_heading (lookup_table no_doc docs t);
     Parser.hadith_elements t := doc_hadiths (lookup_table no_doc docs t);
     Parser.p_text t := doc_p_text (lookup_table no_doc docs t);
     Parser.fallback_pattern t :=
       lookup_table None (map (λ kv, (kv.1, Some kv.2)) matches) t |}.

(** A directory given by a table; a file that is not listed is not JSON. *)
Definition files (table : list (string * Parser.FileContent)) (filePath : string)
  : Parser.FileContent :=
  lookup_table Parser.NotJson table filePath.

Definition page_of (ps : list Parser.Parag) : Parser.FileContent :=
  Parser.Json {| Parser.data := Some [{| Parser.paragList := Some ps |}] |}.

Definition element (index : option string) (p_id : option string)
    (content : string) : Parser.HadithElement :=
  {| Parser.revayatindex := index; Parser.closest_p_id := p_id;
     Parser.hadithContent := content; Parser.ghaelText := "ghael";
     Parser.sanadText := "sanad" |}.

(** One quotation, numbered 12, met on page 3 and twice on page 7. *)
Definition page3 : string := "/b/volume_1/section_1/page_3.json".
Definition page7 : string := "/b/volume_1/section_1/page_7.json".

Definition first12 : Parser.HadithElement := element (Some "12"%string) (Some "a"%string) "first text".
Definition second12 : Parser.HadithElement := element (Some "12"%string) (Some "b"%string) "second text".
Definition third12 : Parser.HadithElement := element (Some "12"%string) (Some "c"%string) "first text".

Definition merge_cheerio : Parser.Cheerio :=
  table_cheerio
    [("<p id=a><heading>Knowledge</heading>...</p>"%string,
      {| doc_heading := "Knowledge"; doc_hadiths := [first12];
         doc_p_text := "Knowledge first text" |});
     ("<p id=b><heading>Prayer</heading>...</p>"%string,
      {| doc_heading := "Prayer"; doc_hadiths := [second12];
         doc_p_text := "Prayer second text" |});
     ("<p id=c>...</p>"%string,
      {| doc_heading := EmptyString; doc_hadiths := [third12];
         doc_p_text := "first text" |})]
    [].

Definition merge_files : string → Parser.FileContent :=
  files
    [(page3, page_of [{| Parser.text := "<p id=a><heading>Knowledge</heading>...</p>";
                         Parser.paragraphId := "a" |}]);
     (page7, page_of [{| Parser.text := "<p id=b><heading>Prayer</heading>...</p>";
                         Parser.paragraphId := "b" |};
                      {| Parser.text := "<p id=c>...</p>";
                         Parser.paragraphId := "c" |}])].

Definition record12 (pages : list N) (parts : list string) : Parser.Hadith :=
  {| Parser.vol := 1; Parser.sec := 1; Parser.pages := pages; Parser.id := "12";
     Parser.title := "Knowledge"; Parser.ghael := "ghael"; Parser.sanad := "sanad";
     Parser.parts := parts |}.

Definition after_page3 : Parser.State :=
  {| Parser.hadithsById := {[ "12"%string := record12 [3%N] ["first text"%string] ]};
     Parser.currentTitle := "Knowledge" |}.

Definition after_page7 : Parser.State :=
  {| Parser.hadithsById :=
       {[ "12"%string := record12 [3%N; 7%N] ["first text"; "second text"]%string ]};
     Parser.currentTitle := "Prayer" |}.

(** The same pages, with a markup library whose fallback pattern matches
    the first fragment as well. *)
Definition gated_cheerio : Parser.Cheerio :=
  {| Parser.heading_text := Parser.heading_text (Cheerio := merge_cheerio);
     Parser.hadith_elements := Parser.hadith_elements (Cheerio := merge_cheerio);
     Parser.p_text := Parser.p_text (Cheerio := merge_cheerio);
     Parser.fallback_pattern t :=
       if String.eqb t "Knowledge first text"
       then Some ("Knowledge"%string, "first text"%string) else None |}.

(** Page 7 damaged in four ways. *)
Definition with_page7 (content : Parser.FileContent) : string → Parser.FileContent :=
  files
    [(page3, page_of [{| Parser.text := "<p id=a><heading>Knowledge</heading>...</p>";
                         Parser.paragraphId := "a" |}]);
     (page7, content)].

Definition no_data : Parser.FileContent := Parser.Json {| Parser.data := None |}.
Definition empty_data : Parser.FileContent := Parser.Json {| Parser.data := Some [] |}.
Definition no_paragList : Parser.FileContent :=
  Parser.Json {| Parser.data := Some [{| Parser.paragList := None |}] |}.

(** A book without quotation elements: two headings, and three fragments
    of the form the fallback pattern matches, the first and the last with
    the same paragraph identifier. *)
Definition plain_cheerio : Parser.Cheerio :=
  table_cheerio
    [("<p><heading>Knowledge</heading>A said: <x></p>"%string,
      {| doc_heading := "Knowledge"; doc_hadiths := [];
         doc_p_text := "Knowledge A said: <x>" |});
     ("<p><heading>Prayer</heading>B said: <y></p>"%string,
      {| doc_heading := "Prayer"; doc_hadiths := [];
         doc_p_text := "Prayer B said: <y>" |});
     ("<p>C said: <z></p>"%string,
      {| doc_heading := EmptyString; doc_hadiths := [];
         doc_p_text := "C said: <z>" |})]
    [("Knowledge A said: <x>", ("Knowledge A ", " x "));
     ("Prayer B said: <y>", ("Prayer B", "y"));
     ("C said: <z>", ("C", "z"))]%string.

Definition plain_a : Parser.Parag :=
  {| Parser.text := "<p><heading>Knowledge</heading>A said: <x></p>";
     Parser.paragraphId := "1" |}.
Definition plain_b : Parser.Parag :=
  {| Parser.text := "<p><heading>Prayer</heading>B said: <y></p>";
     Parser.paragraphId := "2" |}.
Definition plain_c : Parser.Parag :=
  {| Parser.text := "<p>C said: <z></p>"; Parser.paragraphId := "1" |}.

Definition plain_files : string → Parser.FileContent :=
  files [(page3, page_of [plain_a]); (page7, page_of [plain_b; plain_c])].

Definition plain_record (pg : N) (i ghael content : string) : Parser.Hadith :=
  {| Parser.vol := 1; Parser.sec := 1; Parser.pages := [pg]; Parser.id := i;
     Parser.title := "Prayer"; Parser.ghael := ghael; Parser.sanad := EmptyString;
     Parser.parts := [content] |}.

Definition plain_result : gmap string Parser.Hadith :=
  {[ "fallback_1"%string := plain_record 3 "fallback_1" "Knowledge A" "x";
     "fallback_2"%string := plain_record 7 "fallback_2" "Prayer B" "y" ]}.

Definition plain_run_result : Parser.Run :=
  {| Parser.log := [Parser.LogStarting; Parser.LogFound 2; Parser.LogTryingFallback;
                    Parser.LogSaved 2; Parser.LogComplete];
     Parser.extracted := plain_result;
     Parser.written := Parser.finalize (T := trim_instance) <$> plain_result |}.

(** Two pages and two quotation elements without index whose synthesized
    identities are the same text: the directory page_1.json_x lies next to
    the file page_1.json. *)
Definition deep_page1 : string := "/b/volume_1/section_1/page_1.json".
Definition deep_page2 : string :=
  "/b/volume_1/section_1/page_1.json_x/volume_1/section_1/page_2.json".

Definition deep_first : Parser.HadithElement :=
  element None (Some "x/volume_1/section_1/page_2.json_7"%string) "text A".
Definition deep_second : Parser.HadithElement :=
  element None (Some "7"%string) "text B".

Definition deep_cheerio : Parser.Cheerio :=
  table_cheerio
    [("<p id=x/volume_1/section_1/page_2.json_7>...</p>"%string,
      {| doc_heading := EmptyString; doc_hadiths := [deep_first];
         doc_p_text := "text A" |});
     ("<p id=7>...</p>"%string,
      {| doc_heading := EmptyString; doc_hadiths := [deep_second];
         doc_p_text := "text B" |})]
    [].

Definition deep_files : string → Parser.FileContent :=
  files
    [(deep_page1,
      page_of [{| Parser.text := "<p id=x/volume_1/section_1/page_2.json_7>...</p>";
                  Parser.paragraphId := "x/volume_1/section_1/page_2.json_7" |}]);
     (deep_page2,
      page_of [{| Parser.text := "<p id=7>...</p>"; Parser.paragraphId := "7" |}])].

(** Two elements without index in two paragraphs of one page. *)
Definition gen_first : Parser.HadithElement := element None (Some "p_1"%string) "text A".
Definition gen_second : Parser.HadithElement := element None (Some "p_2"%string) "text B".

(** A service that answers every request, and one that refuses every
    request (429: too many requests). *)
Definition echo_service (history : list Translate.Event) (apiKey : option string)
    (prompt : string) : Translate.ApiResult :=
  Translate.Translated (" fa: " +:+ prompt).

Definition busy_service (history : list Translate.Event) (apiKey : option string)
    (prompt : string) : Translate.ApiResult :=
  Translate.Failed (Some 429%N).

Definition hadith (i title content : string) : Translate.Hadith :=
  {| Parser.out_vol := 1; Parser.out_sec := 1; Parser.out_pages := [1%N];
     Parser.out_id := i; Parser.out_title := title; Parser.out_ghael := "ghael";
     Parser.out_sanad := "sanad"; Parser.out_content := content |}.

(** Three records, the first already translated by an earlier run, the
    second without body. *)
Definition book : list Translate.Hadith :=
  [hadith "1" "Knowledge" "text one"; hadith "2" "Knowledge" "   ";
   hadith "3" "Prayer" "text three"].

Definition earlier : list Translate.TranslatedHadith :=
  [{| Translate.original := hadith "1" "Knowledge" "text one";
      Translate.title_fa := "danesh"; Translate.content_fa := "matn" |}].


(** A book directory: two volumes, a file the pattern leaves out, a
    directory and a link with names in .json. *)
Definition book_dir : list Parser.Dirent :=
  [Parser.Directory "volume_1"
     [Parser.Directory "section_1"
        [Parser.RegularFile "page_2.json"; Parser.RegularFile "page_10.json";
         Parser.RegularFile "notes.txt"];
      Parser.Directory "section_2" [Parser.RegularFile "page_1.json"]];
   Parser.RegularFile "hadiths.json";
   Parser.Directory "old.json" [];
   Parser.Special "link.json";
   Parser.Directory "volume_2"
     [Parser.Directory "section_1" [Parser.RegularFile "page_1.json"]]].

(** Page 7 holds a quotation whose index attribute is the word
    constructor. *)
Definition named_cheerio : Parser.Cheerio :=
  table_cheerio
    [("<p id=a><heading>Knowledge</heading>...</p>"%string,
      {| doc_heading := "Knowledge"; doc_hadiths := [first12];
         doc_p_text := "Knowledge first text" |});
     ("<p id=b>...</p>"%string,
      {| doc_heading := EmptyString;
         doc_hadiths := [element (Some "constructor"%string) (Some "b"%string) "text"];
         doc_p_text := "text" |})]
    [].

Definition named_parag : Parser.Parag :=
  {| Parser.text := "<p id=b>...</p>"; Parser.paragraphId := "b" |}.

Definition named_files : string → Parser.FileContent :=
  files
    [(page3, page_of [{| Parser.text := "<p id=a><heading>Knowledge</heading>...</p>";
                         Parser.paragraphId := "a" |}]);
     (page7, page_of [named_parag])].




End Demo.

(** * Vocabulary of the statements *)

(** The lexicographic order on (volume, section, page). *)
Definition triple_le (a b : N * N * N) : Prop :=
  let '(v1, s1, p1) := a in
  let '(v2, s2, p2) := b in
  (v1 < v2 ∨ (v1 = v2 ∧ (s1 < s2 ∨ (s1 = s2 ∧ p1 ≤ p2))))%N.

Definition path_le (p q : string) : Prop :=
  match Parser.matchPath p, Parser.matchPath q with
  | Some a, Some b => triple_le a b
  | _, _ => False
  end.

Definition matches (filePath : string) : Prop := is_Some (Parser.matchPath filePath).

(** The paths of one (volume, section) group, and the entry pushed for a
    path. *)
Definition in_group (v s : N) (filePath : string) : bool :=
  match Parser.matchPath filePath with
  | Some (v', s', _) => (v' =? v)%N && (s' =? s)%N
  | None => false
  end.

Definition entry_of (filePath : string) : Parser.PageEntry :=
  {| Parser.path := filePath;
     Parser.page := match Parser.matchPath filePath with
                    | Some (_, _, pg) => pg
                    | None => 0%N
                    end |}.

(** The fields of a record that are set when it is created. *)
Definition same_frame (r r' : Parser.Hadith) : Prop :=
  Parser.vol r' = Parser.vol r ∧ Parser.sec r' = Parser.sec r ∧
  Parser.id r' = Parser.id r ∧ Parser.title r' = Parser.title r ∧
  Parser.ghael r' = Parser.ghael r ∧ Parser.sanad r' = Parser.sanad r.

(** Every record of [m] is still in [m'], with the same frame, and with
    pages and parts that only grew at the end. *)
Definition kept (m m' : gmap string Parser.Hadith) : Prop :=
  ∀ k r, m !! k = Some r →
    ∃ r', m' !! k = Some r' ∧ same_frame r r' ∧
          Parser.pages r `prefix_of` Parser.pages r' ∧
          Parser.parts r `prefix_of` Parser.parts r'.

(** Appending to a list what it does not hold yet; for a text, only when
    the text is not empty. *)
Definition append_new {A} `{EqDecision A} (l : list A) (x : A) : list A :=
  if decide (x ∈ l) then l else l ++ [x].

Definition append_text (l : list string) (t : string) : list string :=
  if decide (t = EmptyString) then l else append_new l t.

(** The paragraphs a pass visits on a page. *)
Definition paragraphs (readFile : string → Parser.FileContent) (filePath : string)
  : list Parser.Parag :=
  match Parser.open_page readFile filePath with
  | Ok (Some (_, _, _, ps)) => ps
  | _ => []
  end.

(** A page that is not JSON, or has no [data] array, or an empty one. *)
Definition broken (content : Parser.FileContent) : Prop :=
  match content with
  | Parser.NotJson => True
  | Parser.Json jsonData =>
      match Parser.data jsonData with
      | None | Some [] => True
      | Some (_ :: _) => False
      end
  end.

(** A page whose [data[0]] has no [paragList]. *)
Definition lacks_paragList (content : Parser.FileContent) : Prop :=
  match content with
  | Parser.NotJson => False
  | Parser.Json jsonData =>
      match Parser.data jsonData with
      | Some (first :: _) => Parser.paragList first = None
      | _ => False
      end
  end.

(** Whether a character occurs in a string. *)
Fixpoint has_char (c : ascii) (s : string) : bool :=
  match s with
  | EmptyString => false
  | String a s' => Ascii.eqb a c || has_char c s'
  end.

Definition underscore : ascii := ascii_of_nat 95.

(** The one way two synthesized identities with different parts can be the
    same text: the first path is the second, an underscore and some [x],
    and the second paragraph identifier is [x], an underscore and the
    first. *)
Definition ambiguous (fp1 p1 fp2 p2 : string) : Prop :=
  ∃ x, fp1 = fp2 +:+ "_" +:+ x ∧ p2 = x +:+ "_" +:+ p1.

(** The requests among some events. *)
Fixpoint requests (evs : list Translate.Event) : nat :=
  match evs with
  | [] => 0
  | Translate.Request _ _ :: evs' => S (requests evs')
  | _ :: evs' => requests evs'
  end.

(** The events of one call of [translateText]. *)
Definition service_event (e : Translate.Event) : Prop :=
  match e with
  | Translate.Request _ _ | Translate.BackOff _ | Translate.LogMaxAttempts _ => True
  | _ => False
  end.

(** A record the resumed loop does not skip: its identity is not in the
    partial file and its body is not empty. *)
Definition pending {T : StringTrim} (translatedIds : gset string)
    (hadith : Translate.Hadith) : bool :=
  negb (bool_decide (Parser.out_id hadith ∈ translatedIds))
  && truthy (trim (Parser.out_content hadith)).

(** The events of the loop over the records to translate, starting with
    [acc] in the partial file: for each record its log line, the events of
    its two translations, the file written with the record added, the log
    line; and so on with the next record.  The loop ends early, on an
    exception, at a record whose title is a name of [Object.prototype]. *)
Inductive loop_run : list Translate.TranslatedHadith → list Translate.Hadith →
    list Translate.Event → Exc (list Translate.TranslatedHadith) → Prop :=
| run_done acc : loop_run acc [] [] (Ok acc)
| run_record acc h new todo reqs evs res :
    Translate.original new = h →
    Forall service_event reqs →
    loop_run (acc ++ [new]) todo evs res →
    loop_run acc (h :: todo)
      (Translate.LogTranslating (Parser.out_id h) :: reqs
         ++ Translate.WriteFile (acc ++ [new])
         :: Translate.LogSaved (Parser.out_id h) :: evs)
      res
| run_crash acc h todo reqs :
    proto_key (Parser.out_title h) = true →
    Forall service_event reqs →
    loop_run acc (h :: todo)
      (Translate.LogTranslating (Parser.out_id h) :: reqs) (Throw TypeError).




(** The state after some calls of [translateText], made one after the
    other: each with its text, for a title or for a content. *)
Fixpoint after_calls (apiKeys : list string)
    (generateContent : list Translate.Event → option string → string → Translate.ApiResult)
    (calls : list (string * bool)) (st : Translate.State) : Translate.State :=
  match calls with
  | [] => st
  | (text, isTitle) :: rest =>
      after_calls apiKeys generateContent rest
        (Translate.translateText apiKeys generateContent text isTitle st).2
  end.

(** For the examples: the identities of the records of a written file. *)
Definition join_ids (ids : list string) : string :=
  fold_left (λ acc i, acc +:+ " " +:+ i) ids "write"%string.

(** A name as [readdir] lists it: not empty, neither [.] nor [..], without
    a slash; and a listing with such names only, at every depth. *)
Definition proper (name : string) : bool :=
  negb (String.eqb name EmptyString) && negb (String.eqb name ".")
  && negb (String.eqb name "..") && negb (has_char "/"%char name).

Fixpoint proper_entry (dirent : Parser.Dirent) : bool :=
  match dirent with
  | Parser.RegularFile name | Parser.Special name => proper name
  | Parser.Directory name entries => proper name && forallb proper_entry entries
  end.

(** The absolute path with the given segments, and a path that is absolute
    and normalized. *)
Definition absolute_path (segments : list string) : string :=
  "/" +:+ Parser.join "/" segments.

Definition normalized (p : string) : Prop :=
  ∃ segments, Forall (λ name, proper name = true) segments ∧ p = absolute_path segments.

(** The path of the entry [name] of the directory [dir]. *)
Definition child (dir name : string) : string :=
  if String.eqb dir "/" then "/" +:+ name else dir +:+ "/" +:+ name.

(** A regular file with a name in .json, reached from the directory [dir]
    through directories only; [p] is its path. *)
Inductive found : string → list Parser.Dirent → string → Prop :=
| found_here dir entries name :
    Parser.RegularFile name ∈ entries →
    Parser.endsWith name ".json" = true →
    found dir entries (child dir name)
| found_below dir entries name below p :
    Parser.Directory name below ∈ entries →
    found (child dir name) below p →
    found dir entries p.

(** A non-empty run of decimal digits. *)
Definition digits (l : list ascii) : Prop :=
  l ≠ [] ∧ Forall (λ c, Parser.is_digit c = true) l.

(** The number a run of decimal digits denotes. *)
Fixpoint decimal (l : list ascii) : N :=
  match l with
  | [] => 0
  | c :: rest => (N_of_ascii c - 48) * 10 ^ N.of_nat (List.length rest) + decimal rest
  end%N.

(** The paths of the language of the pattern: anything, then
    volume_<V>/section_<S>/page_<P>.json. *)
Definition page_path (pre dv ds dp : list ascii) : list ascii :=
  pre ++ list_ascii_of_string "volume_" ++ dv
      ++ list_ascii_of_string "/section_" ++ ds
      ++ list_ascii_of_string "/page_" ++ dp
      ++ list_ascii_of_string ".json".

(** The integer triple of a path of the pattern: the numbers its three runs
    of digits denote. *)
Definition triple_of (filePath : string) (t : N * N * N) : Prop :=
  ∃ pre dv ds dp,
    list_ascii_of_string filePath = page_path pre dv ds dp ∧
    digits dv ∧ digits ds ∧ digits dp ∧
    t = (decimal dv, decimal ds, decimal dp).

(** Numbers that a double holds exactly. *)
Definition safe (t : N * N * N) : Prop :=
  let '(v, s, p) := t in (v ≤ 2 ^ 53 ∧ s ≤ 2 ^ 53 ∧ p ≤ 2 ^ 53)%N.

(** Every path comes before all the paths after it, in the order of the
    integer triples. *)
Definition ordered_by_integers (l : list string) : Prop :=
  StronglySorted
    (λ p q, ∀ tp tq, triple_of p tp → triple_of q tq → triple_le tp tq) l.

(** The three runs of digits the pattern captures. *)
Definition captures (filePath : string)
  : option (list ascii * list ascii * list ascii) :=
  '(p, r1) ← Parser.literal_then_digits ".json" (rev (list_ascii_of_string filePath));
  '(s, r2) ← Parser.literal_then_digits "/page_" r1;
  '(v, r3) ← Parser.literal_then_digits "/section_" r2;
  _ ← Parser.strip_prefix (rev (list_ascii_of_string "volume_")) r3;
  Some (v, s, p).

(** The current title after the paragraphs [ps], from the title [t]: the
    last heading that is not empty, or [t]. *)
Definition last_heading {C : Parser.Cheerio} (ps : list Parser.Parag) (t : string)
  : string :=
  fold_left
    (λ t parag,
       if truthy (Parser.heading_text (Parser.text parag))
       then Parser.heading_text (Parser.text parag) else t)
    ps t.

(** The same over the pages of a traversal. *)
Definition title_after {C : Parser.Cheerio} (readFile : string → Parser.FileContent)
    (sorted : list string) (t : string) : string :=
  fold_left (λ t filePath, last_heading (paragraphs readFile filePath) t) sorted t.

(** The occurrence of the element [h] on page [pg] of [filePath] is in the
    map: its identity has a record with that page and, unless it is empty,
    that text. *)
Definition absorbed (m : gmap string Parser.Hadith) (filePath : string) (pg : N)
    (h : Parser.HadithElement) : Prop :=
  ∃ r, m !! Parser.identity filePath h = Some r ∧
       pg ∈ Parser.pages r ∧
       (Parser.hadithContent h = EmptyString
        ∨ Parser.hadithContent h ∈ Parser.parts r).

(** The occurrences a pass meets, in the order of the traversal: the page
    file, its page number, the quotation element. *)
Abbreviation occurrence := (string * N * Parser.HadithElement)%type.






(** The record the fallback pass makes of a paragraph that its pattern
    matches, with its identity; and the records it would make of all the
    paragraphs of a traversal, in order, were there no collision. *)
Definition candidate_of {C : Parser.Cheerio} {T : StringTrim} (v s pg : N)
    (title : string) (parag : Parser.Parag) : list (string * Parser.Hadith) :=
  match Parser.fallback_pattern (Parser.p_text (Parser.text parag)) with
  | Some (g, c) =>
      [("fallback_" +:+ Parser.paragraphId parag,
        {| Parser.vol := v; Parser.sec := s; Parser.pages := [pg];
           Parser.id := "fallback_" +:+ Parser.paragraphId parag;
           Parser.title := title; Parser.ghael := trim g;
           Parser.sanad := EmptyString; Parser.parts := [trim c] |})]
  | None => []
  end.

Definition candidates {C : Parser.Cheerio} {T : StringTrim}
    (readFile : string → Parser.FileContent) (title : string) (sorted : list string)
  : list (string * Parser.Hadith) :=
  filePath ← sorted;
  match Parser.matchPath filePath with
  | Some (v, s, pg) => paragraphs readFile filePath ≫= candidate_of v s pg title
  | None => []
  end.

(** The record of [k] after the candidates [cands] from the map [m]: the
    one [m] has, or else the first candidate with that identity. *)
Definition first_of (k : string) (m : gmap string Parser.Hadith)
    (cands : list (string * Parser.Hadith)) : option Parser.Hadith :=
  match m !! k with
  | Some r => Some r
  | None => snd <$> head (filter (λ c, c.1 = k) cands)
  end.

(** A record as the parser leaves it: stored under its own identity, which
    is no name of [Object.prototype], with at least one page and no page or
    text twice. *)
Definition well_formed (m : gmap string Parser.Hadith) : Prop :=
  ∀ k r, m !! k = Some r →
    Parser.id r = k ∧ proto_key k = false ∧ Parser.pages r ≠ [] ∧
    NoDup (Parser.pages r) ∧ NoDup (Parser.parts r).

(** Every record has the volume and section of a path of [sorted] whose
    page is the first of its pages, and each of its pages is the page of a
    path of [sorted]. *)
Definition from_pages (sorted : list string) (m : gmap string Parser.Hadith) : Prop :=
  ∀ k r, m !! k = Some r →
    (∃ filePath pg, filePath ∈ sorted ∧
       Parser.matchPath filePath = Some (Parser.vol r, Parser.sec r, pg) ∧
       head (Parser.pages r) = Some pg) ∧
    (∀ pg, pg ∈ Parser.pages r →
       ∃ filePath v s, filePath ∈ sorted ∧ Parser.matchPath filePath = Some (v, s, pg)).

(** A record of the fallback pass. *)
Definition fallback_shaped (m : gmap string Parser.Hadith) : Prop :=
  ∀ k r, m !! k = Some r →
    (∃ paragraphId, k = "fallback_" +:+ paragraphId) ∧
    (∃ pg, Parser.pages r = [pg]) ∧ (∃ content, Parser.parts r = [content]) ∧
    Parser.sanad r = EmptyString.

(** No record is stored under a name of [Object.prototype]. *)
Definition no_inherited (m : gmap string Parser.Hadith) : Prop :=
  ∀ k, is_Some (m !! k) → proto_key k = false.

(** A function that leaves every title as it is, or sends every title to
    the same one. *)
Definition id_or_const (f : string → string) : Prop :=
  (∀ t, f t = t) ∨ (∃ c, ∀ t, f t = c).

(** The credentials of the requests among some events, and the lists
    written to the output file, in order. *)
Fixpoint request_keys (evs : list Translate.Event) : list (option string) :=
  match evs with
  | [] => []
  | Translate.Request apiKey _ :: evs' => apiKey :: request_keys evs'
  | _ :: evs' => request_keys evs'
  end.

Fixpoint writes (evs : list Translate.Event) : list (list Translate.TranslatedHadith) :=
  match evs with
  | [] => []
  | Translate.WriteFile records :: evs' => records :: writes evs'
  | _ :: evs' => writes evs'
  end.

Definition is_backoff (e : Translate.Event) : Prop :=
  match e with
  | Translate.BackOff _ => True
  | _ => False
  end.

(** The identities of the records of a translated file. *)
Definition ids (records : list Translate.TranslatedHadith) : list string :=
  map (λ e, Parser.out_id (Translate.original e)) records.

(** [pattern] occurs somewhere in [data]. *)
Definition occurs_in (pattern data : list N) : Prop :=
  ∃ l r, data = l ++ pattern ++ r.

Fixpoint occurs (open letter close : N) (data : list N) : bool :=
  match data with
  | [] => false
  | _ :: rest =>
      Translate.starts open letter close data || occurs open letter close rest
  end.

(** * Properties *)

(** ** Sorting *)

Section Sorting.
Context {A : Type} (key : A → N).

Lemma insert_by_perm x l : Parser.insert_by key x l ≡ₚ x :: l.
Proof.
  induction l as [|y l IH]; simpl; [done|].
  destruct (key x <=? key y)%N; [done|].
  rewrite IH. apply Permutation_swap.
Qed.

Lemma sort_by_perm l : Parser.sort_by key l ≡ₚ l.
Proof.
  induction l as [|x l IH]; simpl; [done|].
  by rewrite insert_by_perm, IH.
Qed.

Lemma insert_by_sorted x l :
  StronglySorted (λ a b, (key a ≤ key b)%N) l →
  StronglySorted (λ a b, (key a ≤ key b)%N) (Parser.insert_by key x l).
Proof.
  induction 1 as [|y l Hs IH Hy]; simpl.
  - repeat constructor.
  - destruct (N.leb_spec (key x) (key y)) as [Hle|Hlt].
    + constructor; [by constructor|].
      constructor; [done|].
      eapply Forall_impl; [exact Hy|]. simpl. intros z Hz. lia.
    + constructor; [done|].
      rewrite insert_by_perm. constructor; [lia|done].
Qed.

Lemma sort_by_sorted l :
  StronglySorted (λ a b, (key a ≤ key b)%N) (Parser.sort_by key l).
Proof.
  induction l as [|x l IH]; simpl; [constructor|].
  by apply insert_by_sorted.
Qed.

End Sorting.

Lemma sorted_keys_elem {V} (o : gmap N V) k :
  k ∈ Parser.sorted_keys o ↔ is_Some (o !! k).
Proof.
  unfold Parser.sorted_keys. rewrite sort_by_perm.
  rewrite list_elem_of_fmap. split.
  - intros [[k' v] [-> Hin]]. apply elem_of_map_to_list in Hin. by exists v.
  - intros [v Hv]. exists (k, v). split; [done|]. by apply elem_of_map_to_list.
Qed.

Lemma sorted_keys_nodup {V} (o : gmap N V) : NoDup (Parser.sorted_keys o).
Proof.
  unfold Parser.sorted_keys. rewrite sort_by_perm. apply NoDup_fst_map_to_list.
Qed.

Lemma sorted_keys_ascending {V} (o : gmap N V) :
  StronglySorted N.lt (Parser.sorted_keys o).
Proof.
  pose proof (sorted_keys_nodup o) as Hnd.
  pose proof (sort_by_sorted id (map_to_list o).*1) as Hs.
  fold (Parser.sorted_keys o) in Hs.
  induction Hs as [|k l Hs IH Hk]; [constructor|].
  apply NoDup_cons in Hnd as [Hnotin Hnd].
  constructor; [by apply IH|].
  apply Forall_forall. intros k' Hin.
  rewrite Forall_forall in Hk. specialize (Hk k' Hin). unfold id in Hk.
  assert (k ≠ k') by (intros ->; done). lia.
Qed.

(** ** Grouping *)

Lemma pages_of_group_step acc filePath v s :
  Parser.pages_of (Parser.group_step acc filePath) v s
  = Parser.pages_of acc v s ++ (if in_group v s filePath then [entry_of filePath] else []).
Proof.
  unfold Parser.group_step, in_group, entry_of, Parser.pages_of.
  destruct (Parser.matchPath filePath) as [[[v' s'] pg]|]; [|by rewrite app_nil_r].
  destruct (N.eqb_spec v' v) as [->|Hv]; simpl.
  - destruct (N.eqb_spec s' s) as [->|Hs]; simpl.
    + destruct (acc !! v) as [secs|] eqn:Hacc; simpl.
      * rewrite Hacc. simpl. rewrite lookup_insert_eq. simpl.
        destruct (secs !! s) as [l|] eqn:Hsecs; simpl.
        -- rewrite Hsecs. simpl. by rewrite lookup_insert_eq.
        -- by rewrite !lookup_insert_eq.
      * rewrite !lookup_insert_eq. simpl. rewrite lookup_empty. simpl.
        by rewrite !lookup_insert_eq.
    + rewrite app_nil_r.
      destruct (acc !! v) as [secs|] eqn:Hacc; simpl.
      * rewrite Hacc. simpl. rewrite lookup_insert_eq. simpl.
        destruct (secs !! s') as [l|] eqn:Hsecs; simpl.
        -- by rewrite lookup_insert_ne.
        -- by rewrite !lookup_insert_ne.
      * rewrite !lookup_insert_eq. simpl. rewrite lookup_empty. simpl.
        rewrite !lookup_insert_ne by done. by rewrite lookup_empty.
  - rewrite app_nil_r.
    destruct (acc !! v') as [secs|] eqn:Hacc; simpl.
    + by rewrite lookup_insert_ne.
    + by rewrite !lookup_insert_ne.
Qed.

Lemma pages_of_fold paths acc v s :
  Parser.pages_of (fold_left Parser.group_step paths acc) v s
  = Parser.pages_of acc v s ++ (entry_of <$> filter (λ p, in_group v s p = true) paths).
Proof.
  revert acc. induction paths as [|p paths IH]; intros acc; simpl.
  - by rewrite app_nil_r.
  - rewrite IH, pages_of_group_step, <-app_assoc. f_equal.
    rewrite filter_cons. destruct (in_group v s p) eqn:Hg.
    + by rewrite decide_True.
    + by rewrite decide_False.
Qed.

Lemma pages_of_groupedFiles paths v s :
  Parser.pages_of (Parser.groupedFiles paths) v s
  = entry_of <$> filter (λ p, in_group v s p = true) paths.
Proof.
  unfold Parser.groupedFiles. rewrite pages_of_fold.
  unfold Parser.pages_of. by rewrite lookup_empty.
Qed.

(** ** Concatenating groups taken in key order *)

Section Groups.
Context {A : Type}.

Lemma bind_perm_ext (f g : N → list A) ks :
  (∀ k, k ∈ ks → f k ≡ₚ g k) → ks ≫= f ≡ₚ ks ≫= g.
Proof.
  induction ks as [|k ks IH]; intros Hfg; [done|].
  rewrite !bind_cons. f_equiv.
  - apply Hfg. left.
  - apply IH. intros k' Hk'. apply Hfg. by right.
Qed.

Lemma bind_filter_cons (key : A → N) x l ks :
  NoDup ks →
  (ks ≫= λ k, filter (λ y, key y = k) (x :: l))
  ≡ₚ (if decide (key x ∈ ks) then [x] else []) ++ (ks ≫= λ k, filter (λ y, key y = k) l).
Proof.
  induction 1 as [|k ks Hk Hnd IH]; [done|].
  rewrite !bind_cons, IH, filter_cons.
  destruct (decide (key x = k)) as [<-|Hne].
  - destruct (decide (key x ∈ ks)); [done|].
    destruct (decide (key x ∈ key x :: ks)) as [_|Hn]; [done|].
    destruct Hn. left.
  - destruct (decide (key x ∈ ks)) as [Hin|Hnin].
    + destruct (decide (key x ∈ k :: ks)) as [_|Hn]; [|destruct Hn; by right].
      simpl. by rewrite Permutation_middle.
    + destruct (decide (key x ∈ k :: ks)) as [Hn|_]; [|done].
      apply elem_of_cons in Hn as [?|?]; done.
Qed.

(** Groups taken over keys that cover the list, each once, are the list up
    to order. *)
Lemma bind_partition (key : A → N) ks l :
  NoDup ks → (∀ x, x ∈ l → key x ∈ ks) →
  (ks ≫= λ k, filter (λ y, key y = k) l) ≡ₚ l.
Proof.
  intros Hnd. induction l as [|x l IH]; intros Hcover.
  - clear. induction ks as [|k ks IH]; [done|]. by rewrite bind_cons, IH.
  - rewrite bind_filter_cons by done.
    rewrite decide_True by (apply Hcover; left). simpl. f_equiv.
    apply IH. intros y Hy. apply Hcover. by right.
Qed.

(** Groups that are sorted, taken in ascending key order, are sorted when
    the order of the keys decides the order of the elements. *)
Lemma bind_sorted (R : relation A) (f : N → list A) ks :
  StronglySorted N.lt ks →
  (∀ k, k ∈ ks → StronglySorted R (f k)) →
  (∀ k1 k2 x y, (k1 < k2)%N → x ∈ f k1 → y ∈ f k2 → R x y) →
  StronglySorted R (ks ≫= f).
Proof.
  intros Hks Hin Hacross.
  induction Hks as [|k ks Hks IH Hk]; [constructor|].
  rewrite bind_cons. apply StronglySorted_app_2.
  - intros x y Hx Hy. apply list_elem_of_bind in Hy as [k' [Hy Hk']].
    rewrite Forall_forall in Hk. eapply Hacross; [by apply Hk|done..].
  - apply Hin. left.
  - apply IH. intros k' Hk'. apply Hin. by right.
Qed.

End Groups.

(** ** The order of processing *)

Lemma in_group_spec v s p :
  in_group v s p = true ↔ ∃ pg, Parser.matchPath p = Some (v, s, pg).
Proof.
  unfold in_group. destruct (Parser.matchPath p) as [[[v' s'] pg]|].
  - rewrite andb_true_iff, !N.eqb_eq. split.
    + intros [-> ->]. by exists pg.
    + intros [pg' [= -> -> _]]. done.
  - split; [done|]. by intros [? ?].
Qed.

Lemma path_entry_of (l : list string) : Parser.path <$> (entry_of <$> l) = l.
Proof. rewrite <-list_fmap_compose. induction l; simpl; by f_equal. Qed.

(** The paths emitted for one (volume, section) group. *)
Lemma group_elem paths v s p :
  p ∈ Parser.path <$> Parser.sort_by Parser.page
        (Parser.pages_of (Parser.groupedFiles paths) v s)
  ↔ p ∈ paths ∧ in_group v s p = true.
Proof.
  rewrite sort_by_perm, pages_of_groupedFiles, path_entry_of, list_elem_of_filter.
  tauto.
Qed.

Lemma group_keys paths v s p :
  p ∈ paths → in_group v s p = true →
  v ∈ Parser.sorted_keys (Parser.groupedFiles paths) ∧
  s ∈ Parser.sorted_keys (default ∅ (Parser.groupedFiles paths !! v)).
Proof.
  intros Hp Hg.
  assert (entry_of p ∈ Parser.pages_of (Parser.groupedFiles paths) v s) as Hin.
  { rewrite pages_of_groupedFiles. apply list_elem_of_fmap_2.
    by apply list_elem_of_filter. }
  unfold Parser.pages_of in Hin. rewrite !sorted_keys_elem.
  destruct (Parser.groupedFiles paths !! v) as [secs|]; simpl in *.
  - split; [by eexists|].
    destruct (secs !! s); [by eexists|]. by apply elem_of_nil in Hin.
  - rewrite lookup_empty in Hin. by apply elem_of_nil in Hin.
Qed.

Lemma group_sorted paths v s :
  StronglySorted path_le
    (Parser.path <$> Parser.sort_by Parser.page
       (Parser.pages_of (Parser.groupedFiles paths) v s)).
Proof.
  pose proof (sort_by_sorted Parser.page
                (Parser.pages_of (Parser.groupedFiles paths) v s)) as Hs.
  assert (Forall (λ e, e ∈ entry_of <$> filter (λ p, in_group v s p = true) paths)
            (Parser.sort_by Parser.page
               (Parser.pages_of (Parser.groupedFiles paths) v s))) as Hall.
  { apply Forall_forall. intros e.
    by rewrite sort_by_perm, pages_of_groupedFiles. }
  induction Hs as [|e l Hs IH He]; [constructor|].
  apply Forall_cons in Hall as [Hin Hall].
  rewrite fmap_cons. constructor; [by apply IH|].
  apply Forall_fmap, Forall_forall. intros e' He'. simpl.
  rewrite Forall_forall in He, Hall. specialize (He e' He'). specialize (Hall e' He').
  apply list_elem_of_fmap in Hin as [p [-> [Hp _]%list_elem_of_filter]].
  apply list_elem_of_fmap in Hall as [q [-> [Hq _]%list_elem_of_filter]].
  apply in_group_spec in Hp as [pg Hp]. apply in_group_spec in Hq as [qg Hq].
  unfold path_le, entry_of in *. simpl in *. rewrite Hp, Hq in *. simpl. lia.
Qed.

(** ** Primary extraction: what a later occurrence can change *)

Ltac exc_bind :=
  unfold mbind, Exc_bind; simpl.

Lemma kept_refl m : kept m m.
Proof. intros k r Hk. exists r. by repeat split. Qed.

Lemma kept_trans m1 m2 m3 : kept m1 m2 → kept m2 m3 → kept m1 m3.
Proof.
  intros H12 H23 k r Hk.
  destruct (H12 k r Hk) as (r2 & Hk2 & (?&?&?&?&?&?) & Hp2 & Ht2).
  destruct (H23 k r2 Hk2) as (r3 & Hk3 & (?&?&?&?&?&?) & Hp3 & Ht3).
  exists r3. split; [done|]. split; [|split; by etrans].
  repeat split; congruence.
Qed.

Lemma merge_pages r pg content :
  Parser.pages r `prefix_of` Parser.pages (Parser.merge r pg content).
Proof. simpl. case_bool_decide; [done|]. by apply prefix_app_r. Qed.

Lemma merge_parts r pg content :
  Parser.parts r `prefix_of` Parser.parts (Parser.merge r pg content).
Proof. simpl. destruct (_ && _); [by apply prefix_app_r|done]. Qed.

Section Primary.
Context {C : Parser.Cheerio}.

Lemma hadith_step_kept filePath v s pg t m h m' :
  Parser.hadith_step filePath v s pg t m h = Ok m' → kept m m'.
Proof.
  unfold Parser.hadith_step.
  destruct (m !! Parser.identity filePath h) as [r0|] eqn:Hm.
  - intros [= <-] k r Hk.
    destruct (decide (k = Parser.identity filePath h)) as [->|Hne].
    + rewrite lookup_insert_eq. eexists. split; [done|].
      rewrite Hm in Hk. injection Hk as ->.
      split; [by repeat split|]. split; [apply merge_pages|apply merge_parts].
    + rewrite lookup_insert_ne by done. by apply kept_refl.
  - destruct (proto_key _); [done|].
    intros [= <-] k r Hk.
    assert (k ≠ Parser.identity filePath h) by congruence.
    rewrite lookup_insert_ne by done. by apply kept_refl.
Qed.

Lemma each_hadith_kept filePath v s pg t hs m m' :
  Parser.each_hadith filePath v s pg t m hs = Ok m' → kept m m'.
Proof.
  revert m. induction hs as [|h hs IH]; intros m; simpl.
  - intros [= <-]. apply kept_refl.
  - exc_bind. destruct (Parser.hadith_step _ _ _ _ _ _ _) as [m1|] eqn:Hs; [|done].
    intros Hrest. eapply kept_trans; [by eapply hadith_step_kept|by apply IH].
Qed.

Lemma parag_step_kept filePath v s pg st parag st' :
  Parser.parag_step filePath v s pg st parag = Ok st' →
  kept (Parser.hadithsById st) (Parser.hadithsById st').
Proof.
  unfold Parser.parag_step. exc_bind.
  destruct (Parser.each_hadith _ _ _ _ _ _ _) as [m1|] eqn:He; [|done].
  intros [= <-]. simpl. by eapply each_hadith_kept.
Qed.

Lemma for_parags_kept filePath v s pg ps st st' :
  Parser.for_parags filePath v s pg st ps = Ok st' →
  kept (Parser.hadithsById st) (Parser.hadithsById st').
Proof.
  revert st. induction ps as [|parag ps IH]; intros st; simpl.
  - intros [= <-]. apply kept_refl.
  - exc_bind. destruct (Parser.parag_step _ _ _ _ _ _) as [st1|] eqn:Hs; [|done].
    intros Hrest. eapply kept_trans; [by eapply parag_step_kept|by apply IH].
Qed.

Lemma primary_page_kept readFile st filePath st' :
  Parser.primary_page readFile st filePath = Ok st' →
  kept (Parser.hadithsById st) (Parser.hadithsById st').
Proof.
  unfold Parser.primary_page. exc_bind.
  destruct (Parser.open_page readFile filePath) as [[[[[v s] pg] ps]|]|]; [| |done].
  - apply for_parags_kept.
  - intros [= <-]. apply kept_refl.
Qed.

Lemma primary_pass_kept readFile sorted st st' :
  Parser.primary_pass readFile st sorted = Ok st' →
  kept (Parser.hadithsById st) (Parser.hadithsById st').
Proof.
  revert st. induction sorted as [|filePath rest IH]; intros st; simpl.
  - intros [= <-]. apply kept_refl.
  - exc_bind. destruct (Parser.primary_page _ _ _) as [st1|] eqn:Hs; [|done].
    intros Hrest. eapply kept_trans; [by eapply primary_page_kept|by apply IH].
Qed.

(** What every step on a quotation element preserves, the pass preserves. *)
Lemma primary_pass_invariant (P : gmap string Parser.Hadith → Prop) :
  (∀ filePath v s pg t m h m',
     P m → Parser.hadith_step filePath v s pg t m h = Ok m' → P m') →
  ∀ readFile sorted st st',
    P (Parser.hadithsById st) →
    Parser.primary_pass readFile st sorted = Ok st' →
    P (Parser.hadithsById st').
Proof.
  intros Hstep readFile sorted.
  assert (∀ filePath v s pg t hs m m',
            P m → Parser.each_hadith filePath v s pg t m hs = Ok m' → P m') as Heach.
  { intros filePath v s pg t hs. induction hs as [|h hs IH]; intros m m' Hm; simpl.
    - by intros [= <-].
    - exc_bind. destruct (Parser.hadith_step _ _ _ _ _ _ _) as [m1|] eqn:Hs; [|done].
      apply IH. by eapply Hstep. }
  assert (∀ filePath v s pg ps st st',
            P (Parser.hadithsById st) →
            Parser.for_parags filePath v s pg st ps = Ok st' →
            P (Parser.hadithsById st')) as Hparags.
  { intros filePath v s pg ps. induction ps as [|parag ps IH]; intros st st' Hst; simpl.
    - by intros [= <-].
    - exc_bind. unfold Parser.parag_step. exc_bind.
      destruct (Parser.each_hadith _ _ _ _ _ _ _) as [m1|] eqn:He; [|done].
      simpl. apply IH. simpl. by eapply Heach. }
  induction sorted as [|filePath rest IH]; intros st st' Hst; simpl.
  - by intros [= <-].
  - exc_bind. unfold Parser.primary_page. exc_bind.
    destruct (Parser.open_page readFile filePath) as [[[[[v s] pg] ps]|]|]; [| |done].
    + destruct (Parser.for_parags _ _ _ _ _ _) as [st1|] eqn:Hf; [|done].
      apply IH. by eapply Hparags.
    + by apply IH.
Qed.

End Primary.

(** C6. Once a record exists, nothing the primary pass does afterwards
    changes its volume, section, identity, title, attribution text (ghael)
    or chain text (sanad): whatever pages are visited later, the record is
    still there with these fields as they were, and its pages and text
    variants have only been extended at the end. *)
Theorem first_occurrence_fields_fixed {C : Parser.Cheerio}
    (readFile : string → Parser.FileContent) (sorted : list string)
    (st st' : Parser.State) (k : string) (r : Parser.Hadith) :
  Parser.hadithsById st !! k = Some r →
  Parser.primary_pass readFile st sorted = Ok st' →
  ∃ r', Parser.hadithsById st' !! k = Some r' ∧
        Parser.vol r' = Parser.vol r ∧ Parser.sec r' = Parser.sec r ∧
        Parser.title r' = Parser.title r ∧ Parser.ghael r' = Parser.ghael r ∧
        Parser.sanad r' = Parser.sanad r ∧
        Parser.pages r `prefix_of` Parser.pages r' ∧
        Parser.parts r `prefix_of` Parser.parts r'.
Proof.
  intros Hk Hpass.
  destruct (primary_pass_kept _ _ _ _ Hpass k r Hk)
    as (r' & Hk' & (?&?&?&?&?&?) & Hp & Ht).
  exists r'. by repeat split.
Qed.

(** ** Primary extraction: merging *)

Lemma truthy_spec s : truthy s = true ↔ s ≠ EmptyString.
Proof.
  unfold truthy. rewrite negb_true_iff. destruct (String.eqb_spec s EmptyString); split; done.
Qed.

Lemma append_new_nodup {A} `{EqDecision A} (l : list A) x :
  NoDup l → NoDup (append_new l x).
Proof.
  intros Hl. unfold append_new. case_decide; [done|].
  apply NoDup_app. split; [done|]. split; [|apply NoDup_singleton].
  intros y Hy ->%list_elem_of_singleton. done.
Qed.

Lemma merge_pages_eq r pg content :
  Parser.pages (Parser.merge r pg content) = append_new (Parser.pages r) pg.
Proof. simpl. unfold append_new. case_bool_decide; by case_decide. Qed.

Lemma merge_parts_eq r pg content :
  Parser.parts (Parser.merge r pg content) = append_text (Parser.parts r) content.
Proof.
  simpl. unfold append_text, append_new.
  destruct (truthy content) eqn:Ht; simpl.
  - apply truthy_spec in Ht. rewrite decide_False by done.
    case_bool_decide; by case_decide.
  - assert (content = EmptyString) as ->.
    { destruct (decide (content = EmptyString)); [done|].
      apply truthy_spec in n. congruence. }
    by rewrite decide_True.
Qed.

Lemma hadith_step_merge filePath v s pg t m h r :
  m !! Parser.identity filePath h = Some r →
  Parser.hadith_step filePath v s pg t m h
  = Ok (<[Parser.identity filePath h := Parser.merge r pg (Parser.hadithContent h)]> m).
Proof. intros Hm. unfold Parser.hadith_step. by rewrite Hm. Qed.

Lemma hadith_step_create filePath v s pg t m h :
  m !! Parser.identity filePath h = None →
  proto_key (Parser.identity filePath h) = false →
  Parser.hadith_step filePath v s pg t m h
  = Ok (<[Parser.identity filePath h :=
            Parser.create v s pg (Parser.identity filePath h) t h]> m).
Proof. intros Hm Hp. unfold Parser.hadith_step. by rewrite Hm, Hp. Qed.

Lemma identity_explicit filePath h i :
  Parser.revayatindex h = Some i → i ≠ EmptyString → Parser.identity filePath h = i.
Proof.
  intros Hi Hne. unfold Parser.identity. rewrite Hi.
  apply truthy_spec in Hne. by rewrite Hne.
Qed.

Lemma hadith_step_well_formed filePath v s pg t (m : gmap string Parser.Hadith) h m' :
  (∀ k r, m !! k = Some r →
     NoDup (Parser.pages r) ∧ NoDup (Parser.parts r) ∧ Parser.id r = k) →
  Parser.hadith_step filePath v s pg t m h = Ok m' →
  ∀ k r, m' !! k = Some r →
    NoDup (Parser.pages r) ∧ NoDup (Parser.parts r) ∧ Parser.id r = k.
Proof.
  intros Hm. unfold Parser.hadith_step.
  destruct (m !! Parser.identity filePath h) as [r0|] eqn:Hr0.
  - intros [= <-] k r.
    destruct (decide (k = Parser.identity filePath h)) as [->|Hne].
    + rewrite lookup_insert_eq. intros [= <-].
      destruct (Hm _ _ Hr0) as (Hpages & Hparts & Hid).
      rewrite merge_pages_eq, merge_parts_eq. split; [by apply append_new_nodup|].
      split; [|done]. unfold append_text. case_decide; [done|].
      by apply append_new_nodup.
    + rewrite lookup_insert_ne by done. apply Hm.
  - destruct (proto_key _); [done|]. intros [= <-] k r.
    destruct (decide (k = Parser.identity filePath h)) as [->|Hne].
    + rewrite lookup_insert_eq. intros [= <-]. simpl.
      split; [apply NoDup_singleton|]. split; [|done].
      destruct (truthy _); [apply NoDup_singleton|apply NoDup_nil_2].
    + rewrite lookup_insert_ne by done. apply Hm.
Qed.

Example merge_run :
  Parser.primary_pass (C := Demo.merge_cheerio) Demo.merge_files Parser.initial
    (Parser.sortedPaths [Demo.page7; Demo.page3])
  = Ok Demo.after_page7.
Proof. vm_compute. reflexivity. Qed.

Lemma first_occurrence_fields_fixed_witness :
  ∃ r', Parser.hadithsById Demo.after_page7 !! "12"%string = Some r' ∧
        Parser.vol r' = 1%N ∧ Parser.sec r' = 1%N ∧
        Parser.title r' = "Knowledge"%string ∧ Parser.ghael r' = "ghael"%string ∧
        Parser.sanad r' = "sanad"%string ∧
        [3%N] `prefix_of` Parser.pages r' ∧
        ["first text"%string] `prefix_of` Parser.parts r'.
Proof.
  apply (first_occurrence_fields_fixed (C := Demo.merge_cheerio)
           Demo.merge_files [Demo.page7] Demo.after_page3 Demo.after_page7
           "12"%string (Demo.record12 [3%N] ["first text"%string])).
  - vm_compute. reflexivity.
  - vm_compute. reflexivity.
Defined.

(** ** Pages that cannot be read *)

Section Pages.
Context {C : Parser.Cheerio} {T : StringTrim}.

Lemma open_page_broken readFile filePath :
  broken (readFile filePath) → ∃ e, Parser.open_page readFile filePath = Throw e.
Proof.
  unfold broken, Parser.open_page.
  destruct (readFile filePath) as [|jsonData]; [by eexists|].
  destruct (Parser.data jsonData) as [[|first rest]|]; [by eexists|done|by eexists].
Qed.

Lemma open_page_lacks readFile filePath :
  lacks_paragList (readFile filePath) → Parser.open_page readFile filePath = Ok None.
Proof.
  unfold lacks_paragList, Parser.open_page.
  destruct (readFile filePath) as [|jsonData]; [done|].
  destruct (Parser.data jsonData) as [[|first rest]|]; [done| |done].
  by intros ->.
Qed.

Lemma primary_pass_broken readFile sorted filePath st :
  filePath ∈ sorted → broken (readFile filePath) →
  ∃ e, Parser.primary_pass readFile st sorted = Throw e.
Proof.
  intros Hin Hbroken. revert st.
  induction sorted as [|p rest IH]; intros st; [by apply elem_of_nil in Hin|].
  simpl. exc_bind.
  destruct (Parser.primary_page readFile st p) as [st1|e] eqn:Hp; [|by eexists].
  apply elem_of_cons in Hin as [->|Hin]; [|by apply IH].
  destruct (open_page_broken readFile p Hbroken) as [e He].
  unfold Parser.primary_page in Hp. rewrite He in Hp. done.
Qed.

End Pages.

(** A page that is not JSON, or without [data] array, or with an empty one:
    [JSON.parse] or the reads of line 66 throw, and the run ends on the
    first exception raised. *)
Lemma broken_page_throws {C : Parser.Cheerio} {T : StringTrim}
    (readFile : string → Parser.FileContent) (filePath : string) (filePaths : list string) :
  broken (readFile filePath) → filePath ∈ Parser.sortedPaths filePaths →
  ∃ e, Parser.main readFile filePaths = Throw e.
Proof.
  intros Hbroken Hin. unfold Parser.main. cbv zeta.
  destruct (primary_pass_broken readFile _ filePath Parser.initial Hin Hbroken)
    as [e He].
  exists e. by rewrite He.
Qed.

(** C3, as the code has it.  A page that parses and whose [data[0]] has no
    [paragList] is skipped: both passes go on with the remaining pages as
    if the page were not there, so no record comes from it.  A page that is
    not JSON is not skipped: nothing catches the exception of [JSON.parse]
    before [main().catch], and the run ends there without output. *)
Theorem page_skipped_or_fatal {C : Parser.Cheerio} {T : StringTrim}
    (readFile : string → Parser.FileContent) (filePath : string) :
  (lacks_paragList (readFile filePath) →
   ∀ st title m rest,
     Parser.primary_pass readFile st (filePath :: rest)
       = Parser.primary_pass readFile st rest ∧
     Parser.fallback_pass readFile title m (filePath :: rest)
       = Parser.fallback_pass readFile title m rest)
  ∧
  (readFile filePath = Parser.NotJson →
   ∀ filePaths, filePath ∈ Parser.sortedPaths filePaths →
     ∃ e, Parser.main readFile filePaths = Throw e).
Proof.
  split.
  - intros Hlacks st title m rest. apply open_page_lacks in Hlacks. simpl.
    unfold Parser.primary_page, Parser.fallback_page. by rewrite Hlacks.
  - intros HnotJson filePaths Hin.
    apply (broken_page_throws readFile filePath); [|done].
    unfold broken. by rewrite HnotJson.
Qed.

Lemma page_skipped_or_fatal_witness :
  (Parser.primary_pass (C := Demo.merge_cheerio) (Demo.with_page7 Demo.no_paragList)
     Parser.initial [Demo.page7; Demo.page3]
   = Parser.primary_pass (C := Demo.merge_cheerio) (Demo.with_page7 Demo.no_paragList)
       Parser.initial [Demo.page3] ∧
   Parser.fallback_pass (C := Demo.merge_cheerio) (T := Demo.trim_instance)
     (Demo.with_page7 Demo.no_paragList) "Untitled" ∅ [Demo.page7; Demo.page3]
   = Parser.fallback_pass (C := Demo.merge_cheerio) (T := Demo.trim_instance)
       (Demo.with_page7 Demo.no_paragList) "Untitled" ∅ [Demo.page3])
  ∧ ∃ e, Parser.main (C := Demo.merge_cheerio) (T := Demo.trim_instance)
           (Demo.with_page7 Parser.NotJson) [Demo.page7; Demo.page3] = Throw e.
Proof.
  split.
  - apply (proj1 (page_skipped_or_fatal (C := Demo.merge_cheerio)
                    (T := Demo.trim_instance)
                    (Demo.with_page7 Demo.no_paragList) Demo.page7)).
    vm_compute. reflexivity.
  - apply (proj2 (page_skipped_or_fatal (C := Demo.merge_cheerio)
                    (T := Demo.trim_instance)
                    (Demo.with_page7 Parser.NotJson) Demo.page7)).
    + vm_compute. reflexivity.
    + assert (Parser.sortedPaths [Demo.page7; Demo.page3] = [Demo.page3; Demo.page7])
        as Hsorted by (vm_compute; reflexivity).
      rewrite Hsorted. right. left.
Defined.

(** C3 as stated fails: with page 3 in order and page 7 unreadable, the run
    does not skip page 7 and keep the record of page 3; it ends on the
    exception, whichever of the three defects page 7 has. *)
Lemma unreadable_page_is_fatal :
  Parser.main (C := Demo.merge_cheerio) (T := Demo.trim_instance) (Demo.with_page7 Parser.NotJson)
    [Demo.page3; Demo.page7] = Throw SyntaxError
  ∧ Parser.main (C := Demo.merge_cheerio) (T := Demo.trim_instance) (Demo.with_page7 Demo.no_data)
      [Demo.page3; Demo.page7] = Throw TypeError
  ∧ Parser.main (C := Demo.merge_cheerio) (T := Demo.trim_instance) (Demo.with_page7 Demo.empty_data)
      [Demo.page3; Demo.page7] = Throw TypeError.
Proof. repeat split; vm_compute; reflexivity. Qed.

(** ** Fallback extraction *)

Lemma proto_key_fallback s : proto_key ("fallback_" +:+ s) = false.
Proof.
  unfold proto_key. apply bool_decide_eq_false. unfold proto_keys.
  rewrite !elem_of_cons, elem_of_nil. simpl. intros H.
  repeat (destruct H as [H|H]; [discriminate H|]). done.
Qed.

Section Fallback.
Context {C : Parser.Cheerio} {T : StringTrim}.

Lemma fallback_step_taken v s pg title m parag r :
  m !! ("fallback_" +:+ Parser.paragraphId parag) = Some r →
  Parser.fallback_step v s pg title m parag = m.
Proof.
  intros Hm. unfold Parser.fallback_step.
  destruct (Parser.fallback_pattern _) as [[g c]|]; [|done]. by rewrite Hm.
Qed.

Lemma fallback_step_free v s pg title m parag g c :
  Parser.fallback_pattern (Parser.p_text (Parser.text parag)) = Some (g, c) →
  m !! ("fallback_" +:+ Parser.paragraphId parag) = None →
  Parser.fallback_step v s pg title m parag
  = <["fallback_" +:+ Parser.paragraphId parag :=
        {| Parser.vol := v; Parser.sec := s; Parser.pages := [pg];
           Parser.id := "fallback_" +:+ Parser.paragraphId parag;
           Parser.title := title; Parser.ghael := trim g;
           Parser.sanad := EmptyString; Parser.parts := [trim c] |}]> m.
Proof.
  intros Hg Hm. unfold Parser.fallback_step.
  by rewrite Hg, Hm, proto_key_fallback.
Qed.

Lemma fallback_step_keeps v s pg title m parag k r :
  m !! k = Some r → Parser.fallback_step v s pg title m parag !! k = Some r.
Proof.
  intros Hk. unfold Parser.fallback_step.
  destruct (Parser.fallback_pattern _) as [[g c]|]; [|done].
  destruct (m !! ("fallback_" +:+ Parser.paragraphId parag)) eqn:Hm; [done|].
  destruct (proto_key _); [done|].
  rewrite lookup_insert_ne; [done|]. congruence.
Qed.

Lemma fallback_step_titles v s pg title m parag :
  (∀ k r, m !! k = Some r → Parser.title r = title) →
  ∀ k r, Parser.fallback_step v s pg title m parag !! k = Some r →
         Parser.title r = title.
Proof.
  intros Hm k r. unfold Parser.fallback_step.
  destruct (Parser.fallback_pattern _) as [[g c]|]; [|by apply Hm].
  destruct (m !! ("fallback_" +:+ Parser.paragraphId parag)) eqn:Hk; [by apply Hm|].
  destruct (proto_key _); [by apply Hm|].
  destruct (decide (k = "fallback_" +:+ Parser.paragraphId parag)) as [->|Hne].
  - rewrite lookup_insert_eq. by intros [= <-].
  - rewrite lookup_insert_ne by done. by apply Hm.
Qed.

Lemma fallback_fold_keeps v s pg title ps m k r :
  m !! k = Some r →
  fold_left (Parser.fallback_step v s pg title) ps m !! k = Some r.
Proof.
  revert m. induction ps as [|parag ps IH]; intros m Hk; [done|].
  simpl. apply IH. by apply fallback_step_keeps.
Qed.

Lemma fallback_fold_titles v s pg title ps m :
  (∀ k r, m !! k = Some r → Parser.title r = title) →
  ∀ k r, fold_left (Parser.fallback_step v s pg title) ps m !! k = Some r →
         Parser.title r = title.
Proof.
  revert m. induction ps as [|parag ps IH]; intros m Hm; [done|].
  simpl. apply IH. by apply fallback_step_titles.
Qed.

Lemma fallback_pass_keeps readFile title sorted m m' k r :
  m !! k = Some r →
  Parser.fallback_pass readFile title m sorted = Ok m' → m' !! k = Some r.
Proof.
  revert m. induction sorted as [|filePath rest IH]; intros m Hk; simpl.
  - by intros [= <-].
  - exc_bind. unfold Parser.fallback_page. exc_bind.
    destruct (Parser.open_page readFile filePath) as [[[[[v s] pg] ps]|]|]; [| |done].
    + apply IH. by apply fallback_fold_keeps.
    + by apply IH.
Qed.

Lemma fallback_pass_titles readFile title sorted m m' :
  (∀ k r, m !! k = Some r → Parser.title r = title) →
  Parser.fallback_pass readFile title m sorted = Ok m' →
  ∀ k r, m' !! k = Some r → Parser.title r = title.
Proof.
  revert m. induction sorted as [|filePath rest IH]; intros m Hm; simpl.
  - by intros [= <-].
  - exc_bind. unfold Parser.fallback_page. exc_bind.
    destruct (Parser.open_page readFile filePath) as [[[[[v s] pg] ps]|]|]; [| |done].
    + apply IH. by apply fallback_fold_titles.
    + by apply IH.
Qed.

(** The pages the primary pass could open, the fallback pass can open. *)
Lemma fallback_pass_total readFile sorted st st' title m :
  Parser.primary_pass readFile st sorted = Ok st' →
  ∃ m', Parser.fallback_pass readFile title m sorted = Ok m'.
Proof.
  revert st m. induction sorted as [|filePath rest IH]; intros st m; simpl.
  - by eexists.
  - exc_bind. unfold Parser.primary_page, Parser.fallback_page. exc_bind.
    destruct (Parser.open_page readFile filePath) as [[[[[v s] pg] ps]|]|]; [| |done].
    + destruct (Parser.for_parags _ _ _ _ _ _) as [st1|]; [|done]. apply IH.
    + apply IH.
Qed.

End Fallback.

Example plain_run :
  Parser.extracted <$>
    Parser.main (C := Demo.plain_cheerio) (T := Demo.trim_instance)
      Demo.plain_files [Demo.page7; Demo.page3]
  = Ok Demo.plain_result.
Proof. vm_compute. reflexivity. Qed.

(** ** The driver: when the fallback runs *)

Lemma size_zero_empty (m : gmap string Parser.Hadith) :
  bool_decide (size m = 0%nat) = true ↔ m = ∅.
Proof. rewrite bool_decide_eq_true. apply map_size_empty_iff. Qed.

(** C4. The fallback pass runs if and only if the primary pass over all
    pages left the identity map empty.  When the primary pass ends (without
    an exception) the run ends too; it logs the fallback line exactly when
    the map was empty, and its records are then those of the fallback pass;
    when the map held a record the result is that map as it is, whatever
    the fallback pattern would have matched. *)
Theorem fallback_iff_primary_empty {C : Parser.Cheerio} {T : StringTrim}
    (readFile : string → Parser.FileContent) (filePaths : list string)
    (st : Parser.State) :
  Parser.primary_pass readFile Parser.initial (Parser.sortedPaths filePaths) = Ok st →
  ∃ run, Parser.main readFile filePaths = Ok run ∧
    (Parser.LogTryingFallback ∈ Parser.log run ↔ Parser.hadithsById st = ∅) ∧
    (Parser.hadithsById st = ∅ →
       Parser.fallback_pass readFile (Parser.currentTitle st) ∅
         (Parser.sortedPaths filePaths) = Ok (Parser.extracted run)) ∧
    (Parser.hadithsById st ≠ ∅ → Parser.extracted run = Parser.hadithsById st).
Proof.
  intros Hprimary. unfold Parser.main. cbv zeta. rewrite Hprimary. exc_bind.
  destruct (bool_decide (size (Parser.hadithsById st) = 0%nat)) eqn:Hsize.
  - apply size_zero_empty in Hsize.
    destruct (fallback_pass_total readFile _ _ _ (Parser.currentTitle st)
                (Parser.hadithsById st) Hprimary) as [m' Hm'].
    rewrite Hm'. eexists. split; [done|]. simpl.
    split; [|split].
    + split; [done|]. intros _. do 2 right. left.
    + intros _. by rewrite <-Hsize.
    + done.
  - assert (Parser.hadithsById st ≠ ∅) as Hne.
    { intros Hempty. apply size_zero_empty in Hempty. congruence. }
    eexists. split; [done|]. simpl.
    split; [|split].
    + split; [|done].
      rewrite !elem_of_cons, elem_of_nil. intros [?|[?|[?|[?|?]]]]; done.
    + done.
    + done.
Qed.

Lemma fallback_iff_primary_empty_witness :
  ∃ run, Parser.main (C := Demo.gated_cheerio) (T := Demo.trim_instance)
           Demo.merge_files [Demo.page7; Demo.page3] = Ok run ∧
    (Parser.LogTryingFallback ∈ Parser.log run
       ↔ Parser.hadithsById Demo.after_page7 = ∅) ∧
    (Parser.hadithsById Demo.after_page7 = ∅ →
       Parser.fallback_pass (C := Demo.gated_cheerio) (T := Demo.trim_instance)
         Demo.merge_files (Parser.currentTitle Demo.after_page7) ∅
         (Parser.sortedPaths [Demo.page7; Demo.page3]) = Ok (Parser.extracted run)) ∧
    (Parser.hadithsById Demo.after_page7 ≠ ∅ →
       Parser.extracted run = Parser.hadithsById Demo.after_page7).
Proof.
  apply (fallback_iff_primary_empty (C := Demo.gated_cheerio) (T := Demo.trim_instance)
           Demo.merge_files [Demo.page7; Demo.page3] Demo.after_page7).
  vm_compute. reflexivity.
Defined.

(** The fallback pattern matches on page 3, and the fallback pass, had it
    run, would have made a record of it. *)
Example fallback_would_match :
  Parser.fallback_pass (C := Demo.gated_cheerio) (T := Demo.trim_instance)
    Demo.merge_files "Prayer" ∅ [Demo.page3; Demo.page7]
  = Ok {[ "fallback_a"%string :=
            {| Parser.vol := 1; Parser.sec := 1; Parser.pages := [3%N];
               Parser.id := "fallback_a"; Parser.title := "Prayer";
               Parser.ghael := "Knowledge"; Parser.sanad := EmptyString;
               Parser.parts := ["first text"%string] |} ]}
  ∧ Parser.extracted <$>
      Parser.main (C := Demo.gated_cheerio) (T := Demo.trim_instance)
        Demo.merge_files [Demo.page7; Demo.page3]
    = Ok (Parser.hadithsById Demo.after_page7).
Proof. split; vm_compute; reflexivity. Qed.

(** ** The title of fallback records *)

Section Titles.
Context {C : Parser.Cheerio}.

Lemma parag_step_title filePath v s pg st parag st' :
  Parser.parag_step filePath v s pg st parag = Ok st' →
  Parser.currentTitle st'
  = if truthy (Parser.heading_text (Parser.text parag))
    then Parser.heading_text (Parser.text parag)
    else Parser.currentTitle st.
Proof.
  unfold Parser.parag_step. exc_bind.
  destruct (Parser.each_hadith _ _ _ _ _ _ _); [|done]. by intros [= <-].
Qed.

Lemma for_parags_title filePath v s pg ps st st' :
  (∀ parag, parag ∈ ps → Parser.heading_text (Parser.text parag) = EmptyString) →
  Parser.for_parags filePath v s pg st ps = Ok st' →
  Parser.currentTitle st' = Parser.currentTitle st.
Proof.
  revert st. induction ps as [|parag ps IH]; intros st Hnone; simpl.
  - by intros [= <-].
  - exc_bind. destruct (Parser.parag_step _ _ _ _ _ _) as [st1|] eqn:Hs; [|done].
    intros Hrest. rewrite (IH st1); [|intros p Hp; apply Hnone; by right|done].
    rewrite (parag_step_title _ _ _ _ _ _ _ Hs).
    rewrite (Hnone parag) by left. done.
Qed.

Lemma primary_pass_title readFile sorted st st' :
  (∀ filePath parag, filePath ∈ sorted → parag ∈ paragraphs readFile filePath →
     Parser.heading_text (Parser.text parag) = EmptyString) →
  Parser.primary_pass readFile st sorted = Ok st' →
  Parser.currentTitle st' = Parser.currentTitle st.
Proof.
  revert st. induction sorted as [|filePath rest IH]; intros st Hnone; simpl.
  - by intros [= <-].
  - exc_bind. destruct (Parser.primary_page _ _ _) as [st1|] eqn:Hp; [|done].
    intros Hrest.
    rewrite (IH st1); [|intros p parag Hin; apply Hnone; by right|done].
    unfold Parser.primary_page in Hp. revert Hp. exc_bind.
    pose proof (Hnone filePath) as Hhere. unfold paragraphs in Hhere.
    destruct (Parser.open_page readFile filePath) as [[[[[v s] pg] ps]|]|]; [| |done].
    + apply for_parags_title. intros parag Hparag. apply Hhere; [left|done].
    + by intros [= <-].
Qed.

End Titles.

(** C10. Every record the fallback pass creates has as title the value the
    current title had when the primary pass ended; the fallback pass reads
    no heading and never changes the current title, so all its records
    share that one title, whatever headings the fragments hold.  It is the
    default label Untitled when no visited fragment had a heading. *)
Theorem fallback_titles {C : Parser.Cheerio} {T : StringTrim}
    (readFile : string → Parser.FileContent) (filePaths : list string)
    (run : Parser.Run) :
  Parser.main readFile filePaths = Ok run →
  Parser.LogTryingFallback ∈ Parser.log run →
  ∃ st,
    Parser.primary_pass readFile Parser.initial (Parser.sortedPaths filePaths) = Ok st ∧
    (∀ k r, Parser.extracted run !! k = Some r →
            Parser.title r = Parser.currentTitle st) ∧
    ((∀ filePath parag,
        filePath ∈ Parser.sortedPaths filePaths →
        parag ∈ paragraphs readFile filePath →
        Parser.heading_text (Parser.text parag) = EmptyString) →
     Parser.currentTitle st = "Untitled"%string).
Proof.
  unfold Parser.main. cbv zeta. exc_bind.
  destruct (Parser.primary_pass _ _ _) as [st|] eqn:Hprimary; [|done].
  destruct (bool_decide (size (Parser.hadithsById st) = 0%nat)) eqn:Hsize.
  - destruct (Parser.fallback_pass _ _ _ _) as [m|] eqn:Hfallback; [|done].
    intros [= <-] _. exists st. split; [done|]. simpl. split.
    + apply size_zero_empty in Hsize. rewrite Hsize in Hfallback.
      eapply fallback_pass_titles; [|exact Hfallback].
      intros k r. by rewrite lookup_empty.
    + intros Hnone. by rewrite (primary_pass_title _ _ _ _ Hnone Hprimary).
  - intros [= <-]. simpl.
    rewrite !elem_of_cons, elem_of_nil. intros [?|[?|[?|[?|?]]]]; done.
Qed.

Lemma fallback_titles_witness :
  ∃ st,
    Parser.primary_pass (C := Demo.plain_cheerio) Demo.plain_files Parser.initial
      (Parser.sortedPaths [Demo.page7; Demo.page3]) = Ok st ∧
    (∀ k r, Parser.extracted Demo.plain_run_result !! k = Some r →
            Parser.title r = Parser.currentTitle st) ∧
    ((∀ filePath parag,
        filePath ∈ Parser.sortedPaths [Demo.page7; Demo.page3] →
        parag ∈ paragraphs Demo.plain_files filePath →
        Parser.heading_text (Cheerio := Demo.plain_cheerio) (Parser.text parag)
          = EmptyString) →
     Parser.currentTitle st = "Untitled"%string).
Proof.
  apply (fallback_titles (C := Demo.plain_cheerio) (T := Demo.trim_instance)
           Demo.plain_files [Demo.page7; Demo.page3] Demo.plain_run_result).
  - vm_compute. reflexivity.
  - do 2 right. left.
Defined.

(** In that run the two headings are read by the primary pass only: both
    fallback records, of page 3 and of page 7, carry the last one. *)
Example plain_titles_run :
  Parser.currentTitle <$>
    Parser.primary_pass (C := Demo.plain_cheerio) Demo.plain_files Parser.initial
      (Parser.sortedPaths [Demo.page7; Demo.page3]) = Ok "Prayer"%string
  ∧ (Parser.title <$> Demo.plain_result)
    = {[ "fallback_1"%string := "Prayer"%string; "fallback_2"%string := "Prayer"%string ]}.
Proof. split; vm_compute; reflexivity. Qed.

(** ** Synthesized identities *)

Lemma has_char_app c a b : has_char c (a +:+ String c b) = true.
Proof.
  induction a as [|x a IH]; simpl.
  - by rewrite Ascii.eqb_refl.
  - rewrite IH. apply orb_true_r.
Qed.

(** A separator that occurs in neither right part splits in one way only. *)
Lemma separator_unique c a b x y :
  has_char c x = false → has_char c y = false →
  a +:+ String c x = b +:+ String c y → a = b ∧ x = y.
Proof.
  intros Hx Hy. revert b. induction a as [|a0 a IH]; intros [|b0 b]; simpl.
  - by intros [= ->].
  - intros [= <- ->]. by rewrite has_char_app in Hx.
  - intros [= -> <-]. by rewrite has_char_app in Hy.
  - intros [= -> Hrest]. destruct (IH b Hrest) as [-> ->]. done.
Qed.

Lemma proto_key_gen s : proto_key ("gen_" +:+ s) = false.
Proof.
  unfold proto_key. apply bool_decide_eq_false. unfold proto_keys.
  rewrite !elem_of_cons, elem_of_nil. simpl. intros H.
  repeat (destruct H as [H|H]; [discriminate H|]). done.
Qed.

Lemma identity_synthesized filePath h :
  Parser.revayatindex h = None →
  Parser.identity filePath h
  = "gen_" +:+ filePath +:+ "_" +:+ Parser.template (Parser.closest_p_id h).
Proof. intros Hnone. unfold Parser.identity. by rewrite Hnone. Qed.

Lemma hadith_step_synthesized filePath v s pg t m h :
  Parser.revayatindex h = None →
  ∃ m' r, Parser.hadith_step filePath v s pg t m h = Ok m' ∧
          m' !! Parser.identity filePath h = Some r ∧ kept m m'.
Proof.
  intros Hnone.
  destruct (m !! Parser.identity filePath h) as [r|] eqn:Hm.
  - eexists _, _. split; [by apply hadith_step_merge|].
    split; [apply lookup_insert_eq|].
    apply (hadith_step_kept filePath v s pg t m h). by apply hadith_step_merge.
  - assert (proto_key (Parser.identity filePath h) = false) as Hproto.
    { rewrite identity_synthesized by done. apply proto_key_gen. }
    eexists _, _. split; [by apply hadith_step_create|].
    split; [apply lookup_insert_eq|].
    apply (hadith_step_kept filePath v s pg t m h). by apply hadith_step_create.
Qed.

(** C7 as stated fails: the two elements below have no index attribute and
    lie in paragraphs with different identifiers, on two pages that are both
    processed; their identities are the same text, and the run merges them
    into one record with both pages and both texts. *)
Lemma synthesized_identity_collision :
  Parser.revayatindex Demo.deep_first = None ∧
  Parser.revayatindex Demo.deep_second = None ∧
  Parser.closest_p_id Demo.deep_first ≠ Parser.closest_p_id Demo.deep_second ∧
  Parser.sortedPaths [Demo.deep_page1; Demo.deep_page2]
    = [Demo.deep_page1; Demo.deep_page2] ∧
  Parser.identity Demo.deep_page1 Demo.deep_first
    = Parser.identity Demo.deep_page2 Demo.deep_second ∧
  Parser.extracted <$>
    Parser.main (C := Demo.deep_cheerio) (T := Demo.trim_instance) Demo.deep_files
      [Demo.deep_page1; Demo.deep_page2]
  = Ok {[ "gen_/b/volume_1/section_1/page_1.json_x/volume_1/section_1/page_2.json_7"%string :=
            {| Parser.vol := 1; Parser.sec := 1; Parser.pages := [1; 2]%N;
               Parser.id := "gen_/b/volume_1/section_1/page_1.json_x/volume_1/section_1/page_2.json_7";
               Parser.title := "Untitled"; Parser.ghael := "ghael";
               Parser.sanad := "sanad";
               Parser.parts := ["text A"; "text B"]%string |} ]}.
Proof.
  split; [reflexivity|]. split; [reflexivity|]. split; [discriminate|].
  repeat split; vm_compute; reflexivity.
Qed.

(** * translate.js: properties *)

Lemma requests_app evs1 evs2 : requests (evs1 ++ evs2) = (requests evs1 + requests evs2)%nat.
Proof.
  induction evs1 as [|e evs1 IH]; [done|].
  destruct e; simpl; by rewrite ?IH.
Qed.

Section Retry.
Context {T : StringTrim}.
Variable apiKeys : list string.
Variable generateContent : list Translate.Event → option string → string → Translate.ApiResult.

Lemma on_error_trace status st :
  ∃ evs, Translate.trace (Translate.on_error apiKeys status st)
           = Translate.trace st ++ evs ∧
         Forall service_event evs ∧ requests evs = 0%nat.
Proof.
  unfold Translate.on_error. cbv zeta. destruct (_ && _); simpl.
  - exists [Translate.BackOff 8000]. repeat split. by repeat constructor.
  - exists []. by rewrite app_nil_r.
Qed.

Lemma attempts_spec n text isTitle st :
  ∃ evs s,
    Translate.attempts apiKeys generateContent n text isTitle st
      = (Translate.VString s, (Translate.attempts apiKeys generateContent n text isTitle st).2) ∧
    Translate.trace (Translate.attempts apiKeys generateContent n text isTitle st).2
      = Translate.trace st ++ evs ∧
    Forall service_event evs ∧
    (requests evs ≤ n)%nat ∧
    ((∀ history apiKey prompt, ∃ status,
        generateContent history apiKey prompt = Translate.Failed status) →
     s = text ∧ requests evs = n ∧ Translate.LogMaxAttempts text ∈ evs).
Proof.
  revert st. induction n as [|n IH]; intros st; simpl.
  - exists [Translate.LogMaxAttempts text], text.
    split; [done|]. split; [done|]. split; [by repeat constructor|].
    split; [simpl; lia|]. intros _. split; [done|]. split; [done|]. left.
  - destruct (generateContent _ _ _) as [translated|status] eqn:Hanswer.
    + exists [Translate.Request (apiKeys !! Translate.currentApiKeyIndex st)
                (Translate.prompt_of text isTitle)], translated.
      split; [done|]. split; [done|]. split; [by repeat constructor|].
      split; [simpl; lia|].
      intros Hfail. destruct (Hfail (Translate.trace st)
        (apiKeys !! Translate.currentApiKeyIndex st)
        (Translate.prompt_of text isTitle)) as [? ?]. congruence.
    + set (request := Translate.Request (apiKeys !! Translate.currentApiKeyIndex st)
                        (Translate.prompt_of text isTitle)).
      destruct (on_error_trace status (Translate.emit request st))
        as (evs1 & Htrace1 & Hservice1 & Hrequests1).
      destruct (IH (Translate.on_error apiKeys status (Translate.emit request st)))
        as (evs & s & Hvalue & Htrace & Hservice & Hbound & Hfailing).
      exists (request :: evs1 ++ evs), s.
      split; [exact Hvalue|]. split; [|split; [|split]].
      * rewrite Htrace, Htrace1. simpl. by rewrite <-!app_assoc.
      * constructor; [done|]. by apply Forall_app.
      * simpl. rewrite requests_app. lia.
      * intros Hfail. destruct (Hfailing Hfail) as (-> & Hn & Hlog).
        split; [done|]. split.
        -- simpl. rewrite requests_app. lia.
        -- right. apply elem_of_app. by right.
Qed.

Lemma translateText_spec text isTitle st :
  ∃ evs,
    Translate.trace (Translate.translateText apiKeys generateContent text isTitle st).2
      = Translate.trace st ++ evs ∧
    Forall service_event evs ∧
    (requests evs ≤ List.length apiKeys * 3)%nat ∧
    ((Translate.translateText apiKeys generateContent text isTitle st).1
       = Translate.VInherited → isTitle = true ∧ proto_key text = true).
Proof.
  unfold Translate.translateText.
  destruct (if isTitle then Translate.cache_read (Translate.titleCache st) text else None)
    as [v|] eqn:Hcache.
  - exists []. simpl. rewrite app_nil_r.
    split; [done|]. split; [done|]. split; [lia|]. intros ->. split.
    + destruct isTitle; [done|discriminate].
    + destruct isTitle; [|discriminate].
      unfold Translate.cache_read in Hcache.
      destruct (Translate.titleCache st !! text) as [t|].
      * destruct (truthy t); discriminate.
      * destruct (proto_key text); [done|discriminate].
  - destruct (attempts_spec (List.length apiKeys * 3) text isTitle st)
      as (evs & s & Hvalue & Htrace & Hservice & Hbound & _).
    exists evs. split; [done|]. split; [done|]. split; [done|].
    rewrite Hvalue. done.
Qed.

End Retry.

(** C9. For every text the retry loop of [translateText] sends at most
    (number of credentials) x 3 requests.  When the loop is entered (the
    text is not answered from the title cache) and every request fails, it
    uses exactly that budget, logs that the attempts are exhausted, and
    returns the original text, a string like any translation: nothing is
    raised and the driver goes on with the next record. *)
Theorem translateText_budget {T : StringTrim} (apiKeys : list string)
    (generateContent : list Translate.Event → option string → string → Translate.ApiResult)
    (text : string) (isTitle : bool) (st : Translate.State) :
  ∃ evs,
    Translate.trace (Translate.translateText apiKeys generateContent text isTitle st).2
      = Translate.trace st ++ evs ∧
    (requests evs ≤ List.length apiKeys * 3)%nat ∧
    ((if isTitle then Translate.cache_read (Translate.titleCache st) text else None) = None →
     (∀ history apiKey prompt, ∃ status,
        generateContent history apiKey prompt = Translate.Failed status) →
     (Translate.translateText apiKeys generateContent text isTitle st).1
       = Translate.VString text ∧
     requests evs = (List.length apiKeys * 3)%nat ∧
     Translate.LogMaxAttempts text ∈ evs).
Proof.
  destruct (translateText_spec apiKeys generateContent text isTitle st)
    as (evs & Htrace & _ & Hbound & _).
  exists evs. split; [done|]. split; [done|].
  intros Hmiss Hfail. revert Htrace. unfold Translate.translateText. rewrite Hmiss.
  destruct (attempts_spec apiKeys generateContent (List.length apiKeys * 3) text isTitle st)
    as (evs' & s & Hvalue & Htrace' & _ & _ & Hfailing).
  destruct (Hfailing Hfail) as (-> & Hn & Hlog).
  rewrite Htrace'. intros ->%app_inv_head. rewrite Hvalue. done.
Qed.

Lemma translateText_budget_witness :
  (Translate.translateText ["k1"; "k2"]%string Demo.busy_service
     "text" false Translate.start).1 = Translate.VString "text"
  ∧ requests (Translate.trace
                (Translate.translateText ["k1"; "k2"]%string Demo.busy_service
                   "text" false Translate.start).2) = 6%nat.
Proof.
  destruct (translateText_budget (T := Demo.trim_instance) ["k1"; "k2"]%string
              Demo.busy_service "text" false Translate.start)
    as (evs & Htrace & Hbound & Hfailing).
  destruct (Hfailing eq_refl
              (λ _ _ _, ex_intro _ (Some 429%N) eq_refl)) as (Hvalue & Hn & _).
  split; [exact Hvalue|]. rewrite Htrace. exact Hn.
Defined.

(** ** Resuming *)

Lemma loop_run_completes acc todo evs res :
  loop_run acc todo evs res →
  (∀ h, h ∈ todo → proto_key (Parser.out_title h) = false) →
  ∃ final, res = Ok final ∧
           Translate.original <$> final = (Translate.original <$> acc) ++ todo.
Proof.
  induction 1 as [acc|acc h new todo reqs evs res Hnew Hreqs Hrun IH|acc h todo reqs Hproto Hreqs];
    intros Hnone.
  - exists acc. by rewrite app_nil_r.
  - destruct IH as (final & -> & Hfinal).
    { intros h' Hh'. apply Hnone. by right. }
    exists final. split; [done|].
    rewrite Hfinal, fmap_app. simpl. rewrite Hnew. by rewrite <-app_assoc.
  - rewrite Hnone in Hproto by left. discriminate.
Qed.

Section Resume.
Context {T : StringTrim}.
Variable apiKeys : list string.
Variable generateContent : list Translate.Event → option string → string → Translate.ApiResult.

Lemma translate_loop_run translatedIds hadiths acc st :
  ∃ evs,
    Translate.trace
      (Translate.translate_loop apiKeys generateContent translatedIds hadiths acc st).2
      = Translate.trace st ++ evs ∧
    loop_run acc (filter (λ h, pending translatedIds h = true) hadiths) evs
      (Translate.translate_loop apiKeys generateContent translatedIds hadiths acc st).1.
Proof.
  revert acc st. induction hadiths as [|h rest IH]; intros acc st; simpl.
  - exists []. rewrite app_nil_r. split; [done|]. constructor.
  - rewrite filter_cons.
    destruct (pending translatedIds h) eqn:Hpending; unfold pending in Hpending.
    2:{ rewrite decide_False by done.
        destruct (bool_decide (Parser.out_id h ∈ translatedIds)); [apply IH|].
        simpl in Hpending. rewrite Hpending. apply IH. }
    rewrite decide_True by done.
    apply andb_true_iff in Hpending as [Hid Hbody].
    apply negb_true_iff in Hid. rewrite Hid, Hbody. simpl.
    set (st0 := Translate.emit (Translate.LogTranslating (Parser.out_id h)) st).
    destruct (translateText_spec apiKeys generateContent (Parser.out_title h) true st0)
      as (evs1 & Htrace1 & Hservice1 & _ & Hinherited1).
    destruct (Translate.translateText apiKeys generateContent (Parser.out_title h) true st0)
      as [translatedTitle st1].
    destruct (translateText_spec apiKeys generateContent (Parser.out_content h) false st1)
      as (evs2 & Htrace2 & Hservice2 & _ & Hinherited2).
    destruct (Translate.translateText apiKeys generateContent (Parser.out_content h) false st1)
      as [translatedContent st2].
    simpl in *.
    assert (Translate.trace st2
            = Translate.trace st
                ++ Translate.LogTranslating (Parser.out_id h) :: (evs1 ++ evs2))
      as Htrace.
    { rewrite Htrace2, Htrace1. unfold st0. simpl. by rewrite <-!app_assoc. }
    destruct translatedContent as [c|]; [|by destruct Hinherited2].
    destruct translatedTitle as [t|].
    + set (new := {| Translate.original := h; Translate.title_fa := trim t;
                     Translate.content_fa := trim c |}).
      destruct (IH (acc ++ [new])
                  (Translate.emit (Translate.LogSaved (Parser.out_id h))
                     (Translate.emit (Translate.WriteFile (acc ++ [new])) st2)))
        as (evs & Hrest & Hrun).
      exists (Translate.LogTranslating (Parser.out_id h) :: (evs1 ++ evs2)
                ++ Translate.WriteFile (acc ++ [new])
                :: Translate.LogSaved (Parser.out_id h) :: evs).
      split.
      * rewrite Hrest. simpl. rewrite Htrace. rewrite <-!app_assoc. simpl.
        by rewrite <-!app_assoc.
      * apply run_record; [done|by apply Forall_app|done].
    + exists (Translate.LogTranslating (Parser.out_id h) :: (evs1 ++ evs2)).
      split; [done|].
      apply run_crash; [by destruct Hinherited1|by apply Forall_app].
Qed.

End Resume.


(** The run of the example: record 1 is in the partial file, record 2 has
    no body; record 3 alone is submitted, and the file is written once, with
    both records, right after its two requests. *)
Example resume_run :
  filter (λ h, pending (T := Demo.trim_instance)
                 (Translate.ids_of Demo.earlier) h = true) Demo.book
  = [Demo.hadith "3" "Prayer" "text three"]
  ∧ map (λ e, match e with
              | Translate.LogTranslating i => ("translating " +:+ i)%string
              | Translate.Request _ _ => "request"%string
              | Translate.WriteFile l =>
                  join_ids (map (λ r, Parser.out_id (Translate.original r)) l)
              | Translate.LogSaved i => ("saved " +:+ i)%string
              | _ => "other"%string
              end)
      (Translate.trace
         (Translate.translate_loop (T := Demo.trim_instance) ["k1"; "k2"]%string
            Demo.echo_service (Translate.ids_of Demo.earlier) Demo.book Demo.earlier
            Translate.start).2)
    = ["translating 3"; "request"; "request"; "write 1 3"; "saved 3"]%string.
Proof. split; vm_compute; reflexivity. Qed.

(** * The path pattern on examples *)

Example matchPath_plain :
  Parser.matchPath "/data/book/volume_12/section_3/page_045.json" = Some (12, 3, 45)%N.
Proof. vm_compute. reflexivity. Qed.

(** The pattern is anchored at the end only. *)
Example matchPath_inside_name :
  Parser.matchPath "/data/old_volume_1/section_2/page_3.json" = Some (1, 2, 3)%N.
Proof. vm_compute. reflexivity. Qed.

Example matchPath_rejects :
  Parser.matchPath "/data/volume_1/section_2/page_3.json.bak" = None
  ∧ Parser.matchPath "/data/volume_1/section_2/page_.json" = None
  ∧ Parser.matchPath "/data/volume_1/page_3.json" = None
  ∧ Parser.matchPath "/data/volume_1/section_2/hadiths.json" = None
  ∧ Parser.matchPath "/data/volume_1a/section_2/page_3.json" = None.
Proof. repeat split; vm_compute; reflexivity. Qed.

(** The example of the specification, with a file the pattern leaves out. *)
Example sortedPaths_example :
  Parser.sortedPaths
    ["/b/volume_1/section_2/page_1.json"; "/b/hadiths.json";
     "/b/volume_1/section_1/page_2.json"; "/b/volume_2/section_1/page_1.json";
     "/b/volume_1/section_1/page_10.json"]%string
  = ["/b/volume_1/section_1/page_2.json"; "/b/volume_1/section_1/page_10.json";
     "/b/volume_1/section_2/page_1.json"; "/b/volume_2/section_1/page_1.json"]%string.
Proof. vm_compute. reflexivity. Qed.

(** * Further properties of parser.js *)

(** ** Discovery *)

Lemma dirents_ind (P : list Parser.Dirent → Prop) :
  P [] →
  (∀ name rest, P rest → P (Parser.RegularFile name :: rest)) →
  (∀ name rest, P rest → P (Parser.Special name :: rest)) →
  (∀ name entries rest, P entries → P rest → P (Parser.Directory name entries :: rest)) →
  ∀ dirents, P dirents.
Proof.
  intros Hnil Hfile Hspecial Hdir.
  assert (∀ dirent rest, P rest → P (dirent :: rest)) as Hcons.
  { fix IH 1. intros [name|name entries|name] rest Hrest.
    - by apply Hfile.
    - apply Hdir; [|done].
      induction entries as [|dirent entries IHentries]; [exact Hnil|].
      by apply IH.
    - by apply Hspecial. }
  intros dirents. induction dirents as [|dirent rest IH]; [exact Hnil|].
  by apply Hcons.
Qed.

Lemma visit_directory cwd dir name entries :
  Parser.visit cwd dir (Parser.Directory name entries)
  = Parser.getFilePaths cwd (Parser.resolve cwd dir name) entries.
Proof. reflexivity. Qed.

Lemma strip_prefix_app pre s : Parser.strip_prefix pre (pre ++ s) = Some s.
Proof.
  induction pre as [|a pre IH]; simpl; [done|]. by rewrite Ascii.eqb_refl.
Qed.

Lemma strip_prefix_Some pre s r : Parser.strip_prefix pre s = Some r → s = pre ++ r.
Proof.
  revert s. induction pre as [|a pre IH]; intros s; simpl.
  - by intros [= ->].
  - destruct s as [|b s]; [done|].
    destruct (Ascii.eqb_spec a b) as [->|]; [|done].
    intros Hs. by rewrite (IH _ Hs).
Qed.

Lemma list_ascii_app s t :
  list_ascii_of_string (s +:+ t) = list_ascii_of_string s ++ list_ascii_of_string t.
Proof. induction s as [|a s IH]; simpl; [done|]. by rewrite IH. Qed.

Lemma endsWith_app pre name suffix :
  Parser.endsWith name suffix = true → Parser.endsWith (pre +:+ name) suffix = true.
Proof.
  unfold Parser.endsWith.
  destruct (Parser.strip_prefix _ (rev (list_ascii_of_string name))) as [r|] eqn:Hs;
    [|done].
  intros _. apply strip_prefix_Some in Hs.
  by rewrite list_ascii_app, rev_app_distr, Hs, <-app_assoc, strip_prefix_app.
Qed.

Lemma string_app_assoc (s t u : string) : s +:+ t +:+ u = (s +:+ t) +:+ u.
Proof.
  induction s as [|a s IH]; [done|].
  change (String a (s +:+ t +:+ u) = String a ((s +:+ t) +:+ u)). by f_equal.
Qed.

Lemma child_join dir name : ∃ pre, child dir name = pre +:+ name.
Proof.
  unfold child. destruct (String.eqb dir "/").
  - by exists "/"%string.
  - exists (dir +:+ "/")%string. apply string_app_assoc.
Qed.

(** *** Segments *)

Lemma split_slash_nonempty p : Parser.split_slash p ≠ [].
Proof.
  destruct p as [|c p]; simpl; [done|].
  destruct (Ascii.eqb c "/"); [done|]. by destruct (Parser.split_slash p).
Qed.

Lemma split_slash_no_slash p :
  Forall (λ segment, has_char "/"%char segment = false) (Parser.split_slash p).
Proof.
  induction p as [|c p IH]; simpl; [by repeat constructor|].
  destruct (Ascii.eqb c "/") eqn:Hc; [by constructor|].
  destruct (Parser.split_slash p) as [|segment rest]; [by repeat constructor; simpl; rewrite Hc|].
  apply Forall_cons in IH as [Hsegment Hrest].
  constructor; [|done]. simpl. by rewrite Hc.
Qed.

Lemma split_slash_plain name :
  has_char "/"%char name = false → Parser.split_slash name = [name].
Proof.
  induction name as [|c name IH]; simpl; [done|].
  intros [Hc Hname]%orb_false_iff. by rewrite Hc, (IH Hname).
Qed.

Lemma split_slash_app a b :
  Parser.split_slash (a +:+ "/" +:+ b) = Parser.split_slash a ++ Parser.split_slash b.
Proof.
  induction a as [|c a IH]; [done|].
  change (Parser.split_slash (String c (a +:+ "/" +:+ b))
          = Parser.split_slash (String c a) ++ Parser.split_slash b).
  simpl. rewrite IH. destruct (Ascii.eqb c "/"); [done|].
  pose proof (split_slash_nonempty a).
  by destruct (Parser.split_slash a).
Qed.

Lemma proper_spec name :
  proper name = true
  ↔ name ≠ EmptyString ∧ name ≠ "."%string ∧ name ≠ ".."%string
    ∧ has_char "/"%char name = false.
Proof.
  unfold proper. rewrite !andb_true_iff, !negb_true_iff, !String.eqb_neq. tauto.
Qed.

Lemma proper_not_absolute name : proper name = true → Parser.absolute name = false.
Proof.
  intros (_ & _ & _ & Hslash)%proper_spec. destruct name as [|c name]; [done|].
  simpl in *. by apply orb_false_iff in Hslash as [-> _].
Qed.

Lemma normalize_step_proper stack name :
  proper name = true → Parser.normalize_step stack name = stack ++ [name].
Proof.
  intros (H1 & H2 & H3 & _)%proper_spec. unfold Parser.normalize_step.
  apply String.eqb_neq in H1, H2, H3. by rewrite H1, H2, H3.
Qed.

Lemma normalize_proper segments stack :
  Forall (λ name, proper name = true) segments →
  fold_left Parser.normalize_step segments stack = stack ++ segments.
Proof.
  intros Hsegments. revert stack.
  induction Hsegments as [|name segments Hname _ IH]; intros stack; simpl.
  - by rewrite app_nil_r.
  - by rewrite normalize_step_proper, IH, <-app_assoc.
Qed.

Lemma removelast_Forall {A} (P : A → Prop) (l : list A) :
  Forall P l → Forall P (removelast l).
Proof.
  induction 1 as [|x l Hx Hl IH]; simpl; [done|].
  destruct l; [done|]. by constructor.
Qed.

Lemma normalize_keeps_proper segments stack :
  Forall (λ segment, has_char "/"%char segment = false) segments →
  Forall (λ name, proper name = true) stack →
  Forall (λ name, proper name = true) (fold_left Parser.normalize_step segments stack).
Proof.
  intros Hsegments. revert stack.
  induction Hsegments as [|segment segments Hsegment _ IH]; intros stack Hstack;
    simpl; [done|].
  apply IH. unfold Parser.normalize_step.
  destruct (String.eqb_spec segment EmptyString) as [|H1]; [done|].
  destruct (String.eqb_spec segment ".") as [|H2]; [done|].
  destruct (String.eqb_spec segment "..") as [|H3]; simpl.
  - by apply removelast_Forall.
  - apply Forall_app. split; [done|]. repeat constructor. by apply proper_spec.
Qed.

Lemma string_app_empty (s : string) : s +:+ EmptyString = s.
Proof.
  induction s as [|a s IH]; [done|].
  change (String a (s +:+ EmptyString) = String a s). by f_equal.
Qed.

Lemma join_cons sep s l : ∃ t, Parser.join sep (s :: l) = s +:+ t.
Proof.
  unfold Parser.join. revert s.
  induction l as [|x l IH]; intros s; simpl.
  - exists EmptyString. by rewrite string_app_empty.
  - destruct (IH (s +:+ sep +:+ x)) as [t ->].
    exists (sep +:+ x +:+ t)%string. by rewrite <-!string_app_assoc.
Qed.

Lemma join_snoc sep l x :
  l ≠ [] → Parser.join sep (l ++ [x]) = Parser.join sep l +:+ sep +:+ x.
Proof.
  destruct l as [|s l]; [done|]. intros _. unfold Parser.join. simpl.
  by rewrite fold_left_app.
Qed.

Lemma split_join segments :
  segments ≠ [] →
  Forall (λ segment, has_char "/"%char segment = false) segments →
  Parser.split_slash (Parser.join "/" segments) = segments.
Proof.
  induction segments as [|x segments IH] using rev_ind; [done|].
  intros _ [Hsegments [Hx _]%Forall_cons]%Forall_app.
  destruct segments as [|s segments]; [by apply split_slash_plain|].
  rewrite join_snoc, split_slash_app, IH, split_slash_plain by done. done.
Qed.

Lemma proper_no_slash segments :
  Forall (λ name, proper name = true) segments →
  Forall (λ segment, has_char "/"%char segment = false) segments.
Proof.
  intros Hsegments. eapply Forall_impl; [exact Hsegments|].
  by intros name (_ & _ & _ & H)%proper_spec.
Qed.

Lemma normalize_absolute_path segments stack :
  Forall (λ name, proper name = true) segments →
  fold_left Parser.normalize_step (Parser.split_slash (absolute_path segments)) stack
  = stack ++ segments.
Proof.
  intros Hsegments. unfold absolute_path.
  change (fold_left Parser.normalize_step
            (EmptyString :: Parser.split_slash (Parser.join "/" segments)) stack
          = stack ++ segments).
  destruct segments as [|s segments]; [simpl; by rewrite app_nil_r|].
  rewrite split_join by (done || by apply proper_no_slash).
  change (fold_left Parser.normalize_step (s :: segments) stack
          = stack ++ s :: segments).
  by apply normalize_proper.
Qed.

Lemma absolute_path_snoc segments name :
  Forall (λ name, proper name = true) segments →
  absolute_path (segments ++ [name]) = child (absolute_path segments) name.
Proof.
  intros Hsegments. unfold absolute_path, child.
  destruct segments as [|s segments]; [done|].
  rewrite join_snoc by done.
  destruct (join_cons "/" s segments) as [t ->].
  apply Forall_cons in Hsegments as [(Hs & _)%proper_spec _].
  destruct s as [|a s]; [done|]. simpl. by rewrite <-!string_app_assoc.
Qed.

(** *** [path.resolve] *)

Lemma resolve_normalized cwd dir name : normalized (Parser.resolve cwd dir name).
Proof.
  unfold Parser.resolve. eexists. split; [|reflexivity].
  apply normalize_keeps_proper; [|done].
  apply Forall_bind, Forall_forall. intros p _. apply split_slash_no_slash.
Qed.

Lemma resolve_fixed cwd p : normalized p → Parser.resolve cwd p EmptyString = p.
Proof.
  intros (segments & Hsegments & ->). unfold Parser.resolve.
  change (Parser.absolute EmptyString) with false.
  change (Parser.absolute (absolute_path segments)) with true. cbv iota.
  change ([absolute_path segments; EmptyString] ≫= Parser.split_slash)
    with (Parser.split_slash (absolute_path segments) ++ [EmptyString]).
  by rewrite fold_left_app, normalize_absolute_path.
Qed.

Lemma resolve_child cwd dir name :
  proper name = true →
  Parser.resolve cwd dir name = child (Parser.resolve cwd dir EmptyString) name.
Proof.
  intros Hname. unfold Parser.resolve.
  rewrite (proper_not_absolute name Hname).
  change (Parser.absolute EmptyString) with false. cbv iota.
  set (base := if Parser.absolute dir then [dir] else [cwd; dir]).
  assert ((if Parser.absolute dir then [dir; name] else [cwd; dir; name])
          = base ++ [name]) as -> by (unfold base; by destruct (Parser.absolute dir)).
  assert ((if Parser.absolute dir then [dir; EmptyString] else [cwd; dir; EmptyString])
          = base ++ [EmptyString]) as -> by (unfold base; by destruct (Parser.absolute dir)).
  rewrite !bind_app, !fold_left_app.
  change ([EmptyString] ≫= Parser.split_slash) with [EmptyString].
  change ([name] ≫= Parser.split_slash) with (Parser.split_slash name ++ []).
  rewrite app_nil_r, split_slash_plain by (by apply proper_spec in Hname as (_ & _ & _ & ?)).
  simpl fold_left.
  change (Parser.normalize_step ?s EmptyString) with s.
  rewrite normalize_step_proper by done.
  apply absolute_path_snoc, normalize_keeps_proper; [|done].
  apply Forall_bind, Forall_forall. intros p _. apply split_slash_no_slash.
Qed.

(** The directory [main] lists, seen from the working directory. *)
Lemma resolve_BOOK_DIR (working : list string) (BOOK_NAME : string) :
  Forall (λ name, proper name = true) working → proper BOOK_NAME = true →
  Parser.resolve (absolute_path working) (Parser.BOOK_DIR BOOK_NAME) EmptyString
  = absolute_path (working ++ ["scraped_data"; BOOK_NAME]%string).
Proof.
  intros Hworking Hbook. unfold Parser.resolve, Parser.BOOK_DIR.
  change (Parser.absolute EmptyString) with false.
  change (Parser.absolute ("./scraped_data/" +:+ BOOK_NAME)) with false. cbv iota.
  change ([absolute_path working; "./scraped_data/" +:+ BOOK_NAME; EmptyString]
            ≫= Parser.split_slash)
    with (Parser.split_slash (absolute_path working)
            ++ Parser.split_slash ("." +:+ "/" +:+ "scraped_data" +:+ "/" +:+ BOOK_NAME)
            ++ [EmptyString]).
  rewrite !split_slash_app.
  rewrite (split_slash_plain BOOK_NAME)
    by (by apply proper_spec in Hbook as (_ & _ & _ & ?)).
  change (Parser.split_slash ".") with ["."%string].
  change (Parser.split_slash "scraped_data") with ["scraped_data"%string].
  rewrite fold_left_app, normalize_absolute_path by done.
  change (fold_left Parser.normalize_step
            ((["."%string] ++ ["scraped_data"%string] ++ [BOOK_NAME]) ++ [EmptyString])
            ([] ++ working))
    with (Parser.normalize_step (working ++ ["scraped_data"%string]) BOOK_NAME).
  by rewrite normalize_step_proper, <-app_assoc.
Qed.

(** *** The listing *)

Lemma getFilePaths_sound cwd dirents dir p :
  forallb proper_entry dirents = true →
  p ∈ Parser.getFilePaths cwd dir dirents →
  found (Parser.resolve cwd dir EmptyString) dirents p.
Proof.
  revert dir p.
  induction dirents as [|name rest IH|name rest IH|name entries rest IHin IH]
    using dirents_ind; intros dir p Hproper Hp.
  - by apply elem_of_nil in Hp.
  - change (proper name && forallb proper_entry rest = true) in Hproper.
    apply andb_true_iff in Hproper as [Hname Hrest].
    simpl in Hp. apply elem_of_app in Hp as [Hp|Hp].
    + destruct (Parser.endsWith name ".json") eqn:Hjson; [|by apply elem_of_nil in Hp].
      apply list_elem_of_singleton in Hp as ->.
      rewrite (resolve_child cwd dir name) by done.
      apply found_here; [left|done].
    + destruct (IH _ _ Hrest Hp) as [? ? n ? ?|? ? n below q ? ?].
      * apply found_here; [by right|done].
      * eapply found_below; [by right|done].
  - change (proper name && forallb proper_entry rest = true) in Hproper.
    apply andb_true_iff in Hproper as [Hname Hrest]. simpl in Hp.
    destruct (IH _ _ Hrest Hp) as [? ? n ? ?|? ? n below q ? ?].
    + apply found_here; [by right|done].
    + eapply found_below; [by right|done].
  - change ((proper name && forallb proper_entry entries)
            && forallb proper_entry rest = true) in Hproper.
    apply andb_true_iff in Hproper as [[Hname Hentries]%andb_true_iff Hrest].
    change (p ∈ Parser.getFilePaths cwd (Parser.resolve cwd dir name) entries
                  ++ Parser.getFilePaths cwd dir rest) in Hp.
    apply elem_of_app in Hp as [Hp|Hp].
    + eapply found_below; [left|]. rewrite <-(resolve_child cwd dir name) by done.
      rewrite <-(resolve_fixed cwd (Parser.resolve cwd dir name))
        by apply resolve_normalized.
      by apply IHin.
    + destruct (IH _ _ Hrest Hp) as [? ? n ? ?|? ? n below q ? ?].
      * apply found_here; [by right|done].
      * eapply found_below; [by right|done].
Qed.

Lemma proper_entry_elem dirents dirent :
  forallb proper_entry dirents = true → dirent ∈ dirents → proper_entry dirent = true.
Proof.
  intros Hall Hin. rewrite forallb_forall in Hall. apply Hall.
  by apply list_elem_of_In.
Qed.

Lemma getFilePaths_complete cwd root dirents p :
  found root dirents p →
  ∀ dir, root = Parser.resolve cwd dir EmptyString →
  forallb proper_entry dirents = true →
  p ∈ Parser.getFilePaths cwd dir dirents.
Proof.
  induction 1 as [root entries name Hin Hjson|root entries name below p Hin Hfound IH];
    intros dir -> Hproper.
  - pose proof (proper_entry_elem _ _ Hproper Hin) as Hname. simpl in Hname.
    rewrite <-(resolve_child cwd dir name) by done. clear Hproper.
    induction entries as [|d entries IHe]; [by apply elem_of_nil in Hin|].
    simpl. apply elem_of_app. apply elem_of_cons in Hin as [<-|Hin].
    + left. simpl. rewrite Hjson. left.
    + right. by apply IHe.
  - pose proof (proper_entry_elem _ _ Hproper Hin) as Hname. simpl in Hname.
    apply andb_true_iff in Hname as [Hname Hbelow].
    assert (p ∈ Parser.getFilePaths cwd (Parser.resolve cwd dir name) below) as Hp.
    { apply IH; [|done].
      rewrite (resolve_fixed cwd (Parser.resolve cwd dir name))
        by apply resolve_normalized.
      symmetry. by apply resolve_child. }
    clear Hproper IH Hfound.
    induction entries as [|d entries IHe]; [by apply elem_of_nil in Hin|].
    simpl. apply elem_of_app. apply elem_of_cons in Hin as [<-|Hin].
    + left. by rewrite visit_directory.
    + right. by apply IHe.
Qed.

(** getFilePaths returns the regular files whose name ends in .json, at any
    depth, and nothing else: no directory (even one named x.json), no entry
    that is neither file nor directory, no file with another extension.
    The paths are absolute and normalized whatever [dir] is: the path of an
    entry is the path of its directory, a slash and its name, from
    [path.resolve(dir)] down.  Every path returned ends in .json. *)
Theorem getFilePaths_found (cwd dir : string) (dirents : list Parser.Dirent)
    (p : string) :
  Parser.absolute cwd = true →
  forallb proper_entry dirents = true →
  normalized (Parser.resolve cwd dir EmptyString)
  ∧ (p ∈ Parser.getFilePaths cwd dir dirents
     ↔ found (Parser.resolve cwd dir EmptyString) dirents p)
  ∧ (p ∈ Parser.getFilePaths cwd dir dirents → Parser.endsWith p ".json" = true).
Proof.
  intros _ Hproper. split; [apply resolve_normalized|].
  split; [split; [by apply getFilePaths_sound|]|].
  - intros Hfound. by eapply getFilePaths_complete.
  - intros Hp. apply getFilePaths_sound in Hp; [|done]. clear Hproper.
    induction Hp as [root entries name _ Hjson|]; [|done].
    destruct (child_join root name) as [pre ->]. by apply endsWith_app.
Qed.

Lemma getFilePaths_found_witness :
  Parser.resolve "/home/user/noorlib" (Parser.BOOK_DIR "book") EmptyString
    = "/home/user/noorlib/scraped_data/book"%string
  ∧ "/home/user/noorlib/scraped_data/book/volume_1/section_2/page_1.json"%string
      ∈ Parser.getFilePaths "/home/user/noorlib" (Parser.BOOK_DIR "book") Demo.book_dir
  ∧ Parser.endsWith
      "/home/user/noorlib/scraped_data/book/volume_1/section_2/page_1.json" ".json"
    = true.
Proof.
  split; [reflexivity|].
  destruct (getFilePaths_found "/home/user/noorlib" (Parser.BOOK_DIR "book")
              Demo.book_dir
              "/home/user/noorlib/scraped_data/book/volume_1/section_2/page_1.json"
              eq_refl eq_refl) as (_ & Hiff & Hjson).
  assert ("/home/user/noorlib/scraped_data/book/volume_1/section_2/page_1.json"%string
            ∈ Parser.getFilePaths "/home/user/noorlib" (Parser.BOOK_DIR "book")
                Demo.book_dir) as Hin.
  { apply (proj2 Hiff).
    apply (found_below _ _ "volume_1"
             [Parser.Directory "section_1"
                [Parser.RegularFile "page_2.json"; Parser.RegularFile "page_10.json";
                 Parser.RegularFile "notes.txt"];
              Parser.Directory "section_2" [Parser.RegularFile "page_1.json"]]);
      [left|].
    apply (found_below _ _ "section_2" [Parser.RegularFile "page_1.json"]);
      [right; left|].
    apply (found_here "/home/user/noorlib/scraped_data/book/volume_1/section_2"
             [Parser.RegularFile "page_1.json"] "page_1.json"); [left|reflexivity]. }
  split; [exact Hin|exact (Hjson Hin)].
Defined.

Example getFilePaths_book :
  Parser.getFilePaths "/home/user/noorlib" (Parser.BOOK_DIR "book") Demo.book_dir
  = ["/home/user/noorlib/scraped_data/book/volume_1/section_1/page_2.json";
     "/home/user/noorlib/scraped_data/book/volume_1/section_1/page_10.json";
     "/home/user/noorlib/scraped_data/book/volume_1/section_2/page_1.json";
     "/home/user/noorlib/scraped_data/book/hadiths.json";
     "/home/user/noorlib/scraped_data/book/volume_2/section_1/page_1.json"]%string.
Proof. vm_compute. reflexivity. Qed.

(** [path.resolve] on paths that are not normalized. *)
Example resolve_examples :
  Parser.resolve "/home/user" "./a//b/" "c.json" = "/home/user/a/b/c.json"%string
  ∧ Parser.resolve "/home/user" "../x/./y" "c" = "/home/x/y/c"%string
  ∧ Parser.resolve "/home/user" "/../.." "c" = "/c"%string
  ∧ Parser.resolve "/home/user" "/srv/data" EmptyString = "/srv/data"%string
  ∧ Parser.resolve "/home/user" EmptyString EmptyString = "/home/user"%string
  ∧ Parser.resolve "/" ".." EmptyString = "/"%string.
Proof. vm_compute. repeat split. Qed.

(** ** The path pattern *)

Lemma span_digits_spec s d r :
  Parser.span_digits s = (d, r) →
  s = d ++ r ∧ Forall (λ c, Parser.is_digit c = true) d.
Proof.
  revert d r. induction s as [|c s IH]; intros d r; simpl.
  - by intros [= <- <-].
  - destruct (Parser.is_digit c) eqn:Hc.
    + destruct (Parser.span_digits s) as [d' r'].
      intros [= <- <-]. destruct (IH d' r' eq_refl) as [-> Hd].
      split; [done|]. by constructor.
    + by intros [= <- <-].
Qed.

Lemma span_digits_app d c r :
  Forall (λ c, Parser.is_digit c = true) d → Parser.is_digit c = false →
  Parser.span_digits (d ++ c :: r) = (d, c :: r).
Proof.
  intros Hd Hc. induction Hd as [|a d Ha Hd IH]; simpl.
  - by rewrite Hc.
  - by rewrite Ha, IH.
Qed.

Lemma literal_then_digits_app lit d c r :
  digits d → Parser.is_digit c = false →
  Parser.literal_then_digits lit
    (rev (list_ascii_of_string lit) ++ rev d ++ c :: r) = Some (d, c :: r).
Proof.
  intros [Hne Hd] Hc. unfold Parser.literal_then_digits.
  rewrite strip_prefix_app. simpl.
  rewrite span_digits_app; [|by apply Forall_rev|done].
  destruct (rev d) as [|a l] eqn:Hrev.
  - apply (f_equal (@rev ascii)) in Hrev. rewrite rev_involutive in Hrev. done.
  - by rewrite <-Hrev, rev_involutive.
Qed.

Lemma literal_then_digits_Some lit r d r' :
  Parser.literal_then_digits lit r = Some (d, r') →
  r = rev (list_ascii_of_string lit) ++ rev d ++ r' ∧ digits d.
Proof.
  unfold Parser.literal_then_digits.
  destruct (Parser.strip_prefix _ r) as [r1|] eqn:Hstrip; [|done]. simpl.
  destruct (Parser.span_digits r1) as [d1 r2] eqn:Hspan.
  intros Hmatch.
  assert (d1 ≠ [] ∧ d = rev d1 ∧ r' = r2) as (Hne & -> & ->).
  { destruct d1; [done|]. by injection Hmatch as <- <-. }
  apply strip_prefix_Some in Hstrip as ->.
  apply span_digits_spec in Hspan as [-> Hd].
  rewrite rev_involutive. split; [done|]. split.
  - intros Hnil. apply (f_equal (@rev ascii)) in Hnil.
    rewrite rev_involutive in Hnil. done.
  - by apply Forall_rev.
Qed.

Lemma matchPath_sound (filePath : string) (v s p : N) :
  Parser.matchPath filePath = Some (v, s, p) →
  ∃ pre dv ds dp,
    list_ascii_of_string filePath = page_path pre dv ds dp ∧
    digits dv ∧ digits ds ∧ digits dp ∧
    v = Parser.Number dv ∧ s = Parser.Number ds ∧ p = Parser.Number dp.
Proof.
  unfold Parser.matchPath, mbind, option_bind.
  destruct (Parser.literal_then_digits ".json" _) as [[dp r1]|] eqn:H1; [|done].
  destruct (Parser.literal_then_digits "/page_" r1) as [[ds r2]|] eqn:H2; [|done].
  destruct (Parser.literal_then_digits "/section_" r2) as [[dv r3]|] eqn:H3; [|done].
  destruct (Parser.strip_prefix (rev (list_ascii_of_string "volume_")) r3)
    as [r4|] eqn:H4; [|done].
  intros [= <- <- <-].
  apply literal_then_digits_Some in H1 as [Hpath Hdp].
  apply literal_then_digits_Some in H2 as [-> Hds].
  apply literal_then_digits_Some in H3 as [-> Hdv].
  apply strip_prefix_Some in H4 as ->.
  exists (rev r4), dv, ds, dp. split; [|done].
  apply (f_equal (@rev ascii)) in Hpath. rewrite rev_involutive in Hpath.
  rewrite Hpath. unfold page_path.
  rewrite !rev_app_distr, !rev_involutive, <-!app_assoc. done.
Qed.

Lemma matchPath_complete (filePath : string) (pre dv ds dp : list ascii) :
  list_ascii_of_string filePath = page_path pre dv ds dp →
  digits dv → digits ds → digits dp →
  Parser.matchPath filePath
  = Some (Parser.Number dv, Parser.Number ds, Parser.Number dp).
Proof.
  unfold Parser.matchPath, mbind, option_bind.
  intros Hpath Hdv Hds Hdp.
  pose (r3 := rev (list_ascii_of_string "volume_") ++ rev pre).
  pose (r2 := rev (list_ascii_of_string "/section_") ++ rev dv ++ r3).
  pose (r1 := rev (list_ascii_of_string "/page_") ++ rev ds ++ r2).
  assert (rev (list_ascii_of_string filePath)
          = rev (list_ascii_of_string ".json") ++ rev dp ++ r1) as ->.
  { rewrite Hpath. unfold page_path, r1, r2, r3.
    by rewrite !rev_app_distr, <-!app_assoc. }
  assert (Parser.literal_then_digits ".json"
            (rev (list_ascii_of_string ".json") ++ rev dp ++ r1) = Some (dp, r1))
    as ->.
  { by apply (literal_then_digits_app ".json" dp "_"%char
                (rev (list_ascii_of_string "/page") ++ rev ds ++ r2)). }
  assert (Parser.literal_then_digits "/page_" r1 = Some (ds, r2)) as ->.
  { by apply (literal_then_digits_app "/page_" ds "_"%char
                (rev (list_ascii_of_string "/section") ++ rev dv ++ r3)). }
  assert (Parser.literal_then_digits "/section_" r2 = Some (dv, r3)) as ->.
  { by apply (literal_then_digits_app "/section_" dv "_"%char
                (rev (list_ascii_of_string "volume") ++ rev pre)). }
  unfold r3. by rewrite strip_prefix_app.
Qed.

(** ** The processing order and the order of discovery *)

Lemma sortedPaths_perm (filePaths : list string) :
  Parser.sortedPaths filePaths
    ≡ₚ filter (λ p, is_Some (Parser.matchPath p)) filePaths.
Proof.
  unfold Parser.sortedPaths. cbv zeta.
  set (vol_of := λ p : string,
         match Parser.matchPath p with Some (v, _, _) => v | None => 0%N end).
  set (sec_of := λ p : string,
         match Parser.matchPath p with Some (_, s, _) => s | None => 0%N end).
  transitivity
    (Parser.sorted_keys (Parser.groupedFiles filePaths) ≫= λ v,
       filter (λ p, vol_of p = v)
         (filter (λ p, is_Some (Parser.matchPath p)) filePaths)).
  + apply bind_perm_ext. intros v _.
    transitivity
      (Parser.sorted_keys (default ∅ (Parser.groupedFiles filePaths !! v)) ≫= λ s,
         filter (λ p, sec_of p = s)
           (filter (λ p, vol_of p = v)
              (filter (λ p, is_Some (Parser.matchPath p)) filePaths))).
    * apply bind_perm_ext. intros s _.
      rewrite sort_by_perm, pages_of_groupedFiles, path_entry_of.
      rewrite !list_filter_filter.
      erewrite list_filter_iff; [done|].
      intros p. rewrite in_group_spec. unfold vol_of, sec_of. cbv beta.
      destruct (Parser.matchPath p) as [[[v' s'] pg]|].
      -- split.
         ++ intros [pg' [= -> -> _]]. done.
         ++ intros [[-> ->] _]. by exists pg.
      -- split; [by intros [? ?]|]. intros [_ [? ?]]. done.
    * apply bind_partition; [apply sorted_keys_nodup|].
      intros p [Hv [[[[v' s'] pg] Hm] Hp]%list_elem_of_filter]%list_elem_of_filter.
      eapply (group_keys filePaths v (sec_of p) p); [done|].
      apply in_group_spec. unfold vol_of, sec_of in *. cbv beta in *. rewrite Hm in *.
      exists pg. by subst.
  + apply bind_partition; [apply sorted_keys_nodup|].
    intros p [[[[v' s'] pg] Hm] Hp]%list_elem_of_filter.
    eapply (group_keys filePaths (vol_of p) s' p); [done|].
    apply in_group_spec. unfold vol_of. cbv beta. rewrite Hm. by exists pg.
Qed.

Lemma sortedPaths_sorted (filePaths : list string) :
  StronglySorted path_le (Parser.sortedPaths filePaths).
Proof.
  unfold Parser.sortedPaths. cbv zeta.
  apply bind_sorted; [apply sorted_keys_ascending| |].
  + intros v _. apply bind_sorted; [apply sorted_keys_ascending| |].
    * intros s _. apply group_sorted.
    * intros s1 s2 p q Hlt [_ Hp]%group_elem [_ Hq]%group_elem.
      apply in_group_spec in Hp as [pg Hp]. apply in_group_spec in Hq as [qg Hq].
      unfold path_le. rewrite Hp, Hq. simpl. lia.
  + intros v1 v2 p q Hlt Hp Hq.
    apply list_elem_of_bind in Hp as [s1 [[_ Hp]%group_elem _]].
    apply list_elem_of_bind in Hq as [s2 [[_ Hq]%group_elem _]].
    apply in_group_spec in Hp as [pg Hp]. apply in_group_spec in Hq as [qg Hq].
    unfold path_le. rewrite Hp, Hq. simpl. lia.
Qed.

Lemma sortedPaths_elem (filePaths : list string) (p : string) :
  p ∈ Parser.sortedPaths filePaths ↔ p ∈ filePaths ∧ is_Some (Parser.matchPath p).
Proof. rewrite sortedPaths_perm, list_elem_of_filter. tauto. Qed.

Lemma path_le_antisym p q :
  path_le p q → path_le q p →
  is_Some (Parser.matchPath p) ∧ Parser.matchPath p = Parser.matchPath q.
Proof.
  unfold path_le.
  destruct (Parser.matchPath p) as [[[v1 s1] p1]|]; [|done].
  destruct (Parser.matchPath q) as [[[v2 s2] p2]|]; [|done].
  simpl. intros H1 H2. split; [by eexists|].
  assert (v1 = v2 ∧ s1 = s2 ∧ p1 = p2) as (-> & -> & ->) by lia. done.
Qed.

(** Two sorted lists with the same elements are the same list, when the
    order leaves no choice between two elements. *)
Lemma sorted_perm_unique {A} (R : relation A) (l1 l2 : list A) :
  (∀ x y, x ∈ l1 → y ∈ l1 → R x y → R y x → x = y) →
  StronglySorted R l1 → StronglySorted R l2 → l1 ≡ₚ l2 → l1 = l2.
Proof.
  revert l2. induction l1 as [|x l1 IH]; intros l2 Hanti Hs1 Hs2 Hperm.
  - by apply Permutation_nil in Hperm.
  - destruct l2 as [|y l2]; [by apply Permutation_sym, Permutation_nil in Hperm|].
    apply StronglySorted_cons in Hs1 as [Hx Hs1].
    apply StronglySorted_cons in Hs2 as [Hy Hs2].
    rewrite Forall_forall in Hx, Hy.
    assert (x = y) as <-.
    { assert (x ∈ y :: l2) as Hxin by (rewrite <-Hperm; left).
      assert (y ∈ x :: l1) as Hyin by (rewrite Hperm; left).
      apply elem_of_cons in Hxin as [?|Hxin]; [done|].
      apply elem_of_cons in Hyin as [?|Hyin]; [done|].
      apply Hanti; [left|by right|by apply Hx|by apply Hy]. }
    f_equal. apply IH; [|done|done|by apply Permutation_cons_inv in Hperm].
    intros a b Ha Hb. apply Hanti; by right.
Qed.

(** The processing order does not depend on the order in which the
    directory listing yields the files, as soon as no two of the paths that
    match are read as the same (volume, section, page): the three numbers
    as [Number] gives them, doubles. *)
Theorem sortedPaths_any_listing_order (l1 l2 : list string) :
  l1 ≡ₚ l2 →
  (∀ p q, p ∈ l1 → q ∈ l1 → is_Some (Parser.matchPath p) →
          Parser.matchPath p = Parser.matchPath q → p = q) →
  Parser.sortedPaths l1 = Parser.sortedPaths l2.
Proof.
  intros Hperm Hdistinct.
  apply (sorted_perm_unique path_le).
  - intros p q [Hp _]%sortedPaths_elem [Hq _]%sortedPaths_elem Hpq Hqp.
    destruct (path_le_antisym p q Hpq Hqp) as [Hsome Heq]. by apply Hdistinct.
  - apply sortedPaths_sorted.
  - apply sortedPaths_sorted.
  - by rewrite !sortedPaths_perm, Hperm.
Qed.

Lemma sortedPaths_any_listing_order_witness :
  Parser.sortedPaths
    ["/b/volume_2/section_1/page_1.json"; "/b/volume_1/section_2/page_1.json";
     "/b/hadiths.json"; "/b/volume_1/section_1/page_10.json"]%string
  = Parser.sortedPaths
      ["/b/volume_1/section_1/page_10.json"; "/b/hadiths.json";
       "/b/volume_2/section_1/page_1.json"; "/b/volume_1/section_2/page_1.json"]%string.
Proof.
  apply sortedPaths_any_listing_order.
  - apply NoDup_Permutation.
    + repeat (apply NoDup_cons; split;
              [rewrite ?elem_of_cons, elem_of_nil; intros H;
               repeat (destruct H as [H|H]; [discriminate H|]); exact H|]).
      apply NoDup_nil_2.
    + repeat (apply NoDup_cons; split;
              [rewrite ?elem_of_cons, elem_of_nil; intros H;
               repeat (destruct H as [H|H]; [discriminate H|]); exact H|]).
      apply NoDup_nil_2.
    + intros x. rewrite !elem_of_cons, !elem_of_nil. tauto.
  - intros p q Hp Hq _.
    rewrite !elem_of_cons, elem_of_nil in Hp, Hq.
    destruct Hp as [->|[->|[->|[->|[]]]]];
      destruct Hq as [->|[->|[->|[->|[]]]]];
      vm_compute; intros Heq; first [reflexivity | discriminate Heq].
Defined.

(** Two paths whose numbers differ beyond the precision of a double are
    read as the same triple, and keep the order of the listing. *)
Example listing_order_decides_rounded_ties :
  let a := "/b/volume_9007199254740993/section_1/page_1.json"%string in
  let b := "/b/volume_9007199254740992/section_1/page_1.json"%string in
  Parser.matchPath a = Parser.matchPath b
  ∧ Parser.sortedPaths [a; b] = [a; b] ∧ Parser.sortedPaths [b; a] = [b; a].
Proof. repeat split; by vm_compute. Qed.

(** ** From the directory to the processing order *)

Lemma child_not_root dir name :
  name ≠ EmptyString → String.eqb (child dir name) "/" = false.
Proof.
  intros Hname. unfold child.
  destruct (String.eqb_spec dir "/") as [->|Hdir].
  - destruct name as [|a name]; [done|]. reflexivity.
  - apply String.eqb_neq. destruct dir as [|a [|b dir]]; [| |].
    + intros [= Heq]. done.
    + destruct name as [|c name]; [done|]. intros [= _ Heq].
    + intros [= _ Heq].
Qed.

Lemma child_list dir name :
  list_ascii_of_string (child dir name)
  = (if String.eqb dir "/" then [] else list_ascii_of_string dir)
      ++ "/"%char :: list_ascii_of_string name.
Proof.
  unfold child. destruct (String.eqb dir "/"); [done|].
  by rewrite !list_ascii_app.
Qed.

Lemma getFilePaths_file cwd dir entries name :
  Parser.RegularFile name ∈ entries → Parser.endsWith name ".json" = true →
  Parser.resolve cwd dir name ∈ Parser.getFilePaths cwd dir entries.
Proof.
  intros Hin Hjson.
  induction entries as [|d entries IHe]; [by apply elem_of_nil in Hin|].
  simpl. apply elem_of_app. apply elem_of_cons in Hin as [<-|Hin].
  - left. simpl. rewrite Hjson. left.
  - right. by apply IHe.
Qed.

Lemma getFilePaths_directory cwd dir entries name below p :
  Parser.Directory name below ∈ entries →
  p ∈ Parser.getFilePaths cwd (Parser.resolve cwd dir name) below →
  p ∈ Parser.getFilePaths cwd dir entries.
Proof.
  intros Hin Hp.
  induction entries as [|d entries IHe]; [by apply elem_of_nil in Hin|].
  simpl. apply elem_of_app. apply elem_of_cons in Hin as [<-|Hin].
  - left. by rewrite visit_directory.
  - right. by apply IHe.
Qed.

Lemma has_char_append c a b : has_char c (a +:+ b) = has_char c a || has_char c b.
Proof.
  induction a as [|x a IH]; [done|].
  change (has_char c (String x (a +:+ b)) = has_char c (String x a) || has_char c b).
  simpl. by rewrite IH, orb_assoc.
Qed.

Lemma has_slash_digits d :
  Forall (λ c, Parser.is_digit c = true) d →
  has_char "/"%char (string_of_list_ascii d) = false.
Proof.
  induction 1 as [|c d Hc _ IH]; [done|]. simpl. rewrite IH, orb_false_r.
  destruct (Ascii.eqb_spec c "/") as [->|]; [|done]. by vm_compute in Hc.
Qed.

(** A name made of a literal of three characters or more without slash,
    digits, and a literal without slash, is a proper name. *)
Lemma proper_with_digits (a b c : ascii) (lit : string) (d : list ascii)
    (suffix : string) :
  has_char "/"%char (String a (String b (String c lit))) = false →
  has_char "/"%char suffix = false →
  Forall (λ c, Parser.is_digit c = true) d →
  proper (String a (String b (String c lit)) +:+ string_of_list_ascii d +:+ suffix)
  = true.
Proof.
  intros Hlit Hsuffix Hd. apply proper_spec. repeat split; [done..|].
  by rewrite !has_char_append, Hlit, Hsuffix, has_slash_digits.
Qed.

(** *** The number a run of digits denotes *)

Lemma fold_decimal (d : list ascii) (acc : N) :
  fold_left (λ acc c, 10 * acc + (N_of_ascii c - 48))%N d acc
  = (acc * 10 ^ N.of_nat (List.length d) + decimal d)%N.
Proof.
  revert acc. induction d as [|c d IH]; intros acc; simpl fold_left.
  - simpl. lia.
  - rewrite IH. change (decimal (c :: d))
      with ((N_of_ascii c - 48) * 10 ^ N.of_nat (List.length d) + decimal d)%N.
    change (List.length (c :: d)) with (S (List.length d)).
    rewrite Nat2N.inj_succ, N.pow_succ_r'. lia.
Qed.

Lemma Number_decimal (d : list ascii) : Parser.Number d = Parser.to_double (decimal d).
Proof. unfold Parser.Number. by rewrite fold_decimal. Qed.

Lemma to_double_exact (n : N) : (n ≤ 2 ^ 53)%N → Parser.to_double n = n.
Proof.
  intros Hn. unfold Parser.to_double.
  destruct (N.ltb_spec n (2 ^ 53)) as [|Hge]; [done|].
  assert (n = 2 ^ 53)%N as -> by lia. by vm_compute.
Qed.

Lemma Number_exact (d : list ascii) : (decimal d ≤ 2 ^ 53)%N → Parser.Number d = decimal d.
Proof. intros Hd. by rewrite Number_decimal, to_double_exact. Qed.

(** From the directory [main] lists to the processing order: a page kept
    as volume_<V>/section_<S>/page_<P>.json under BOOK_DIR, with numbers
    that a double holds exactly, is discovered under its absolute path,
    matched with the three numbers its names denote, and is in the
    processing order. *)
Theorem discovered_page_is_processed (working : list string) (BOOK_NAME : string)
    (entries sections pages : list Parser.Dirent) (dv ds dp : list ascii) :
  Forall (λ name, proper name = true) working → proper BOOK_NAME = true →
  digits dv → digits ds → digits dp →
  (decimal dv ≤ 2 ^ 53)%N → (decimal ds ≤ 2 ^ 53)%N → (decimal dp ≤ 2 ^ 53)%N →
  Parser.Directory ("volume_" +:+ string_of_list_ascii dv) sections ∈ entries →
  Parser.Directory ("section_" +:+ string_of_list_ascii ds) pages ∈ sections →
  Parser.RegularFile ("page_" +:+ string_of_list_ascii dp +:+ ".json") ∈ pages →
  let p :=
    absolute_path
      (working ++ ["scraped_data"; BOOK_NAME;
                   "volume_" +:+ string_of_list_ascii dv;
                   "section_" +:+ string_of_list_ascii ds;
                   "page_" +:+ string_of_list_ascii dp +:+ ".json"]%string) in
  let filePaths :=
    Parser.getFilePaths (absolute_path working) (Parser.BOOK_DIR BOOK_NAME) entries in
  p ∈ filePaths ∧
  Parser.matchPath p = Some (decimal dv, decimal ds, decimal dp) ∧
  p ∈ Parser.sortedPaths filePaths.
Proof.
  intros Hworking Hbook Hdv Hds Hdp Hv Hs Hp Hvolume Hsection Hpage p filePaths.
  set (cwd := absolute_path working) in *.
  set (dir := Parser.BOOK_DIR BOOK_NAME) in *.
  set (vname := ("volume_" +:+ string_of_list_ascii dv)%string) in *.
  set (sname := ("section_" +:+ string_of_list_ascii ds)%string) in *.
  set (pname := ("page_" +:+ string_of_list_ascii dp +:+ ".json")%string) in *.
  assert (proper vname = true) as Hvname.
  { unfold vname. rewrite <-(string_app_empty (string_of_list_ascii dv)).
    by apply (proper_with_digits "v" "o" "l" "ume_" dv EmptyString), Hdv. }
  assert (proper sname = true) as Hsname.
  { unfold sname. rewrite <-(string_app_empty (string_of_list_ascii ds)).
    by apply (proper_with_digits "s" "e" "c" "tion_" ds EmptyString), Hds. }
  assert (proper pname = true) as Hpname.
  { by apply (proper_with_digits "p" "a" "g" "e_" dp ".json"), Hdp. }
  set (root := Parser.resolve cwd dir EmptyString).
  assert (Parser.resolve cwd (Parser.resolve cwd (Parser.resolve cwd dir vname) sname) pname
          = child (child (child root vname) sname) pname) as Hcode.
  { rewrite (resolve_child cwd _ pname) by done.
    rewrite (resolve_fixed cwd (Parser.resolve cwd _ sname)) by apply resolve_normalized.
    rewrite (resolve_child cwd _ sname) by done.
    rewrite (resolve_fixed cwd (Parser.resolve cwd _ vname)) by apply resolve_normalized.
    by rewrite (resolve_child cwd dir vname) by done. }
  assert (p = child (child (child root vname) sname) pname) as Hpath.
  { unfold p, root, cwd, dir. rewrite resolve_BOOK_DIR by done.
    change (working ++ ["scraped_data"%string; BOOK_NAME; vname; sname; pname])
      with (working ++ ["scraped_data"%string; BOOK_NAME] ++ [vname] ++ [sname] ++ [pname]).
    rewrite !app_assoc.
    rewrite !absolute_path_snoc; [done|..];
      repeat (apply Forall_app; split); try done; by repeat constructor. }
  assert (p ∈ filePaths) as Hin.
  { rewrite Hpath, <-Hcode. unfold filePaths.
    eapply getFilePaths_directory; [exact Hvolume|].
    eapply getFilePaths_directory; [exact Hsection|].
    apply getFilePaths_file; [exact Hpage|].
    unfold pname. rewrite string_app_assoc. by apply endsWith_app. }
  assert (Parser.matchPath p = Some (decimal dv, decimal ds, decimal dp)) as Hmatch.
  { rewrite <-(Number_exact dv), <-(Number_exact ds), <-(Number_exact dp) by done.
    apply (matchPath_complete p
             ((if String.eqb root "/" then [] else list_ascii_of_string root)
                ++ ["/"%char])); [|done..].
    rewrite Hpath. rewrite child_list, child_not_root by done.
    rewrite child_list, child_not_root by done.
    unfold vname, sname, pname.
    rewrite child_list, !list_ascii_app, !list_ascii_of_string_of_list_ascii.
    unfold page_path. rewrite <-!app_assoc. reflexivity. }
  split; [done|]. split; [done|].
  apply sortedPaths_elem. split; [done|]. rewrite Hmatch. by eexists.
Qed.

Lemma discovered_page_is_processed_witness :
  let p := "/home/user/noorlib/scraped_data/book/volume_1/section_1/page_10.json"%string in
  let filePaths :=
    Parser.getFilePaths "/home/user/noorlib" "./scraped_data/book" Demo.book_dir in
  p ∈ filePaths ∧ Parser.matchPath p = Some (1, 1, 10)%N ∧
  p ∈ Parser.sortedPaths filePaths.
Proof.
  apply (discovered_page_is_processed ["home"; "user"; "noorlib"]%string "book"
           Demo.book_dir
           [Parser.Directory "section_1"
              [Parser.RegularFile "page_2.json"; Parser.RegularFile "page_10.json";
               Parser.RegularFile "notes.txt"];
            Parser.Directory "section_2" [Parser.RegularFile "page_1.json"]]
           [Parser.RegularFile "page_2.json"; Parser.RegularFile "page_10.json";
            Parser.RegularFile "notes.txt"]
           (list_ascii_of_string "1") (list_ascii_of_string "1")
           (list_ascii_of_string "10")).
  - repeat constructor.
  - reflexivity.
  - split; [discriminate|repeat constructor].
  - split; [discriminate|repeat constructor].
  - split; [discriminate|repeat constructor].
  - by vm_compute.
  - by vm_compute.
  - by vm_compute.
  - left.
  - left.
  - right. left.
Defined.

(** ** The processing order and the numbers in the names *)

Lemma captures_complete (filePath : string) (pre dv ds dp : list ascii) :
  list_ascii_of_string filePath = page_path pre dv ds dp →
  digits dv → digits ds → digits dp →
  captures filePath = Some (dv, ds, dp).
Proof.
  unfold captures, mbind, option_bind.
  intros Hpath Hdv Hds Hdp.
  pose (r3 := rev (list_ascii_of_string "volume_") ++ rev pre).
  pose (r2 := rev (list_ascii_of_string "/section_") ++ rev dv ++ r3).
  pose (r1 := rev (list_ascii_of_string "/page_") ++ rev ds ++ r2).
  assert (rev (list_ascii_of_string filePath)
          = rev (list_ascii_of_string ".json") ++ rev dp ++ r1) as ->.
  { rewrite Hpath. unfold page_path, r1, r2, r3.
    by rewrite !rev_app_distr, <-!app_assoc. }
  assert (Parser.literal_then_digits ".json"
            (rev (list_ascii_of_string ".json") ++ rev dp ++ r1) = Some (dp, r1))
    as ->.
  { by apply (literal_then_digits_app ".json" dp "_"%char
                (rev (list_ascii_of_string "/page") ++ rev ds ++ r2)). }
  assert (Parser.literal_then_digits "/page_" r1 = Some (ds, r2)) as ->.
  { by apply (literal_then_digits_app "/page_" ds "_"%char
                (rev (list_ascii_of_string "/section") ++ rev dv ++ r3)). }
  assert (Parser.literal_then_digits "/section_" r2 = Some (dv, r3)) as ->.
  { by apply (literal_then_digits_app "/section_" dv "_"%char
                (rev (list_ascii_of_string "volume") ++ rev pre)). }
  unfold r3. by rewrite strip_prefix_app.
Qed.

Lemma triple_of_captures (filePath : string) (t : N * N * N) :
  triple_of filePath t →
  ∃ dv ds dp, captures filePath = Some (dv, ds, dp)
              ∧ t = (decimal dv, decimal ds, decimal dp).
Proof.
  intros (pre & dv & ds & dp & Hpath & Hdv & Hds & Hdp & ->).
  exists dv, ds, dp. split; [|done]. by apply (captures_complete filePath pre).
Qed.

Lemma triple_of_matchPath (filePath : string) (t : N * N * N) :
  triple_of filePath t → safe t → Parser.matchPath filePath = Some t.
Proof.
  intros (pre & dv & ds & dp & Hpath & Hdv & Hds & Hdp & ->) (Hv & Hs & Hp).
  rewrite (matchPath_complete filePath pre dv ds dp) by done.
  by rewrite !Number_exact.
Qed.

Lemma matches_triple (filePath : string) :
  is_Some (Parser.matchPath filePath) ↔ ∃ t, triple_of filePath t.
Proof.
  split.
  - intros [[[v s] p] (pre & dv & ds & dp & Hpath & Hdv & Hds & Hdp & _)%matchPath_sound].
    exists (decimal dv, decimal ds, decimal dp). by exists pre, dv, ds, dp.
  - intros [t (pre & dv & ds & dp & Hpath & Hdv & Hds & Hdp & _)].
    rewrite (matchPath_complete filePath pre dv ds dp) by done. by eexists.
Qed.

Lemma StronglySorted_on {A} (R R' : relation A) (l : list A) :
  StronglySorted R l →
  (∀ x y, x ∈ l → y ∈ l → R x y → R' x y) →
  StronglySorted R' l.
Proof.
  induction 1 as [|x l Hl IH Hx]; intros Himpl; constructor.
  - apply IH. intros a b Ha Hb. apply Himpl; by right.
  - rewrite Forall_forall in Hx. apply Forall_forall. intros y Hy.
    apply Himpl; [left|by right|by apply Hx].
Qed.

(** C2, as amended.  For any discovered paths the processing order holds
    exactly those of the pattern volume_<V>/section_<S>/page_<P>.json, the
    others are left out; and when the numbers in the names of the
    discovered paths are at most 2^53, it is non-decreasing in the integer
    triple (volume, section, page), compared lexicographically: every path
    comes before all the paths after it. *)
Theorem sortedPaths_order (filePaths : list string) :
  Parser.sortedPaths filePaths
    ≡ₚ filter (λ p, is_Some (Parser.matchPath p)) filePaths
  ∧ (∀ p, is_Some (Parser.matchPath p) ↔ ∃ t, triple_of p t)
  ∧ ((∀ p t, p ∈ filePaths → triple_of p t → safe t) →
     ordered_by_integers (Parser.sortedPaths filePaths)).
Proof.
  split; [apply sortedPaths_perm|]. split; [apply matches_triple|]. intros Hsafe.
  apply (StronglySorted_on path_le); [apply sortedPaths_sorted|].
  intros p q [Hp _]%sortedPaths_elem [Hq _]%sortedPaths_elem Hle tp tq Htp Htq.
  unfold path_le in Hle.
  rewrite (triple_of_matchPath p tp), (triple_of_matchPath q tq) in Hle; eauto.
Qed.

Lemma sortedPaths_order_witness :
  let filePaths :=
    ["/b/volume_1/section_2/page_1.json"; "/b/hadiths.json";
     "/b/volume_1/section_1/page_2.json"; "/b/volume_2/section_1/page_1.json"]%string in
  Parser.sortedPaths filePaths
  = ["/b/volume_1/section_1/page_2.json"; "/b/volume_1/section_2/page_1.json";
     "/b/volume_2/section_1/page_1.json"]%string
  ∧ ordered_by_integers (Parser.sortedPaths filePaths).
Proof.
  intros filePaths. split; [by vm_compute|].
  apply (proj2 (proj2 (sortedPaths_order filePaths))).
  intros p t Hp (dv & ds & dp & Hcaptures & ->)%triple_of_captures.
  unfold filePaths in Hp. rewrite !elem_of_cons, elem_of_nil in Hp.
  destruct Hp as [->|[->|[->|[->|[]]]]];
    vm_compute in Hcaptures; try discriminate Hcaptures;
    injection Hcaptures as <- <- <-; vm_compute; repeat split; discriminate.
Defined.

(** Above 2^53 the numbers are read rounded: two volumes whose numbers
    round to the same double form one group, inside which the pages
    decide, so that the larger volume can come first. *)
Lemma large_volume_read_first :
  let a := "/b/volume_9007199254740993/section_1/page_1.json"%string in
  let b := "/b/volume_9007199254740992/section_1/page_2.json"%string in
  triple_of a (9007199254740993, 1, 1)%N ∧ triple_of b (9007199254740992, 1, 2)%N
  ∧ Parser.sortedPaths [a; b] = [a; b]
  ∧ ¬ ordered_by_integers (Parser.sortedPaths [a; b]).
Proof.
  intros a b.
  assert (triple_of a (9007199254740993, 1, 1)%N) as Ha.
  { exists (list_ascii_of_string "/b/"), (list_ascii_of_string "9007199254740993"),
      (list_ascii_of_string "1"), (list_ascii_of_string "1").
    split; [reflexivity|].
    split; [split; [discriminate|repeat constructor]|].
    split; [split; [discriminate|repeat constructor]|].
    split; [split; [discriminate|repeat constructor]|]. by vm_compute. }
  assert (triple_of b (9007199254740992, 1, 2)%N) as Hb.
  { exists (list_ascii_of_string "/b/"), (list_ascii_of_string "9007199254740992"),
      (list_ascii_of_string "1"), (list_ascii_of_string "2").
    split; [reflexivity|].
    split; [split; [discriminate|repeat constructor]|].
    split; [split; [discriminate|repeat constructor]|].
    split; [split; [discriminate|repeat constructor]|]. by vm_compute. }
  assert (Parser.sortedPaths [a; b] = [a; b]) as Hsorted by (by vm_compute).
  split; [done|]. split; [done|]. split; [done|].
  rewrite Hsorted. intros [Hfirst _]%StronglySorted_cons.
  apply Forall_cons in Hfirst as [Hab _].
  specialize (Hab _ _ Ha Hb). unfold triple_le in Hab. lia.
Qed.

(** The embedding of the pattern accepts exactly the paths that end in
    volume_<V>/section_<S>/page_<P>.json with three non-empty runs of
    digits, whatever comes before, and returns the three numbers the runs
    denote, each as the nearest double: the integer triple itself when the
    three numbers are at most 2^53. *)
Theorem matchPath_shape (filePath : string) (v s p : N) :
  (Parser.matchPath filePath = Some (v, s, p)
   ↔ ∃ pre dv ds dp,
       list_ascii_of_string filePath = page_path pre dv ds dp ∧
       digits dv ∧ digits ds ∧ digits dp ∧
       v = Parser.to_double (decimal dv) ∧ s = Parser.to_double (decimal ds) ∧
       p = Parser.to_double (decimal dp))
  ∧ (∀ t, triple_of filePath t → safe t → Parser.matchPath filePath = Some t).
Proof.
  split; [|apply triple_of_matchPath]. split.
  - intros (pre & dv & ds & dp & H)%matchPath_sound.
    exists pre, dv, ds, dp. by rewrite <-!Number_decimal.
  - intros (pre & dv & ds & dp & Hpath & Hdv & Hds & Hdp & -> & -> & ->).
    rewrite <-!Number_decimal. by apply (matchPath_complete filePath pre).
Qed.

Lemma matchPath_shape_witness :
  Parser.matchPath "/data/book/volume_12/section_3/page_045.json"
  = Some (12, 3, 45)%N.
Proof.
  apply (proj2 (matchPath_shape "/data/book/volume_12/section_3/page_045.json"
                  12 3 45) (12, 3, 45)%N).
  - exists (list_ascii_of_string "/data/book/"), (list_ascii_of_string "12"),
      (list_ascii_of_string "3"), (list_ascii_of_string "045").
    split; [reflexivity|].
    split; [split; [discriminate|repeat constructor]|].
    split; [split; [discriminate|repeat constructor]|].
    split; [split; [discriminate|repeat constructor]|]. reflexivity.
  - vm_compute. repeat split; discriminate.
Defined.

(** A page number past 2^53 is read as the nearest double, here the even
    neighbour below. *)
Example matchPath_rounds :
  Parser.matchPath "/b/volume_1/section_1/page_9007199254740993.json"
  = Some (1, 1, 9007199254740992)%N.
Proof. by vm_compute. Qed.

(** ** Invariants of the two passes *)

Section Invariants.
Context {C : Parser.Cheerio} {T : StringTrim}.

Lemma open_page_Some readFile filePath v s pg ps :
  Parser.open_page readFile filePath = Ok (Some (v, s, pg, ps)) →
  Parser.matchPath filePath = Some (v, s, pg) ∧ paragraphs readFile filePath = ps.
Proof.
  intros Hopen. unfold paragraphs. rewrite Hopen. split; [|done].
  unfold Parser.open_page in Hopen.
  destruct (readFile filePath) as [|jsonData]; [done|].
  destruct (Parser.data jsonData) as [[|first rest]|]; [done| |done].
  destruct (Parser.paragList first) as [ps'|]; [|done].
  destruct (Parser.matchPath filePath) as [[[v' s'] pg']|]; [|done].
  by injection Hopen as -> -> -> ->.
Qed.

(** What every step on a quotation element of a page of the traversal
    preserves, the primary pass preserves. *)
Lemma primary_pass_invariant_on (Q : string → Prop)
    (P : gmap string Parser.Hadith → Prop) :
  (∀ filePath v s pg t m h m',
     Q filePath → Parser.matchPath filePath = Some (v, s, pg) →
     P m → Parser.hadith_step filePath v s pg t m h = Ok m' → P m') →
  ∀ readFile sorted st st',
    Forall Q sorted → P (Parser.hadithsById st) →
    Parser.primary_pass readFile st sorted = Ok st' →
    P (Parser.hadithsById st').
Proof.
  intros Hstep readFile sorted.
  assert (∀ filePath v s pg t hs m m',
            Q filePath → Parser.matchPath filePath = Some (v, s, pg) →
            P m → Parser.each_hadith filePath v s pg t m hs = Ok m' → P m') as Heach.
  { intros filePath v s pg t hs. induction hs as [|h hs IH]; intros m m' HQ Hmatch Hm; simpl.
    - by intros [= <-].
    - exc_bind. destruct (Parser.hadith_step _ _ _ _ _ _ _) as [m1|] eqn:Hs; [|done].
      apply IH; [done..|]. by eapply Hstep. }
  assert (∀ filePath v s pg ps st st',
            Q filePath → Parser.matchPath filePath = Some (v, s, pg) →
            P (Parser.hadithsById st) →
            Parser.for_parags filePath v s pg st ps = Ok st' →
            P (Parser.hadithsById st')) as Hparags.
  { intros filePath v s pg ps.
    induction ps as [|parag ps IH]; intros st st' HQ Hmatch Hst; simpl.
    - by intros [= <-].
    - exc_bind. unfold Parser.parag_step. exc_bind.
      destruct (Parser.each_hadith _ _ _ _ _ _ _) as [m1|] eqn:He; [|done].
      simpl. apply IH; [done..|]. simpl. by eapply Heach. }
  induction sorted as [|filePath rest IH]; intros st st' Hall Hst; simpl.
  - by intros [= <-].
  - apply Forall_cons in Hall as [HQ Hall].
    exc_bind. unfold Parser.primary_page. exc_bind.
    destruct (Parser.open_page readFile filePath) as [[[[[v s] pg] ps]|]|] eqn:Hopen;
      [| |done].
    + apply open_page_Some in Hopen as [Hmatch _].
      destruct (Parser.for_parags _ _ _ _ _ _) as [st1|] eqn:Hf; [|done].
      apply IH; [done|]. by eapply Hparags.
    + by apply IH.
Qed.

(** The same for the fallback pass. *)
Lemma fallback_pass_invariant_on (Q : string → Prop)
    (P : gmap string Parser.Hadith → Prop) :
  (∀ filePath v s pg title m parag,
     Q filePath → Parser.matchPath filePath = Some (v, s, pg) →
     P m → P (Parser.fallback_step v s pg title m parag)) →
  ∀ readFile title sorted m m',
    Forall Q sorted → P m →
    Parser.fallback_pass readFile title m sorted = Ok m' → P m'.
Proof.
  intros Hstep readFile title sorted.
  induction sorted as [|filePath rest IH]; intros m m' Hall Hm; simpl.
  - by intros [= <-].
  - apply Forall_cons in Hall as [HQ Hall].
    exc_bind. unfold Parser.fallback_page. exc_bind.
    destruct (Parser.open_page readFile filePath) as [[[[[v s] pg] ps]|]|] eqn:Hopen;
      [| |done].
    + apply open_page_Some in Hopen as [Hmatch _].
      apply IH; [done|]. clear IH.
      revert m Hm. induction ps as [|parag ps IHps]; intros m Hm; [done|].
      simpl. apply IHps. by eapply Hstep.
    + by apply IH.
Qed.

(** What both kinds of steps preserve holds of the records of a run. *)
Lemma main_invariant (P : gmap string Parser.Hadith → Prop) readFile filePaths run :
  P ∅ →
  (∀ filePath v s pg t m h m',
     filePath ∈ Parser.sortedPaths filePaths →
     Parser.matchPath filePath = Some (v, s, pg) →
     P m → Parser.hadith_step filePath v s pg t m h = Ok m' → P m') →
  (∀ filePath v s pg title m parag,
     filePath ∈ Parser.sortedPaths filePaths →
     Parser.matchPath filePath = Some (v, s, pg) →
     P m → P (Parser.fallback_step v s pg title m parag)) →
  Parser.main readFile filePaths = Ok run →
  P (Parser.extracted run).
Proof.
  intros Hempty Hprimary Hfallback. unfold Parser.main. cbv zeta. exc_bind.
  assert (Forall (λ p, p ∈ Parser.sortedPaths filePaths) (Parser.sortedPaths filePaths))
    as Hall by (by apply Forall_forall).
  destruct (Parser.primary_pass _ _ _) as [st|] eqn:Hpass; [|done].
  pose proof (primary_pass_invariant_on _ P Hprimary readFile _ Parser.initial st
                Hall Hempty Hpass) as Hst.
  destruct (bool_decide _).
  - destruct (Parser.fallback_pass _ _ _ _) as [m|] eqn:Hfb; [|done].
    intros [= <-]. simpl.
    by apply (fallback_pass_invariant_on _ P Hfallback _ _ _ _ _ Hall Hst Hfb).
  - by intros [= <-].
Qed.

End Invariants.

Lemma append_new_elem {A} `{EqDecision A} (l : list A) x y :
  y ∈ append_new l x ↔ y ∈ l ∨ y = x.
Proof.
  unfold append_new. case_decide as Hx.
  - split; [by left|]. intros [?| ->]; done.
  - rewrite elem_of_app, list_elem_of_singleton. done.
Qed.

Lemma append_new_head {A} `{EqDecision A} (l : list A) x y :
  head l = Some y → head (append_new l x) = Some y.
Proof. unfold append_new. case_decide; [done|]. by destruct l. Qed.

Lemma hadith_step_keeps_well_formed filePath v s pg t m h m' :
  well_formed m → Parser.hadith_step filePath v s pg t m h = Ok m' → well_formed m'.
Proof.
  intros Hm. unfold Parser.hadith_step.
  destruct (m !! Parser.identity filePath h) as [r0|] eqn:Hr0.
  - intros [= <-] k r.
    destruct (decide (k = Parser.identity filePath h)) as [->|Hne];
      [|rewrite lookup_insert_ne by done; apply Hm].
    rewrite lookup_insert_eq. intros [= <-].
    destruct (Hm _ _ Hr0) as (Hid & Hproto & Hne & Hpages & Hparts).
    rewrite merge_pages_eq, merge_parts_eq.
    split; [done|]. split; [done|]. split; [|split].
    + destruct (Parser.pages r0) as [|pg0 l] eqn:Hl; [done|].
      intros Hnil. assert (pg0 ∈ append_new (pg0 :: l) pg) as Hin.
      { apply append_new_elem. left. left. }
      rewrite Hnil in Hin. by apply elem_of_nil in Hin.
    + by apply append_new_nodup.
    + unfold append_text. case_decide; [done|]. by apply append_new_nodup.
  - destruct (proto_key _) eqn:Hproto; [done|]. intros [= <-] k r.
    destruct (decide (k = Parser.identity filePath h)) as [->|Hne];
      [|rewrite lookup_insert_ne by done; apply Hm].
    rewrite lookup_insert_eq. intros [= <-]. simpl.
    split; [done|]. split; [done|]. split; [done|].
    split; [apply NoDup_singleton|].
    destruct (truthy _); [apply NoDup_singleton|apply NoDup_nil_2].
Qed.

Lemma fallback_step_keeps_well_formed {C : Parser.Cheerio} {T : StringTrim}
    v s pg title m parag :
  well_formed m → well_formed (Parser.fallback_step v s pg title m parag).
Proof.
  intros Hm. unfold Parser.fallback_step.
  destruct (Parser.fallback_pattern _) as [[g c]|]; [|done].
  destruct (m !! ("fallback_" +:+ Parser.paragraphId parag)); [done|].
  destruct (proto_key _) eqn:Hproto; [done|]. intros k r.
  destruct (decide (k = "fallback_" +:+ Parser.paragraphId parag)) as [->|Hne];
    [|rewrite lookup_insert_ne by done; apply Hm].
  rewrite lookup_insert_eq. intros [= <-]. simpl.
  split; [done|]. split; [done|]. split; [done|].
  split; apply NoDup_singleton.
Qed.

Lemma main_written {C : Parser.Cheerio} {T : StringTrim} readFile filePaths run :
  Parser.main readFile filePaths = Ok run →
  Parser.written run = Parser.finalize <$> Parser.extracted run.
Proof.
  unfold Parser.main. cbv zeta. exc_bind.
  destruct (Parser.primary_pass _ _ _) as [st|]; [|done].
  destruct (bool_decide _).
  - destruct (Parser.fallback_pass _ _ _ _) as [m|]; [|done]. by intros [= <-].
  - by intros [= <-].
Qed.

(** Whichever pass made them, the records written by a run are keyed by
    their own identity, so that no identity occurs twice in the output;
    each has at least one page and no page twice; and no identity is a name
    inherited from Object.prototype. *)
Theorem output_well_formed {C : Parser.Cheerio} {T : StringTrim}
    (readFile : string → Parser.FileContent) (filePaths : list string)
    (run : Parser.Run) (k : string) (o : Parser.Output) :
  Parser.main readFile filePaths = Ok run →
  Parser.written run !! k = Some o →
  Parser.out_id o = k ∧ proto_key k = false ∧
  Parser.out_pages o ≠ [] ∧ NoDup (Parser.out_pages o).
Proof.
  intros Hmain. rewrite (main_written _ _ _ Hmain), lookup_fmap.
  destruct (Parser.extracted run !! k) as [r|] eqn:Hr; [|done].
  intros [= <-]. simpl.
  assert (well_formed (Parser.extracted run)) as Hwf.
  { apply (main_invariant well_formed readFile filePaths run); [| | |done].
    - intros k' r'. by rewrite lookup_empty.
    - intros filePath v s pg t m h m' _ _. apply hadith_step_keeps_well_formed.
    - intros filePath v s pg title m parag _ _.
      apply fallback_step_keeps_well_formed. }
  destruct (Hwf _ _ Hr) as (? & ? & ? & ? & _). done.
Qed.

Lemma output_well_formed_witness :
  Parser.out_id (Parser.finalize (T := Demo.trim_instance)
                   (Demo.plain_record 3 "fallback_1" "Knowledge A" "x"))
    = "fallback_1"%string
  ∧ proto_key "fallback_1" = false
  ∧ Parser.out_pages (Parser.finalize (T := Demo.trim_instance)
                        (Demo.plain_record 3 "fallback_1" "Knowledge A" "x")) ≠ []
  ∧ NoDup (Parser.out_pages (Parser.finalize (T := Demo.trim_instance)
                               (Demo.plain_record 3 "fallback_1" "Knowledge A" "x"))).
Proof.
  apply (output_well_formed (C := Demo.plain_cheerio) (T := Demo.trim_instance)
           Demo.plain_files [Demo.page7; Demo.page3] Demo.plain_run_result).
  - vm_compute. reflexivity.
  - vm_compute. reflexivity.
Defined.

Lemma hadith_step_keeps_from_pages sorted filePath v s pg t m h m' :
  filePath ∈ sorted → Parser.matchPath filePath = Some (v, s, pg) →
  from_pages sorted m → Parser.hadith_step filePath v s pg t m h = Ok m' →
  from_pages sorted m'.
Proof.
  intros Hin Hmatch Hm. unfold Parser.hadith_step.
  destruct (m !! Parser.identity filePath h) as [r0|] eqn:Hr0.
  - intros [= <-] k r.
    destruct (decide (k = Parser.identity filePath h)) as [->|Hne];
      [|rewrite lookup_insert_ne by done; apply Hm].
    rewrite lookup_insert_eq. intros [= <-].
    destruct (Hm _ _ Hr0) as [(fp0 & pg0 & Hfp0 & Hm0 & Hhead) Hpages].
    rewrite merge_pages_eq. split.
    + exists fp0, pg0. split; [done|]. split; [done|]. by apply append_new_head.
    + intros pg' [Hpg'| ->]%append_new_elem; [by apply Hpages|].
      by exists filePath, v, s.
  - destruct (proto_key _); [done|]. intros [= <-] k r.
    destruct (decide (k = Parser.identity filePath h)) as [->|Hne];
      [|rewrite lookup_insert_ne by done; apply Hm].
    rewrite lookup_insert_eq. intros [= <-]. simpl. split.
    + by exists filePath, pg.
    + intros pg' ->%list_elem_of_singleton. by exists filePath, v, s.
Qed.

Lemma fallback_step_keeps_from_pages {C : Parser.Cheerio} {T : StringTrim}
    sorted filePath v s pg title m parag :
  filePath ∈ sorted → Parser.matchPath filePath = Some (v, s, pg) →
  from_pages sorted m → from_pages sorted (Parser.fallback_step v s pg title m parag).
Proof.
  intros Hin Hmatch Hm. unfold Parser.fallback_step.
  destruct (Parser.fallback_pattern _) as [[g c]|]; [|done].
  destruct (m !! ("fallback_" +:+ Parser.paragraphId parag)); [done|].
  destruct (proto_key _); [done|]. intros k r.
  destruct (decide (k = "fallback_" +:+ Parser.paragraphId parag)) as [->|Hne];
    [|rewrite lookup_insert_ne by done; apply Hm].
  rewrite lookup_insert_eq. intros [= <-]. simpl. split.
  - by exists filePath, pg.
  - intros pg' ->%list_elem_of_singleton. by exists filePath, v, s.
Qed.

(** The volume and the section of every record of a run are those of a page
    file that was processed, the one that gave the record its first page;
    and every page of the record is the page number of a processed file (of
    any volume and section: a later occurrence adds its page number only).
    The numbers are those the pattern and [Number] read from the path. *)
Theorem records_from_processed_pages {C : Parser.Cheerio} {T : StringTrim}
    (readFile : string → Parser.FileContent) (filePaths : list string)
    (run : Parser.Run) (k : string) (r : Parser.Hadith) :
  Parser.main readFile filePaths = Ok run →
  Parser.extracted run !! k = Some r →
  (∃ filePath pg, filePath ∈ filePaths ∧
     Parser.matchPath filePath = Some (Parser.vol r, Parser.sec r, pg) ∧
     head (Parser.pages r) = Some pg) ∧
  (∀ pg, pg ∈ Parser.pages r →
     ∃ filePath v s, filePath ∈ filePaths ∧ Parser.matchPath filePath = Some (v, s, pg)).
Proof.
  intros Hmain Hr.
  assert (from_pages (Parser.sortedPaths filePaths) (Parser.extracted run)) as Hfrom.
  { apply (main_invariant _ readFile filePaths run); [| | |done].
    - intros k' r'. by rewrite lookup_empty.
    - intros filePath v s pg t m h m'. apply hadith_step_keeps_from_pages.
    - intros filePath v s pg title m parag. apply fallback_step_keeps_from_pages. }
  destruct (Hfrom _ _ Hr) as [(fp & pg & Hfp & Hm & Hhead) Hpages]. split.
  - exists fp, pg. apply sortedPaths_elem in Hfp as [Hfp _]. done.
  - intros pg' Hpg'. destruct (Hpages _ Hpg') as (fp' & v & s & Hfp' & Hm').
    exists fp', v, s. apply sortedPaths_elem in Hfp' as [Hfp' _]. done.
Qed.

Lemma records_from_processed_pages_witness :
  (∃ filePath pg, filePath ∈ [Demo.page7; Demo.page3] ∧
     Parser.matchPath filePath = Some (1, 1, pg)%N ∧
     head [3; 7]%N = Some pg) ∧
  (∀ pg, pg ∈ [3; 7]%N →
     ∃ filePath v s, filePath ∈ [Demo.page7; Demo.page3] ∧
                     Parser.matchPath filePath = Some (v, s, pg)).
Proof.
  apply (records_from_processed_pages (C := Demo.merge_cheerio)
           (T := Demo.trim_instance) Demo.merge_files [Demo.page7; Demo.page3]
           {| Parser.log := [Parser.LogStarting; Parser.LogFound 2;
                             Parser.LogSaved 1; Parser.LogComplete];
              Parser.extracted := Parser.hadithsById Demo.after_page7;
              Parser.written :=
                Parser.finalize (T := Demo.trim_instance)
                  <$> Parser.hadithsById Demo.after_page7 |}
           "12" (Demo.record12 [3; 7]%N ["first text"; "second text"]%string)).
  - vm_compute. reflexivity.
  - vm_compute. reflexivity.
Defined.

(** ** Identities that are names of Object.prototype *)

Section Inherited.
Context {C : Parser.Cheerio}.

Lemma hadith_step_no_inherited filePath v s pg t m h m' :
  no_inherited m → Parser.hadith_step filePath v s pg t m h = Ok m' →
  no_inherited m' ∧ proto_key (Parser.identity filePath h) = false.
Proof.
  intros Hm. unfold Parser.hadith_step.
  destruct (m !! Parser.identity filePath h) as [r0|] eqn:Hr0.
  - intros [= <-]. assert (proto_key (Parser.identity filePath h) = false) as Hp.
    { apply Hm. by rewrite Hr0. }
    split; [|done]. intros k.
    destruct (decide (k = Parser.identity filePath h)) as [->|Hne]; [done|].
    rewrite lookup_insert_ne by done. apply Hm.
  - destruct (proto_key _) eqn:Hp; [done|]. intros [= <-]. split; [|done].
    intros k. destruct (decide (k = Parser.identity filePath h)) as [->|Hne]; [done|].
    rewrite lookup_insert_ne by done. apply Hm.
Qed.

Lemma each_hadith_no_inherited filePath v s pg t hs m m' :
  no_inherited m → Parser.each_hadith filePath v s pg t m hs = Ok m' →
  no_inherited m' ∧ ∀ h, h ∈ hs → proto_key (Parser.identity filePath h) = false.
Proof.
  revert m. induction hs as [|h hs IH]; intros m Hm; simpl.
  - intros [= <-]. split; [done|]. by intros h ?%elem_of_nil.
  - exc_bind. destruct (Parser.hadith_step _ _ _ _ _ _ _) as [m1|] eqn:Hs; [|done].
    intros Hrest.
    destruct (hadith_step_no_inherited _ _ _ _ _ _ _ _ Hm Hs) as [Hm1 Hh].
    destruct (IH _ Hm1 Hrest) as [Hm' Hhs]. split; [done|].
    intros h' [->|Hin]%elem_of_cons; [done|by apply Hhs].
Qed.

Lemma for_parags_no_inherited filePath v s pg ps st st' :
  no_inherited (Parser.hadithsById st) →
  Parser.for_parags filePath v s pg st ps = Ok st' →
  no_inherited (Parser.hadithsById st') ∧
  ∀ parag h, parag ∈ ps → h ∈ Parser.hadith_elements (Parser.text parag) →
             proto_key (Parser.identity filePath h) = false.
Proof.
  revert st. induction ps as [|parag ps IH]; intros st Hst; simpl.
  - intros [= <-]. split; [done|]. by intros parag h ?%elem_of_nil.
  - exc_bind. unfold Parser.parag_step. exc_bind.
    destruct (Parser.each_hadith _ _ _ _ _ _ _) as [m1|] eqn:He; [|done]. simpl.
    intros Hrest.
    destruct (each_hadith_no_inherited _ _ _ _ _ _ _ _ Hst He) as [Hm1 Hhs].
    apply IH in Hrest as [Hst' Hps]; [|exact Hm1]. split; [done|].
    intros parag' h [->|Hin]%elem_of_cons Hh; [by apply Hhs|by eapply Hps].
Qed.

Lemma primary_pass_no_inherited readFile sorted st st' :
  no_inherited (Parser.hadithsById st) →
  Parser.primary_pass readFile st sorted = Ok st' →
  ∀ filePath parag h,
    filePath ∈ sorted → parag ∈ paragraphs readFile filePath →
    h ∈ Parser.hadith_elements (Parser.text parag) →
    proto_key (Parser.identity filePath h) = false.
Proof.
  revert st. induction sorted as [|fp rest IH]; intros st Hst; simpl.
  - intros _ filePath parag h ?%elem_of_nil. done.
  - exc_bind. unfold Parser.primary_page. exc_bind.
    destruct (Parser.open_page readFile fp) as [[[[[v s] pg] ps]|]|] eqn:Hopen;
      [| |done].
    + destruct (Parser.for_parags _ _ _ _ _ _) as [st1|] eqn:Hf; [|done].
      intros Hrest filePath parag h [->|Hin]%elem_of_cons Hparag Hh.
      * unfold paragraphs in Hparag. rewrite Hopen in Hparag.
        destruct (for_parags_no_inherited _ _ _ _ _ _ _ Hst Hf) as [_ Hps].
        by eapply Hps.
      * destruct (for_parags_no_inherited _ _ _ _ _ _ _ Hst Hf) as [Hst1 _].
        by eapply (IH st1).
    + intros Hrest filePath parag h [->|Hin]%elem_of_cons Hparag Hh.
      * unfold paragraphs in Hparag. rewrite Hopen in Hparag.
        by apply elem_of_nil in Hparag.
      * by eapply (IH st).
Qed.

End Inherited.

(** A quotation element whose identity is a name that every object inherits
    (constructor, toString, __proto__, ...) ends the run: the lookup of line
    90 finds the inherited value, line 98 reads [pages] of it and throws.
    So when any visited fragment holds such an element, main fails and
    writes nothing. *)
Theorem inherited_identity_is_fatal {C : Parser.Cheerio} {T : StringTrim}
    (readFile : string → Parser.FileContent) (filePaths : list string)
    (filePath : string) (parag : Parser.Parag) (h : Parser.HadithElement) :
  filePath ∈ Parser.sortedPaths filePaths →
  parag ∈ paragraphs readFile filePath →
  h ∈ Parser.hadith_elements (Parser.text parag) →
  proto_key (Parser.identity filePath h) = true →
  ∃ e, Parser.main readFile filePaths = Throw e.
Proof.
  intros Hpath Hparag Hh Hproto. unfold Parser.main. cbv zeta. exc_bind.
  destruct (Parser.primary_pass _ _ _) as [st|e] eqn:Hpass; [|by exists e].
  assert (proto_key (Parser.identity filePath h) = false) as Hfalse.
  { eapply (primary_pass_no_inherited readFile _ Parser.initial st); [|done..].
    intros k. simpl. rewrite lookup_empty. by intros [? ?]. }
  congruence.
Qed.

Lemma inherited_identity_is_fatal_witness :
  ∃ e, Parser.main (C := Demo.named_cheerio) (T := Demo.trim_instance)
         Demo.named_files [Demo.page3; Demo.page7] = Throw e.
Proof.
  apply (inherited_identity_is_fatal (C := Demo.named_cheerio)
           (T := Demo.trim_instance) Demo.named_files [Demo.page3; Demo.page7]
           Demo.page7 Demo.named_parag
           (Demo.element (Some "constructor"%string) (Some "b"%string) "text")).
  - assert (Parser.sortedPaths [Demo.page3; Demo.page7] = [Demo.page3; Demo.page7])
      as Hsorted by (vm_compute; reflexivity).
    rewrite Hsorted. right. left.
  - assert (paragraphs Demo.named_files Demo.page7 = [Demo.named_parag])
      as Hps by (vm_compute; reflexivity).
    rewrite Hps. left.
  - assert (Parser.hadith_elements (Cheerio := Demo.named_cheerio)
              (Parser.text Demo.named_parag)
            = [Demo.element (Some "constructor"%string) (Some "b"%string) "text"])
      as Hhs by (vm_compute; reflexivity).
    rewrite Hhs. left.
  - vm_compute. reflexivity.
Defined.

Example inherited_identity_run :
  Parser.main (C := Demo.named_cheerio) (T := Demo.trim_instance)
    Demo.named_files [Demo.page3; Demo.page7] = Throw TypeError.
Proof. vm_compute. reflexivity. Qed.

(** ** The current title *)

Section CurrentTitle.
Context {C : Parser.Cheerio}.

Lemma for_parags_last_heading filePath v s pg ps st st' :
  Parser.for_parags filePath v s pg st ps = Ok st' →
  Parser.currentTitle st' = last_heading ps (Parser.currentTitle st).
Proof.
  revert st. induction ps as [|parag ps IH]; intros st; simpl.
  - by intros [= <-].
  - exc_bind. destruct (Parser.parag_step _ _ _ _ _ _) as [st1|] eqn:Hs; [|done].
    intros Hrest. rewrite (IH _ Hrest). unfold last_heading. simpl.
    by rewrite (parag_step_title _ _ _ _ _ _ _ Hs).
Qed.

Lemma primary_page_last_heading readFile st filePath st' :
  Parser.primary_page readFile st filePath = Ok st' →
  Parser.currentTitle st'
  = last_heading (paragraphs readFile filePath) (Parser.currentTitle st).
Proof.
  unfold Parser.primary_page, paragraphs. exc_bind.
  destruct (Parser.open_page readFile filePath) as [[[[[v s] pg] ps]|]|]; [| |done].
  - apply for_parags_last_heading.
  - by intros [= <-].
Qed.

Lemma last_heading_id_or_const ps : id_or_const (last_heading ps).
Proof.
  unfold last_heading. induction ps as [|parag ps IH] using rev_ind.
  - by left.
  - destruct (truthy (Parser.heading_text (Parser.text parag))) eqn:Hh.
    + right. exists (Parser.heading_text (Parser.text parag)). intros t.
      by rewrite fold_left_app; simpl; rewrite Hh.
    + destruct IH as [Hid|[c Hc]].
      * left. intros t. rewrite fold_left_app. simpl. by rewrite Hh.
      * right. exists c. intros t. rewrite fold_left_app. simpl. by rewrite Hh.
Qed.

Lemma title_after_id_or_const readFile sorted :
  id_or_const (title_after readFile sorted).
Proof.
  unfold title_after. induction sorted as [|filePath sorted IH] using rev_ind.
  - by left.
  - destruct (last_heading_id_or_const (paragraphs readFile filePath)) as [Hid|[c Hc]].
    + destruct IH as [Hid'|[c' Hc']].
      * left. intros t. rewrite fold_left_app. simpl. by rewrite Hid, Hid'.
      * right. exists c'. intros t. rewrite fold_left_app. simpl. by rewrite Hid, Hc'.
    + right. exists c. intros t. rewrite fold_left_app. simpl. by rewrite Hc.
Qed.

Lemma title_after_twice readFile sorted t :
  title_after readFile sorted (title_after readFile sorted t)
  = title_after readFile sorted t.
Proof.
  destruct (title_after_id_or_const readFile sorted) as [Hid|[c Hc]].
  - by rewrite !Hid.
  - by rewrite !Hc.
Qed.

Lemma primary_pass_title_after readFile sorted st st' :
  Parser.primary_pass readFile st sorted = Ok st' →
  Parser.currentTitle st' = title_after readFile sorted (Parser.currentTitle st).
Proof.
  revert st. induction sorted as [|filePath rest IH]; intros st; simpl.
  - by intros [= <-].
  - exc_bind. destruct (Parser.primary_page _ _ _) as [st1|] eqn:Hp; [|done].
    intros Hrest. rewrite (IH _ Hrest). unfold title_after. simpl.
    by rewrite (primary_page_last_heading _ _ _ _ Hp).
Qed.

End CurrentTitle.

(** At the end of the primary pass the current title is the last heading
    that is not empty among the fragments of the pages visited, in the
    order of the traversal and across pages; it is the title the pass
    started with when there is none.  Pages that are skipped and the
    quotation elements have no part in it. *)
Theorem current_title_is_last_heading {C : Parser.Cheerio}
    (readFile : string → Parser.FileContent) (sorted : list string)
    (st st' : Parser.State) :
  Parser.primary_pass readFile st sorted = Ok st' →
  Parser.currentTitle st' = title_after readFile sorted (Parser.currentTitle st).
Proof. apply primary_pass_title_after. Qed.

Lemma current_title_is_last_heading_witness :
  Parser.currentTitle Demo.after_page7
  = title_after (C := Demo.merge_cheerio) Demo.merge_files
      [Demo.page3; Demo.page7] (Parser.currentTitle Parser.initial).
Proof.
  apply (current_title_is_last_heading (C := Demo.merge_cheerio) Demo.merge_files
           [Demo.page3; Demo.page7] Parser.initial Demo.after_page7).
  vm_compute. reflexivity.
Defined.

(** ** Processing the same pages again *)

Lemma merge_absorbed r pg content :
  pg ∈ Parser.pages r →
  content = EmptyString ∨ content ∈ Parser.parts r →
  Parser.merge r pg content = r.
Proof.
  intros Hpg Hcontent. destruct r as [v s pages i t g sn parts].
  unfold Parser.merge. simpl in *. f_equal.
  - by rewrite bool_decide_eq_true_2.
  - destruct Hcontent as [->|Hin]; [done|].
    rewrite (bool_decide_eq_true_2 _ Hin). simpl. by rewrite andb_false_r.
Qed.

Lemma absorbed_noop filePath v s pg t m h :
  absorbed m filePath pg h → Parser.hadith_step filePath v s pg t m h = Ok m.
Proof.
  intros (r & Hr & Hpg & Hcontent).
  rewrite (hadith_step_merge _ _ _ _ _ _ _ _ Hr), merge_absorbed by done.
  by rewrite insert_id.
Qed.

Lemma absorbed_step filePath v s pg t m h m' :
  Parser.hadith_step filePath v s pg t m h = Ok m' → absorbed m' filePath pg h.
Proof.
  unfold Parser.hadith_step.
  destruct (m !! Parser.identity filePath h) as [r0|] eqn:Hr0.
  - intros [= <-]. eexists. split; [apply lookup_insert_eq|].
    rewrite merge_pages_eq, merge_parts_eq. split.
    + apply append_new_elem. by right.
    + unfold append_text. case_decide; [by left|]. right.
      apply append_new_elem. by right.
  - destruct (proto_key _); [done|]. intros [= <-].
    eexists. split; [apply lookup_insert_eq|]. simpl. split; [left|].
    destruct (truthy (Parser.hadithContent h)) eqn:Ht.
    + right. left.
    + left. destruct (decide (Parser.hadithContent h = EmptyString)) as [?|Hne]; [done|].
      apply truthy_spec in Hne. congruence.
Qed.

Lemma absorbed_kept m m' filePath pg h :
  kept m m' → absorbed m filePath pg h → absorbed m' filePath pg h.
Proof.
  intros Hkept (r & Hr & Hpg & Hcontent).
  destruct (Hkept _ _ Hr) as (r' & Hr' & _ & [kp Hpages] & [kt Hparts]).
  exists r'. split; [done|]. rewrite Hpages, Hparts. split.
  - apply elem_of_app. by left.
  - destruct Hcontent as [?|?]; [by left|]. right. apply elem_of_app. by left.
Qed.

Section Again.
Context {C : Parser.Cheerio}.

Lemma each_hadith_absorbs filePath v s pg t hs m m' :
  Parser.each_hadith filePath v s pg t m hs = Ok m' →
  ∀ h, h ∈ hs → absorbed m' filePath pg h.
Proof.
  revert m. induction hs as [|h hs IH]; intros m; simpl.
  - intros _ h ?%elem_of_nil. done.
  - exc_bind. destruct (Parser.hadith_step _ _ _ _ _ _ _) as [m1|] eqn:Hs; [|done].
    intros Hrest h' [->|Hin]%elem_of_cons; [|by eapply IH].
    eapply absorbed_kept; [by eapply each_hadith_kept|by eapply absorbed_step].
Qed.

Lemma each_hadith_noop filePath v s pg t hs m :
  (∀ h, h ∈ hs → absorbed m filePath pg h) →
  Parser.each_hadith filePath v s pg t m hs = Ok m.
Proof.
  induction hs as [|h hs IH]; intros Hall; simpl; [done|].
  rewrite absorbed_noop by (apply Hall; left). exc_bind.
  apply IH. intros h' Hh'. apply Hall. by right.
Qed.

Lemma for_parags_absorbs filePath v s pg ps st st' :
  Parser.for_parags filePath v s pg st ps = Ok st' →
  ∀ parag h, parag ∈ ps → h ∈ Parser.hadith_elements (Parser.text parag) →
             absorbed (Parser.hadithsById st') filePath pg h.
Proof.
  revert st. induction ps as [|parag ps IH]; intros st; simpl.
  - intros _ parag h ?%elem_of_nil. done.
  - exc_bind. destruct (Parser.parag_step _ _ _ _ _ _) as [st1|] eqn:Hs; [|done].
    intros Hrest parag' h [->|Hin]%elem_of_cons Hh; [|by eapply IH].
    eapply absorbed_kept; [by eapply for_parags_kept|].
    unfold Parser.parag_step in Hs. revert Hs. exc_bind.
    destruct (Parser.each_hadith _ _ _ _ _ _ _) as [m1|] eqn:He; [|done].
    intros [= <-]. simpl. by eapply each_hadith_absorbs.
Qed.

Lemma for_parags_noop filePath v s pg ps m t :
  (∀ parag h, parag ∈ ps → h ∈ Parser.hadith_elements (Parser.text parag) →
              absorbed m filePath pg h) →
  Parser.for_parags filePath v s pg
    {| Parser.hadithsById := m; Parser.currentTitle := t |} ps
  = Ok {| Parser.hadithsById := m; Parser.currentTitle := last_heading ps t |}.
Proof.
  revert t. induction ps as [|parag ps IH]; intros t Hall; simpl; [done|].
  unfold Parser.parag_step. simpl.
  rewrite each_hadith_noop by (intros h Hh; eapply Hall; [left|done]).
  exc_bind. rewrite IH; [done|]. intros parag' h Hin. apply Hall. by right.
Qed.

Lemma primary_pass_absorbs readFile sorted st st' :
  Parser.primary_pass readFile st sorted = Ok st' →
  ∀ filePath, filePath ∈ sorted →
    match Parser.open_page readFile filePath with
    | Ok (Some (v, s, pg, ps)) =>
        ∀ parag h, parag ∈ ps → h ∈ Parser.hadith_elements (Parser.text parag) →
                   absorbed (Parser.hadithsById st') filePath pg h
    | Ok None => True
    | Throw _ => False
    end.
Proof.
  revert st. induction sorted as [|fp rest IH]; intros st; simpl.
  - intros _ filePath ?%elem_of_nil. done.
  - exc_bind. destruct (Parser.primary_page _ _ _) as [st1|] eqn:Hp; [|done].
    intros Hrest filePath [->|Hin]%elem_of_cons; [|by eapply IH].
    unfold Parser.primary_page in Hp. revert Hp. exc_bind.
    destruct (Parser.open_page readFile fp) as [[[[[v s] pg] ps]|]|]; [|done|done].
    intros Hf parag h Hparag Hh.
    eapply absorbed_kept; [by eapply primary_pass_kept|].
    by eapply for_parags_absorbs.
Qed.

Lemma primary_pass_noop readFile sorted m t :
  (∀ filePath, filePath ∈ sorted →
     match Parser.open_page readFile filePath with
     | Ok (Some (v, s, pg, ps)) =>
         ∀ parag h, parag ∈ ps → h ∈ Parser.hadith_elements (Parser.text parag) →
                    absorbed m filePath pg h
     | Ok None => True
     | Throw _ => False
     end) →
  Parser.primary_pass readFile
    {| Parser.hadithsById := m; Parser.currentTitle := t |} sorted
  = Ok {| Parser.hadithsById := m;
          Parser.currentTitle := title_after readFile sorted t |}.
Proof.
  revert t. induction sorted as [|fp rest IH]; intros t Hall; simpl; [done|].
  pose proof (Hall fp) as Hfp. unfold Parser.primary_page, title_after, paragraphs.
  simpl. unfold paragraphs.
  destruct (Parser.open_page readFile fp) as [[[[[v s] pg] ps]|]|]; exc_bind.
  - rewrite for_parags_noop by (apply Hfp; left). exc_bind.
    apply IH. intros filePath Hin. apply Hall. by right.
  - apply IH. intros filePath Hin. apply Hall. by right.
  - destruct Hfp. left.
Qed.

End Again.

(** Processing the same pages a second time changes nothing: after a
    primary pass that ended without exception, a pass over the same pages
    from the state reached ends in that same state.  Every page is already
    in its records, every text too, and no record is created. *)
Theorem second_pass_changes_nothing {C : Parser.Cheerio}
    (readFile : string → Parser.FileContent) (sorted : list string)
    (st st' : Parser.State) :
  Parser.primary_pass readFile st sorted = Ok st' →
  Parser.primary_pass readFile st' sorted = Ok st'.
Proof.
  intros Hpass.
  pose proof (primary_pass_absorbs _ _ _ _ Hpass) as Habsorbed.
  pose proof (primary_pass_title_after _ _ _ _ Hpass) as Htitle.
  destruct st' as [m' t']. simpl in *.
  rewrite primary_pass_noop by done.
  by rewrite Htitle, title_after_twice.
Qed.

Lemma second_pass_changes_nothing_witness :
  Parser.primary_pass (C := Demo.merge_cheerio) Demo.merge_files Demo.after_page7
    [Demo.page3; Demo.page7] = Ok Demo.after_page7.
Proof.
  apply (second_pass_changes_nothing (C := Demo.merge_cheerio) Demo.merge_files
           [Demo.page3; Demo.page7] Parser.initial Demo.after_page7).
  vm_compute. reflexivity.
Defined.

(** ** The order of two occurrences *)

Lemma append_new_in {A} `{EqDecision A} (l : list A) x :
  x ∈ l → append_new l x = l.
Proof. intros Hx. unfold append_new. by rewrite decide_True. Qed.

Lemma append_new_notin {A} `{EqDecision A} (l : list A) x :
  x ∉ l → append_new l x = l ++ [x].
Proof. intros Hx. unfold append_new. by rewrite decide_False. Qed.

Lemma append_new_comm {A} `{EqDecision A} (l : list A) a b :
  append_new (append_new l a) b ≡ₚ append_new (append_new l b) a.
Proof.
  destruct (decide (a = b)) as [->|Hab]; [done|].
  destruct (decide (a ∈ l)) as [Ha|Ha]; destruct (decide (b ∈ l)) as [Hb|Hb].
  - by rewrite (append_new_in l a), (append_new_in l b), (append_new_in l a).
  - rewrite (append_new_in l a), (append_new_notin l b) by done.
    rewrite append_new_in; [done|]. apply elem_of_app. by left.
  - rewrite (append_new_in l b), (append_new_notin l a) by done.
    rewrite append_new_in; [done|]. apply elem_of_app. by left.
  - rewrite (append_new_notin l a), (append_new_notin l b) by done.
    rewrite !append_new_notin.
    + rewrite <-!app_assoc. apply Permutation_app_head, Permutation_swap.
    + intros [?|Hin%list_elem_of_singleton]%elem_of_app; done.
    + intros [?|Hin%list_elem_of_singleton]%elem_of_app; [done|]. by subst.
Qed.

Lemma append_text_comm l a b :
  append_text (append_text l a) b ≡ₚ append_text (append_text l b) a.
Proof.
  unfold append_text.
  destruct (decide (a = EmptyString)); destruct (decide (b = EmptyString)); try done.
  apply append_new_comm.
Qed.

(** Two occurrences of an identity that already has a record can come in
    either order: the record ends with the same pages and the same texts,
    up to their order in the two lists, and the same other fields. *)
Theorem occurrences_commute (fp1 fp2 : string) (v1 s1 p1 v2 s2 p2 : N)
    (t1 t2 : string) (m : gmap string Parser.Hadith)
    (h1 h2 : Parser.HadithElement) (r : Parser.Hadith) :
  m !! Parser.identity fp1 h1 = Some r →
  Parser.identity fp2 h2 = Parser.identity fp1 h1 →
  ∃ r12 r21,
    (m1 ← Parser.hadith_step fp1 v1 s1 p1 t1 m h1;
     Parser.hadith_step fp2 v2 s2 p2 t2 m1 h2)
      = Ok (<[Parser.identity fp1 h1 := r12]> m) ∧
    (m2 ← Parser.hadith_step fp2 v2 s2 p2 t2 m h2;
     Parser.hadith_step fp1 v1 s1 p1 t1 m2 h1)
      = Ok (<[Parser.identity fp1 h1 := r21]> m) ∧
    same_frame r12 r21 ∧
    Parser.pages r12 ≡ₚ Parser.pages r21 ∧
    Parser.parts r12 ≡ₚ Parser.parts r21.
Proof.
  intros Hr Hid.
  exists (Parser.merge (Parser.merge r p1 (Parser.hadithContent h1)) p2
            (Parser.hadithContent h2)),
    (Parser.merge (Parser.merge r p2 (Parser.hadithContent h2)) p1
       (Parser.hadithContent h1)).
  split; [|split; [|split; [|split]]].
  - rewrite (hadith_step_merge _ _ _ _ _ _ _ _ Hr). exc_bind.
    erewrite hadith_step_merge by (rewrite Hid; apply lookup_insert_eq).
    by rewrite Hid, insert_insert_eq.
  - erewrite (hadith_step_merge fp2) by (rewrite Hid; exact Hr). exc_bind.
    erewrite hadith_step_merge by (rewrite Hid; apply lookup_insert_eq).
    by rewrite Hid, insert_insert_eq.
  - by repeat split.
  - rewrite !merge_pages_eq. apply append_new_comm.
  - rewrite !merge_parts_eq. apply append_text_comm.
Qed.

Lemma occurrences_commute_witness :
  ∃ r12 r21,
    (m1 ← Parser.hadith_step Demo.page7 1 1 7 "Prayer"
            (Parser.hadithsById Demo.after_page3) Demo.second12;
     Parser.hadith_step Demo.page7 1 1 7 "Prayer" m1 Demo.third12)
      = Ok (<[Parser.identity Demo.page7 Demo.second12 := r12]>
              (Parser.hadithsById Demo.after_page3)) ∧
    (m2 ← Parser.hadith_step Demo.page7 1 1 7 "Prayer"
            (Parser.hadithsById Demo.after_page3) Demo.third12;
     Parser.hadith_step Demo.page7 1 1 7 "Prayer" m2 Demo.second12)
      = Ok (<[Parser.identity Demo.page7 Demo.second12 := r21]>
              (Parser.hadithsById Demo.after_page3)) ∧
    same_frame r12 r21 ∧
    Parser.pages r12 ≡ₚ Parser.pages r21 ∧
    Parser.parts r12 ≡ₚ Parser.parts r21.
Proof.
  apply (occurrences_commute Demo.page7 Demo.page7 1 1 7 1 1 7 "Prayer" "Prayer"
           (Parser.hadithsById Demo.after_page3) Demo.second12 Demo.third12
           (Demo.record12 [3%N] ["first text"%string])).
  - vm_compute. reflexivity.
  - reflexivity.
Defined.

(** ** The records of the fallback pass *)

Lemma fallback_step_keeps_shape {C : Parser.Cheerio} {T : StringTrim}
    v s pg title m parag :
  fallback_shaped m → fallback_shaped (Parser.fallback_step v s pg title m parag).
Proof.
  intros Hm. unfold Parser.fallback_step.
  destruct (Parser.fallback_pattern _) as [[g c]|]; [|done].
  destruct (m !! ("fallback_" +:+ Parser.paragraphId parag)); [done|].
  destruct (proto_key _); [done|]. intros k r.
  destruct (decide (k = "fallback_" +:+ Parser.paragraphId parag)) as [->|Hne];
    [|rewrite lookup_insert_ne by done; apply Hm].
  rewrite lookup_insert_eq. intros [= <-]. simpl.
  split; [by eexists|]. split; [by eexists|]. split; [by eexists|done].
Qed.

(** When the fallback pass runs, every record of the run is one of its own:
    its identity starts with fallback_, it has exactly one page and exactly
    one text, and its chain text (sanad) is empty. *)
Theorem fallback_records_shape {C : Parser.Cheerio} {T : StringTrim}
    (readFile : string → Parser.FileContent) (filePaths : list string)
    (run : Parser.Run) (k : string) (r : Parser.Hadith) :
  Parser.main readFile filePaths = Ok run →
  Parser.LogTryingFallback ∈ Parser.log run →
  Parser.extracted run !! k = Some r →
  (∃ paragraphId, k = "fallback_" +:+ paragraphId) ∧
  (∃ pg, Parser.pages r = [pg]) ∧ (∃ content, Parser.parts r = [content]) ∧
  Parser.sanad r = EmptyString.
Proof.
  unfold Parser.main. cbv zeta. exc_bind.
  destruct (Parser.primary_pass _ _ _) as [st|] eqn:Hprimary; [|done].
  destruct (bool_decide (size (Parser.hadithsById st) = 0%nat)) eqn:Hsize.
  - destruct (Parser.fallback_pass _ _ _ _) as [m|] eqn:Hfallback; [|done].
    intros [= <-] _. simpl. apply size_zero_empty in Hsize. rewrite Hsize in Hfallback.
    revert k r.
    apply (fallback_pass_invariant_on (λ _, True) fallback_shaped
             (λ _ v s pg title m0 parag _ _, fallback_step_keeps_shape v s pg title m0 parag)
             readFile (Parser.currentTitle st) (Parser.sortedPaths filePaths) ∅ m);
      [by apply Forall_forall| |done].
    intros k r. by rewrite lookup_empty.
  - intros [= <-]. simpl.
    rewrite !elem_of_cons, elem_of_nil. intros [?|[?|[?|[?|?]]]]; done.
Qed.

Lemma fallback_records_shape_witness :
  (∃ paragraphId, "fallback_2"%string = "fallback_" +:+ paragraphId) ∧
  (∃ pg, Parser.pages (Demo.plain_record 7 "fallback_2" "Prayer B" "y") = [pg]) ∧
  (∃ content, Parser.parts (Demo.plain_record 7 "fallback_2" "Prayer B" "y") = [content]) ∧
  Parser.sanad (Demo.plain_record 7 "fallback_2" "Prayer B" "y") = EmptyString.
Proof.
  apply (fallback_records_shape (C := Demo.plain_cheerio) (T := Demo.trim_instance)
           Demo.plain_files [Demo.page7; Demo.page3] Demo.plain_run_result).
  - vm_compute. reflexivity.
  - do 2 right. left.
  - vm_compute. reflexivity.
Defined.

(** ** Primary extraction: the record of an identity after a pass *)






Section Merged.
Context {C : Parser.Cheerio}.






(** *** When the pass runs to its end *)




End Merged.




(** ** Fallback extraction: which paragraph gives the record *)

Lemma first_of_nil k (m : gmap string Parser.Hadith) : first_of k m [] = m !! k.
Proof. unfold first_of. by destruct (m !! k). Qed.

Lemma first_of_app k (m m1 : gmap string Parser.Hadith) cands1 cands2 :
  m1 !! k = first_of k m cands1 →
  first_of k m1 cands2 = first_of k m (cands1 ++ cands2).
Proof.
  unfold first_of. intros ->. rewrite filter_app.
  destruct (m !! k) as [r|]; [done|].
  destruct (filter (λ c, c.1 = k) cands1) as [|[k' r] l]; [done|]. done.
Qed.

Section FirstWins.
Context {C : Parser.Cheerio} {T : StringTrim}.

Lemma fallback_step_first k v s pg title (m : gmap string Parser.Hadith) parag :
  Parser.fallback_step v s pg title m parag !! k
  = first_of k m (candidate_of v s pg title parag).
Proof.
  unfold Parser.fallback_step, candidate_of.
  destruct (Parser.fallback_pattern _) as [[g c]|]; [|by rewrite first_of_nil].
  rewrite proto_key_fallback. unfold first_of. rewrite filter_cons, filter_nil. simpl.
  destruct (decide ("fallback_" +:+ Parser.paragraphId parag = k)) as [<-|Hne].
  - destruct (m !! ("fallback_" +:+ Parser.paragraphId parag)) as [r|] eqn:Hr.
    + by rewrite Hr.
    + by rewrite lookup_insert_eq.
  - destruct (m !! ("fallback_" +:+ Parser.paragraphId parag)) as [r|].
    + by destruct (m !! k).
    + rewrite lookup_insert_ne by done. by destruct (m !! k).
Qed.

Lemma fallback_fold_first k v s pg title ps (m : gmap string Parser.Hadith) :
  fold_left (Parser.fallback_step v s pg title) ps m !! k
  = first_of k m (ps ≫= candidate_of v s pg title).
Proof.
  revert m. induction ps as [|parag ps IH]; intros m.
  - by rewrite first_of_nil.
  - rewrite bind_cons. simpl fold_left. rewrite IH.
    apply first_of_app, fallback_step_first.
Qed.

Lemma candidates_cons readFile title filePath sorted :
  candidates readFile title (filePath :: sorted)
  = candidates readFile title [filePath] ++ candidates readFile title sorted.
Proof. unfold candidates. by rewrite bind_cons, bind_singleton. Qed.

Lemma fallback_page_first k readFile title (m m' : gmap string Parser.Hadith) filePath :
  Parser.fallback_page readFile title m filePath = Ok m' →
  m' !! k = first_of k m (candidates readFile title [filePath]).
Proof.
  unfold Parser.fallback_page, candidates. rewrite bind_singleton.
  unfold mbind at 1, Exc_bind.
  destruct (Parser.open_page readFile filePath) as [[[[[v s] pg] ps]|]|] eqn:Hopen;
    [| |done].
  - apply open_page_Some in Hopen as [-> ->]. intros [= <-].
    apply fallback_fold_first.
  - intros [= <-]. unfold paragraphs. rewrite Hopen.
    destruct (Parser.matchPath filePath) as [[[? ?] ?]|]; by rewrite first_of_nil.
Qed.

Lemma fallback_pass_first k readFile title sorted (m m' : gmap string Parser.Hadith) :
  Parser.fallback_pass readFile title m sorted = Ok m' →
  m' !! k = first_of k m (candidates readFile title sorted).
Proof.
  revert m. induction sorted as [|filePath sorted IH]; intros m Hpass;
    simpl in Hpass.
  - injection Hpass as <-. by rewrite first_of_nil.
  - unfold mbind, Exc_bind in Hpass.
    destruct (Parser.fallback_page _ _ _ _) as [m1|] eqn:Hpage; [|done].
    rewrite (IH _ Hpass), candidates_cons.
    by apply first_of_app, fallback_page_first.
Qed.

Lemma filter_key_absent k (l : list (string * Parser.Hadith)) :
  k ∉ l.*1 → filter (λ c, c.1 = k) l = [].
Proof.
  induction l as [|[k' r] l IH]; [done|]. rewrite fmap_cons, not_elem_of_cons.
  intros [Hne Hl]. rewrite filter_cons. simpl.
  rewrite decide_False by done. by apply IH.
Qed.

End FirstWins.

(** C5. When the fallback extraction runs (the primary pass has read every
    page and left no record), the run ends with, under each identity, the
    record made of the first paragraph of the traversal that gives this
    identity, exactly as it was made: one page, one text.  So of two
    paragraphs that give the same identity only the first is retained; the
    second adds neither a page nor a text, whatever lies between and after
    them. *)
Theorem fallback_first_wins {C : Parser.Cheerio} {T : StringTrim}
    (readFile : string → Parser.FileContent) (filePaths : list string)
    (st : Parser.State) :
  Parser.primary_pass readFile Parser.initial (Parser.sortedPaths filePaths) = Ok st →
  Parser.hadithsById st = ∅ →
  ∃ run,
    Parser.main readFile filePaths = Ok run ∧
    Parser.LogTryingFallback ∈ Parser.log run ∧
    (∀ k, Parser.extracted run !! k
          = snd <$> head (filter (λ c, c.1 = k)
                            (candidates readFile (Parser.currentTitle st)
                               (Parser.sortedPaths filePaths)))) ∧
    (∀ before k first between second after,
       candidates readFile (Parser.currentTitle st) (Parser.sortedPaths filePaths)
         = before ++ (k, first) :: between ++ (k, second) :: after →
       k ∉ before.*1 →
       Parser.extracted run !! k = Some first).
Proof.
  intros Hprimary Hempty.
  destruct (fallback_pass_total readFile (Parser.sortedPaths filePaths) Parser.initial st
              (Parser.currentTitle st) (Parser.hadithsById st) Hprimary) as [m Hm].
  assert (∀ k, m !! k
               = snd <$> head (filter (λ c, c.1 = k)
                                 (candidates readFile (Parser.currentTitle st)
                                    (Parser.sortedPaths filePaths)))) as Hfirst.
  { intros k. rewrite (fallback_pass_first k _ _ _ _ _ Hm). unfold first_of.
    by rewrite Hempty, lookup_empty. }
  eexists. split.
  - unfold Parser.main. cbv zeta. rewrite Hprimary. unfold mbind, Exc_bind.
    rewrite Hempty, map_size_empty, bool_decide_eq_true_2 by done.
    rewrite Hempty in Hm. rewrite Hm. reflexivity.
  - simpl. split; [by repeat constructor|]. split; [exact Hfirst|].
    intros before k first between second after Hcands Hbefore.
    rewrite Hfirst, Hcands, filter_app, filter_key_absent by done.
    rewrite filter_cons. simpl. by rewrite decide_True.
Qed.

Lemma fallback_first_wins_witness :
  ∃ run,
    Parser.main (C := Demo.plain_cheerio) (T := Demo.trim_instance)
      Demo.plain_files [Demo.page7; Demo.page3] = Ok run ∧
    Parser.extracted run !! "fallback_1"%string
    = Some (Demo.plain_record 3 "fallback_1" "Knowledge A" "x").
Proof.
  destruct (fallback_first_wins (C := Demo.plain_cheerio) (T := Demo.trim_instance)
              Demo.plain_files [Demo.page7; Demo.page3]
              {| Parser.hadithsById := ∅; Parser.currentTitle := "Prayer" |})
    as (run & Hrun & _ & _ & Hfirst).
  - by vm_compute.
  - reflexivity.
  - exists run. split; [exact Hrun|].
    apply (Hfirst [] "fallback_1"%string
             (Demo.plain_record 3 "fallback_1" "Knowledge A" "x")
             [("fallback_2"%string, Demo.plain_record 7 "fallback_2" "Prayer B" "y")]
             (Demo.plain_record 7 "fallback_1" "C" "z") []).
    + by vm_compute.
    + apply not_elem_of_nil.
Defined.

(** ** Synthesized identities: when two are the same text *)

Lemma string_app_eq (a b c d : string) :
  a +:+ b = c +:+ d →
  (∃ x, a = c +:+ x ∧ d = x +:+ b) ∨ (∃ x, c = a +:+ x ∧ b = x +:+ d).
Proof.
  revert c. induction a as [|a0 a IH]; intros c Heq.
  - right. by exists c.
  - destruct c as [|c0 c].
    + left. by exists (String a0 a).
    + change (String a0 (a +:+ b) = String c0 (c +:+ d)) in Heq.
      injection Heq as -> Heq.
      destruct (IH c Heq) as [[x [-> ->]]|[x [-> ->]]]; [left|right]; by exists x.
Qed.

Lemma string_app_inj (a b c : string) : a +:+ b = a +:+ c → b = c.
Proof.
  induction a as [|a0 a IH]; [done|].
  change (String a0 (a +:+ b) = String a0 (a +:+ c) → b = c).
  intros [= Heq]. by apply IH.
Qed.

Lemma synthesized_same (fp1 p1 fp2 p2 : string) :
  "gen_" +:+ fp1 +:+ "_" +:+ p1 = "gen_" +:+ fp2 +:+ "_" +:+ p2
  ↔ (fp1 = fp2 ∧ p1 = p2) ∨ ambiguous fp1 p1 fp2 p2 ∨ ambiguous fp2 p2 fp1 p1.
Proof.
  split.
  - intros Heq%string_app_inj.
    assert (∀ a p b q, (∃ x, a = b +:+ x ∧ "_" +:+ q = x +:+ "_" +:+ p) →
              (a = b ∧ p = q) ∨ ambiguous a p b q) as Hcase.
    { intros a p b q [[|c x] [-> Hx]].
      - left. rewrite string_app_empty. split; [done|].
        by apply (string_app_inj "_") in Hx.
      - right. change (String "_" q = String c (x +:+ "_" +:+ p)) in Hx.
        injection Hx as <- ->. by exists x. }
    destruct (string_app_eq _ _ _ _ Heq) as [Hx|Hx].
    + destruct (Hcase _ _ _ _ Hx) as [?|?]; tauto.
    + destruct (Hcase fp2 p2 fp1 p1) as [[-> ->]|?]; [|tauto..].
      destruct Hx as [x [-> Hx]]. by exists x.
  - intros [[-> ->]|[[x [-> ->]]|[x [-> ->]]]]; [done| |];
      by rewrite <-!string_app_assoc.
Qed.

(** C7, as amended.  The identities of two quotation elements without
    index attribute are the same text in one case only besides that of the
    same file and the same paragraph identifier (as the identity renders
    it: a paragraph without identifier reads as undefined): one source path
    is the other followed by an underscore and some text, and the
    identifier of the paragraph under the shorter path is that text, an
    underscore and the other identifier.  In every other case two elements
    whose paragraph identifiers differ get distinct identities and two
    records, on the same file or on different files. *)
Theorem synthesized_identities_distinct
    (fp1 fp2 : string) (h1 h2 : Parser.HadithElement) :
  Parser.revayatindex h1 = None → Parser.revayatindex h2 = None →
  let p1 := Parser.template (Parser.closest_p_id h1) in
  let p2 := Parser.template (Parser.closest_p_id h2) in
  (Parser.identity fp1 h1 = Parser.identity fp2 h2
   ↔ (fp1 = fp2 ∧ p1 = p2) ∨ ambiguous fp1 p1 fp2 p2 ∨ ambiguous fp2 p2 fp1 p1)
  ∧
  (p1 ≠ p2 → ¬ ambiguous fp1 p1 fp2 p2 → ¬ ambiguous fp2 p2 fp1 p1 →
   Parser.identity fp1 h1 ≠ Parser.identity fp2 h2 ∧
   ∀ v1 s1 pg1 t1 v2 s2 pg2 t2 (m : gmap string Parser.Hadith),
     ∃ m1 m2 r1 r2,
       Parser.hadith_step fp1 v1 s1 pg1 t1 m h1 = Ok m1 ∧
       Parser.hadith_step fp2 v2 s2 pg2 t2 m1 h2 = Ok m2 ∧
       m2 !! Parser.identity fp1 h1 = Some r1 ∧
       m2 !! Parser.identity fp2 h2 = Some r2).
Proof.
  intros Hn1 Hn2 p1 p2.
  assert (Parser.identity fp1 h1 = Parser.identity fp2 h2
          ↔ (fp1 = fp2 ∧ p1 = p2) ∨ ambiguous fp1 p1 fp2 p2 ∨ ambiguous fp2 p2 fp1 p1)
    as Hsame.
  { rewrite !identity_synthesized by done. apply synthesized_same. }
  split; [exact Hsame|].
  intros Hids Ha1 Ha2.
  assert (Parser.identity fp1 h1 ≠ Parser.identity fp2 h2) as Hne
    by (rewrite Hsame; tauto).
  split; [done|].
  intros v1 s1 pg1 t1 v2 s2 pg2 t2 m.
  destruct (hadith_step_synthesized fp1 v1 s1 pg1 t1 m h1 Hn1)
    as (m1 & r1 & Hs1 & Hr1 & _).
  destruct (hadith_step_synthesized fp2 v2 s2 pg2 t2 m1 h2 Hn2)
    as (m2 & r2 & Hs2 & Hr2 & Hkept).
  destruct (Hkept _ _ Hr1) as (r1' & Hr1' & _).
  by exists m1, m2, r1', r2.
Qed.

(** Two pages, with paragraph identifiers that hold underscores. *)
Lemma synthesized_identities_distinct_witness :
  Parser.identity Demo.page3 Demo.gen_first ≠ Parser.identity Demo.page7 Demo.gen_second ∧
  ∀ v1 s1 pg1 t1 v2 s2 pg2 t2 (m : gmap string Parser.Hadith),
    ∃ m1 m2 r1 r2,
      Parser.hadith_step Demo.page3 v1 s1 pg1 t1 m Demo.gen_first = Ok m1 ∧
      Parser.hadith_step Demo.page7 v2 s2 pg2 t2 m1 Demo.gen_second = Ok m2 ∧
      m2 !! Parser.identity Demo.page3 Demo.gen_first = Some r1 ∧
      m2 !! Parser.identity Demo.page7 Demo.gen_second = Some r2.
Proof.
  apply (proj2 (synthesized_identities_distinct Demo.page3 Demo.page7
                  Demo.gen_first Demo.gen_second eq_refl eq_refl)).
  - discriminate.
  - intros [x [Hpath _]]. vm_compute in Hpath. discriminate Hpath.
  - intros [x [Hpath _]]. vm_compute in Hpath. discriminate Hpath.
Defined.

(** * Further properties of translate.js *)

(** ** What a call of translateText leaves in the title cache *)

Section Cache.
Variable apiKeys : list string.
Variable generateContent : list Translate.Event → option string → string → Translate.ApiResult.

Lemma on_error_cache status st :
  Translate.titleCache (Translate.on_error apiKeys status st) = Translate.titleCache st.
Proof. unfold Translate.on_error. cbv zeta. by destruct (_ && _). Qed.

(** The loop ends in one of two ways: the budget is used up, the text is
    returned and the cache is as before; or a request was answered, the
    answer is returned and, for a title, stored under the text. *)
Lemma attempts_outcome n text isTitle st :
  ∃ evs,
    Translate.trace (Translate.attempts apiKeys generateContent n text isTitle st).2
      = Translate.trace st ++ evs ∧
    ((Translate.LogMaxAttempts text ∈ evs ∧
      (Translate.attempts apiKeys generateContent n text isTitle st).1
        = Translate.VString text ∧
      Translate.titleCache (Translate.attempts apiKeys generateContent n text isTitle st).2
        = Translate.titleCache st)
     ∨
     (Forall (λ e, ∀ t, e ≠ Translate.LogMaxAttempts t) evs ∧
      ∃ t, (Translate.attempts apiKeys generateContent n text isTitle st).1
             = Translate.VString t ∧
           Translate.consecutiveErrors
             (Translate.attempts apiKeys generateContent n text isTitle st).2 = 0%nat ∧
           Translate.titleCache
             (Translate.attempts apiKeys generateContent n text isTitle st).2
           = if isTitle then <[text := t]> (Translate.titleCache st)
             else Translate.titleCache st)).
Proof.
  revert st. induction n as [|n IH]; intros st; simpl.
  - exists [Translate.LogMaxAttempts text]. split; [done|]. left.
    split; [left|done].
  - destruct (generateContent _ _ _) as [translated|status] eqn:Hanswer.
    + eexists. split; [done|]. right. split.
      * constructor; [done|constructor].
      * exists translated. simpl. by destruct isTitle.
    + set (request := Translate.Request (apiKeys !! Translate.currentApiKeyIndex st)
                        (Translate.prompt_of text isTitle)).
      destruct (on_error_trace apiKeys status (Translate.emit request st))
        as (evs1 & Htrace1 & Hservice1 & _).
      destruct (IH (Translate.on_error apiKeys status (Translate.emit request st)))
        as (evs & Htrace & Houtcome).
      exists (request :: evs1 ++ evs). split.
      { rewrite Htrace, Htrace1. simpl. by rewrite <-!app_assoc. }
      rewrite on_error_cache in Houtcome. simpl in Houtcome.
      destruct Houtcome as [(Hlog & Hv & Hcache)|(Hnolog & t & Hv & He & Hcache)].
      * left. split; [|done]. right. apply elem_of_app. by right.
      * right. split; [|by exists t].
        constructor; [done|]. apply Forall_app. split; [|done].
        unfold Translate.on_error in Htrace1. cbv zeta in Htrace1.
        destruct (_ && _); simpl in Htrace1.
        -- apply app_inv_head in Htrace1 as <-. by repeat constructor.
        -- rewrite <-(app_nil_r (Translate.trace st ++ [request])) in Htrace1 at 1.
           apply app_inv_head in Htrace1 as <-. constructor.
Qed.

End Cache.

Section Later.
Variable apiKeys : list string.
Variable generateContent : list Translate.Event → option string → string → Translate.ApiResult.

(** What the cache answers for one text, no call for any text changes. *)
Lemma translateText_keeps_cached text v text' isTitle' st :
  Translate.cache_read (Translate.titleCache st) text = Some v →
  Translate.cache_read
    (Translate.titleCache
       (Translate.translateText apiKeys generateContent text' isTitle' st).2) text
  = Some v.
Proof.
  intros Hcached. unfold Translate.translateText.
  destruct (if isTitle' then Translate.cache_read (Translate.titleCache st) text' else None)
    as [v'|] eqn:Hcache; [done|].
  destruct (attempts_outcome apiKeys generateContent
              (List.length apiKeys * 3) text' isTitle' st)
    as (evs & _ & [(_ & _ & ->)|(_ & t & _ & _ & ->)]); [done|].
  destruct isTitle'; [|done].
  destruct (decide (text' = text)) as [->|Hne]; [congruence|].
  unfold Translate.cache_read in *. by rewrite lookup_insert_ne.
Qed.

Lemma after_calls_keeps_cached text v calls st :
  Translate.cache_read (Translate.titleCache st) text = Some v →
  Translate.cache_read
    (Translate.titleCache (after_calls apiKeys generateContent calls st)) text = Some v.
Proof.
  revert st. induction calls as [|[text' isTitle'] calls IH]; intros st Hcached; [done|].
  simpl. by apply IH, translateText_keeps_cached.
Qed.

End Later.

(** A title is requested until it is translated, then never again.  A call
    for a title either used up its budget, and then returns the title
    itself and leaves the cache as it was; or it ends with a value (found
    in the cache or given by the service) and, unless that value is the
    empty string, every later call for the same title, after any calls for
    titles and contents in between, returns that value without any request
    and without touching the state. *)
Theorem title_requested_until_translated (apiKeys : list string)
    (generateContent : list Translate.Event → option string → string → Translate.ApiResult)
    (text : string) (st : Translate.State) :
  ∃ evs,
    Translate.trace (Translate.translateText apiKeys generateContent text true st).2
      = Translate.trace st ++ evs ∧
    ((Translate.LogMaxAttempts text ∈ evs ∧
      (Translate.translateText apiKeys generateContent text true st).1
        = Translate.VString text ∧
      Translate.titleCache (Translate.translateText apiKeys generateContent text true st).2
        = Translate.titleCache st)
     ∨
     ((Translate.LogMaxAttempts text ∉ evs) ∧
      ((Translate.translateText apiKeys generateContent text true st).1
         = Translate.VString EmptyString
       ∨ ∀ calls,
           let later :=
             after_calls apiKeys generateContent calls
               (Translate.translateText apiKeys generateContent text true st).2 in
           Translate.translateText apiKeys generateContent text true later
           = ((Translate.translateText apiKeys generateContent text true st).1, later)))).
Proof.
  assert (∀ v st1, Translate.cache_read (Translate.titleCache st1) text = Some v →
            ∀ calls,
              Translate.translateText apiKeys generateContent text true
                (after_calls apiKeys generateContent calls st1)
              = (v, after_calls apiKeys generateContent calls st1)) as Hlater.
  { intros v st1 Hcached calls. unfold Translate.translateText.
    by rewrite (after_calls_keeps_cached apiKeys generateContent text v calls st1 Hcached). }
  destruct (Translate.cache_read (Translate.titleCache st) text) as [v|] eqn:Hcache.
  - assert (Translate.translateText apiKeys generateContent text true st = (v, st))
      as Hcall by (unfold Translate.translateText; by rewrite Hcache).
    rewrite !Hcall. simpl. exists []. rewrite app_nil_r. split; [done|]. right.
    split; [by intros ?%elem_of_nil|]. right. by apply Hlater.
  - assert (Translate.translateText apiKeys generateContent text true st
            = Translate.attempts apiKeys generateContent
                (List.length apiKeys * 3) text true st)
      as Hcall by (unfold Translate.translateText; by rewrite Hcache).
    rewrite !Hcall.
    destruct (attempts_outcome apiKeys generateContent
                (List.length apiKeys * 3) text true st) as (evs & Htrace & Houtcome).
    exists evs. split; [done|].
    destruct Houtcome as [?|(Hnolog & t & Hv & _ & Hstored)]; [by left|].
    right. split.
    { intros Hin. rewrite Forall_forall in Hnolog. by apply (Hnolog _ Hin text). }
    destruct (decide (t = EmptyString)) as [->|Hne]; [by left|]. right.
    destruct (Translate.attempts _ _ _ _ _ _) as [v st1]. simpl in *. subst v.
    apply Hlater. unfold Translate.cache_read.
    rewrite Hstored, lookup_insert_eq. apply truthy_spec in Hne. by rewrite Hne.
Qed.

Lemma title_requested_until_translated_witness :
  let first :=
    Translate.translateText ["k1"; "k2"]%string Demo.echo_service "Prayer" true
      Translate.start in
  let later :=
    after_calls ["k1"; "k2"]%string Demo.echo_service
      [("text three", false); ("Knowledge", true); ("text four", false)]%string
      first.2 in
  Translate.translateText ["k1"; "k2"]%string Demo.echo_service "Prayer" true later
  = (first.1, later).
Proof.
  destruct (title_requested_until_translated
              ["k1"; "k2"]%string Demo.echo_service "Prayer" Translate.start)
    as (evs & Htrace & [(_ & Hv & _)|(_ & [Hv|Hagain])]).
  - vm_compute in Hv. discriminate Hv.
  - vm_compute in Hv. discriminate Hv.
  - exact (Hagain [("text three", false); ("Knowledge", true); ("text four", false)]%string).
Defined.

(** A call changes the title cache at most under its own text, and only a
    call for a title does; a call for a content never reads the cache, and
    returns a string whatever the text is. *)
Theorem cache_touched_by_titles_only (apiKeys : list string)
    (generateContent : list Translate.Event → option string → string → Translate.ApiResult)
    (text : string) (isTitle : bool) (st : Translate.State) :
  (Translate.titleCache (Translate.translateText apiKeys generateContent text isTitle st).2
     = Translate.titleCache st
   ∨ (isTitle = true ∧
      ∃ t, (Translate.translateText apiKeys generateContent text isTitle st).1
             = Translate.VString t ∧
           Translate.titleCache
             (Translate.translateText apiKeys generateContent text isTitle st).2
           = <[text := t]> (Translate.titleCache st)))
  ∧ (isTitle = false →
     ∃ s, (Translate.translateText apiKeys generateContent text isTitle st).1
            = Translate.VString s).
Proof.
  unfold Translate.translateText.
  destruct (if isTitle then Translate.cache_read (Translate.titleCache st) text else None)
    as [v|] eqn:Hcache.
  - split; [by left|]. intros ->. discriminate.
  - destruct (attempts_outcome apiKeys generateContent
                (List.length apiKeys * 3) text isTitle st)
      as (evs & _ & [(_ & Hv & Hsame)|(_ & t & Hv & _ & Hstored)]).
    + split; [by left|]. intros _. by exists text.
    + split; [|intros _; by exists t].
      destruct isTitle; [right|by left]. split; [done|]. by exists t.
Qed.

Lemma cache_touched_by_titles_only_witness :
  ∃ s, (Translate.translateText ["k1"; "k2"]%string Demo.echo_service
          "constructor" false Translate.start).1 = Translate.VString s.
Proof.
  apply (proj2 (cache_touched_by_titles_only ["k1"; "k2"]%string Demo.echo_service
                  "constructor" false Translate.start)).
  reflexivity.
Defined.

(** ** The credentials of the requests *)

Section Keys.
Variable apiKeys : list string.
Variable generateContent : list Translate.Event → option string → string → Translate.ApiResult.

Lemma on_error_index status st :
  apiKeys ≠ [] →
  (Translate.currentApiKeyIndex (Translate.on_error apiKeys status st)
   < List.length apiKeys)%nat
  ∧ Translate.currentApiKeyIndex (Translate.on_error apiKeys status st)
    = ((Translate.currentApiKeyIndex st + 1) mod List.length apiKeys)%nat.
Proof.
  intros Hne. unfold Translate.on_error. cbv zeta.
  assert (List.length apiKeys ≠ 0%nat) by (by destruct apiKeys).
  destruct (_ && _); simpl; (split; [by apply Nat.mod_upper_bound|done]).
Qed.

Lemma attempts_keys n text isTitle st :
  apiKeys ≠ [] →
  (Translate.currentApiKeyIndex st < List.length apiKeys)%nat →
  (Translate.currentApiKeyIndex
     (Translate.attempts apiKeys generateContent n text isTitle st).2
   < List.length apiKeys)%nat
  ∧ ∃ evs,
      Translate.trace (Translate.attempts apiKeys generateContent n text isTitle st).2
        = Translate.trace st ++ evs ∧
      Forall (λ key, ∃ k, key = Some k ∧ k ∈ apiKeys) (request_keys evs) ∧
      ((∀ history apiKey prompt, ∃ status,
          generateContent history apiKey prompt = Translate.Failed status) →
       request_keys evs
       = (λ i, apiKeys !! ((Translate.currentApiKeyIndex st + i) mod List.length apiKeys)%nat)
           <$> seq 0 n).
Proof.
  intros Hne. revert st. induction n as [|n IH]; intros st Hidx; simpl.
  - split; [done|]. exists [Translate.LogMaxAttempts text]. split; [done|].
    split; [constructor|done].
  - assert (∃ k, apiKeys !! Translate.currentApiKeyIndex st = Some k ∧ k ∈ apiKeys)
      as (k & Hk & Hkin).
    { destruct (lookup_lt_is_Some_2 apiKeys _ Hidx) as [k Hk].
      exists k. split; [done|]. by eapply list_elem_of_lookup_2. }
    destruct (generateContent _ _ _) as [translated|status] eqn:Hanswer.
    + simpl. split; [done|]. eexists. split; [done|]. simpl. split.
      * constructor; [by exists k|constructor].
      * intros Hfail. destruct (Hfail (Translate.trace st)
          (apiKeys !! Translate.currentApiKeyIndex st)
          (Translate.prompt_of text isTitle)) as [? ?]. congruence.
    + set (request := Translate.Request (apiKeys !! Translate.currentApiKeyIndex st)
                        (Translate.prompt_of text isTitle)).
      destruct (on_error_index status (Translate.emit request st) Hne) as [Hidx1 Hnext].
      destruct (on_error_trace apiKeys status (Translate.emit request st))
        as (evs1 & Htrace1 & Hservice1 & Hrequests1).
      destruct (IH _ Hidx1) as (Hidx' & evs & Htrace & Hkeys & Hround).
      split; [done|]. exists (request :: evs1 ++ evs). split.
      { rewrite Htrace, Htrace1. simpl. by rewrite <-!app_assoc. }
      assert (request_keys evs1 = []) as Hno.
      { unfold Translate.on_error in Htrace1. cbv zeta in Htrace1.
        destruct (_ && _); simpl in Htrace1.
        - by apply app_inv_head in Htrace1 as <-.
        - rewrite <-(app_nil_r (Translate.trace st ++ [request])) in Htrace1 at 1.
          by apply app_inv_head in Htrace1 as <-. }
      assert (∀ a b, request_keys (a ++ b) = request_keys a ++ request_keys b) as Happ.
      { clear. intros a b. induction a as [|[] a IHa]; simpl; by rewrite ?IHa. }
      simpl. rewrite Happ, Hno. simpl. split.
      * constructor; [by exists k|done].
      * intros Hfail. rewrite (Hround Hfail), Hnext. simpl.
        rewrite Nat.add_0_r, (Nat.mod_small _ _ Hidx). f_equal.
        rewrite <-fmap_S_seq, <-list_fmap_compose. apply list_fmap_ext.
        intros _ i _. simpl. f_equal.
        rewrite Nat.Div0.add_mod_idemp_l. f_equal. lia.
Qed.

End Keys.

(** Every request is sent with a credential of the pool: the index stays
    within the pool, so that [apiKeys[currentApiKeyIndex]] is never
    undefined.  When every request of a call fails, the credentials are
    tried in turn from the current one, round the pool three times: each
    of them exactly three times. *)
Theorem requests_go_round_the_pool (apiKeys : list string)
    (generateContent : list Translate.Event → option string → string → Translate.ApiResult)
    (text : string) (isTitle : bool) (st : Translate.State) :
  apiKeys ≠ [] →
  (Translate.currentApiKeyIndex st < List.length apiKeys)%nat →
  (Translate.currentApiKeyIndex
     (Translate.translateText apiKeys generateContent text isTitle st).2
   < List.length apiKeys)%nat
  ∧ ∃ evs,
      Translate.trace (Translate.translateText apiKeys generateContent text isTitle st).2
        = Translate.trace st ++ evs ∧
      Forall (λ key, ∃ k, key = Some k ∧ k ∈ apiKeys) (request_keys evs) ∧
      ((if isTitle then Translate.cache_read (Translate.titleCache st) text else None)
         = None →
       (∀ history apiKey prompt, ∃ status,
          generateContent history apiKey prompt = Translate.Failed status) →
       request_keys evs
       = (λ i, apiKeys !! ((Translate.currentApiKeyIndex st + i) mod List.length apiKeys)%nat)
           <$> seq 0 (List.length apiKeys * 3)).
Proof.
  intros Hne Hidx. unfold Translate.translateText.
  destruct (if isTitle then Translate.cache_read (Translate.titleCache st) text else None)
    as [v|] eqn:Hcache.
  - simpl. split; [done|]. exists []. rewrite app_nil_r. split; [done|].
    split; [constructor|]. intros Hmiss. discriminate.
  - destruct (attempts_keys apiKeys generateContent
                (List.length apiKeys * 3) text isTitle st Hne Hidx)
      as (Hidx' & evs & Htrace & Hkeys & Hround).
    split; [done|]. exists evs. split; [done|]. split; [done|].
    intros _. exact Hround.
Qed.

Lemma requests_go_round_the_pool_witness :
  request_keys
    (Translate.trace
       (Translate.translateText ["k1"; "k2"]%string Demo.busy_service
          "text" false Translate.start).2)
  = [Some "k1"; Some "k2"; Some "k1"; Some "k2"; Some "k1"; Some "k2"]%string.
Proof.
  destruct (requests_go_round_the_pool ["k1"; "k2"]%string Demo.busy_service
              "text" false Translate.start)
    as (_ & evs & Htrace & _ & Hround).
  - discriminate.
  - simpl. lia.
  - rewrite Htrace. simpl.
    rewrite (Hround eq_refl (λ _ _ _, ex_intro _ (Some 429%N) eq_refl)).
    reflexivity.
Defined.

(** ** Backing off *)

Section BackOff.
Variable apiKeys : list string.
Variable generateContent : list Translate.Event → option string → string → Translate.ApiResult.
Hypothesis not_retryable :
  ∀ history apiKey prompt status,
    generateContent history apiKey prompt = Translate.Failed status →
    Translate.retryable status = false.

Lemma attempts_no_backoff n text isTitle st :
  ∃ evs,
    Translate.trace (Translate.attempts apiKeys generateContent n text isTitle st).2
      = Translate.trace st ++ evs ∧
    Forall (λ e, ¬ is_backoff e) evs.
Proof.
  revert st. induction n as [|n IH]; intros st; simpl.
  - eexists. split; [done|]. constructor; [by intros []|constructor].
  - destruct (generateContent _ _ _) as [translated|status] eqn:Hanswer.
    + eexists. split; [done|]. constructor; [by intros []|constructor].
    + set (request := Translate.Request (apiKeys !! Translate.currentApiKeyIndex st)
                        (Translate.prompt_of text isTitle)).
      destruct (IH (Translate.on_error apiKeys status (Translate.emit request st)))
        as (evs & Htrace & Hno).
      exists (request :: evs). split; [|constructor; [by intros []|done]].
      rewrite Htrace. unfold Translate.on_error. cbv zeta.
      rewrite (not_retryable _ _ _ _ Hanswer), andb_false_r. simpl.
      by rewrite <-app_assoc.
Qed.

End BackOff.

(** The pause of line 85 is for rate limits only: when no failure of the
    service carries status 429 or 503, a call never backs off, however many
    requests fail and however often the credentials wrapped around. *)
Theorem no_backoff_without_rate_limit (apiKeys : list string)
    (generateContent : list Translate.Event → option string → string → Translate.ApiResult)
    (text : string) (isTitle : bool) (st : Translate.State) :
  (∀ history apiKey prompt status,
     generateContent history apiKey prompt = Translate.Failed status →
     Translate.retryable status = false) →
  ∃ evs,
    Translate.trace (Translate.translateText apiKeys generateContent text isTitle st).2
      = Translate.trace st ++ evs ∧
    Forall (λ e, ¬ is_backoff e) evs.
Proof.
  intros Hnot. unfold Translate.translateText.
  destruct (if isTitle then Translate.cache_read (Translate.titleCache st) text else None).
  - exists []. simpl. by rewrite app_nil_r.
  - by apply attempts_no_backoff.
Qed.

Lemma no_backoff_without_rate_limit_witness :
  ∃ evs,
    Translate.trace
      (Translate.translateText ["k1"; "k2"]%string
         (λ _ _ _, Translate.Failed (Some 500%N)) "text" false Translate.start).2
      = Translate.trace Translate.start ++ evs ∧
    Forall (λ e, ¬ is_backoff e) evs.
Proof.
  apply (no_backoff_without_rate_limit ["k1"; "k2"]%string
           (λ _ _ _, Translate.Failed (Some 500%N)) "text" false Translate.start).
  intros history apiKey prompt status [= <-]. reflexivity.
Defined.

(** ** The output file over a run and over two runs *)

Lemma writes_app evs1 evs2 : writes (evs1 ++ evs2) = writes evs1 ++ writes evs2.
Proof. induction evs1 as [|[] evs1 IH]; simpl; by rewrite ?IH. Qed.

Lemma writes_service reqs : Forall service_event reqs → writes reqs = [].
Proof. induction 1 as [|[] reqs He Hreqs IH]; simpl; done. Qed.

Lemma loop_run_writes acc todo evs res :
  loop_run acc todo evs res →
  StronglySorted (λ l1 l2, l1 `prefix_of` l2) (acc :: writes evs) ∧
  (∀ final, res = Ok final →
     last (acc :: writes evs) = Some final ∧
     Translate.original <$> final = (Translate.original <$> acc) ++ todo).
Proof.
  induction 1 as [acc|acc h new todo reqs evs res Hnew Hreqs Hrun [IHs IHf]
                 |acc h todo reqs Hproto Hreqs]; simpl.
  - split; [by repeat constructor|]. intros final [= <-]. by rewrite app_nil_r.
  - rewrite writes_app, (writes_service _ Hreqs). simpl. split.
    + apply StronglySorted_cons in IHs as [Hall IHs'].
      constructor; [by constructor|].
      constructor; [by apply prefix_app_r|].
      eapply Forall_impl; [exact Hall|]. simpl. intros w Hw.
      etrans; [|exact Hw]. by apply prefix_app_r.
    + intros final Hres. destruct (IHf _ Hres) as [Hlast Hfinal]. split.
      * rewrite <-Hlast. simpl. by destruct (writes evs).
      * rewrite Hfinal, fmap_app. simpl. by rewrite Hnew, <-app_assoc.
  - rewrite (writes_service _ Hreqs). split; [by repeat constructor|]. done.
Qed.

(** The records already in the output file are never dropped: every list
    written during a run extends the list written before it, the first one
    extends the partial file; and when the loop ends normally the last list
    written is the list it returns, the records of the partial file followed
    by the records translated, in order. *)
Theorem written_file_only_grows {T : StringTrim} (apiKeys : list string)
    (generateContent : list Translate.Event → option string → string → Translate.ApiResult)
    (translatedIds : gset string) (hadiths : list Translate.Hadith)
    (partial : list Translate.TranslatedHadith) (st : Translate.State) :
  ∃ evs,
    Translate.trace
      (Translate.translate_loop apiKeys generateContent translatedIds hadiths
         partial st).2 = Translate.trace st ++ evs ∧
    StronglySorted (λ l1 l2, l1 `prefix_of` l2) (partial :: writes evs) ∧
    (∀ final,
       (Translate.translate_loop apiKeys generateContent translatedIds hadiths
          partial st).1 = Ok final →
       last (partial :: writes evs) = Some final ∧
       Translate.original <$> final
       = (Translate.original <$> partial)
           ++ filter (λ h, pending translatedIds h = true) hadiths).
Proof.
  destruct (translate_loop_run apiKeys generateContent translatedIds hadiths partial st)
    as (evs & Htrace & Hrun).
  exists evs. split; [done|]. by apply loop_run_writes.
Qed.

Lemma written_file_only_grows_witness :
  ∃ evs,
    Translate.trace
      (Translate.translate_loop (T := Demo.trim_instance) ["k1"; "k2"]%string
         Demo.echo_service (Translate.ids_of Demo.earlier) Demo.book Demo.earlier
         Translate.start).2 = evs ∧
    last (Demo.earlier :: writes evs)
    = Some
        (match (Translate.translate_loop (T := Demo.trim_instance) ["k1"; "k2"]%string
                  Demo.echo_service (Translate.ids_of Demo.earlier) Demo.book
                  Demo.earlier Translate.start).1 with
         | Ok final => final
         | Throw _ => []
         end).
Proof.
  destruct (written_file_only_grows (T := Demo.trim_instance) ["k1"; "k2"]%string
              Demo.echo_service (Translate.ids_of Demo.earlier) Demo.book Demo.earlier
              Translate.start) as (evs & Htrace & _ & Hfinal).
  exists evs. split; [exact Htrace|].
  destruct (Translate.translate_loop _ _ _ _ _ _).1 as [final|e] eqn:Hres.
  - exact (proj1 (Hfinal final eq_refl)).
  - vm_compute in Hres. discriminate Hres.
Defined.

Section Rerun.
Context {T : StringTrim}.
Variable apiKeys : list string.
Variable generateContent : list Translate.Event → option string → string → Translate.ApiResult.

Lemma translate_loop_skips_all translatedIds hadiths acc st :
  (∀ h, h ∈ hadiths → pending translatedIds h = false) →
  Translate.translate_loop apiKeys generateContent translatedIds hadiths acc st
  = (Ok acc, st).
Proof.
  induction hadiths as [|h rest IH]; intros Hall; simpl; [done|].
  pose proof (Hall h ltac:(left)) as Hh. unfold pending in Hh.
  assert (Translate.translate_loop apiKeys generateContent translatedIds rest acc st
          = (Ok acc, st)) as Hrest.
  { apply IH. intros h' Hh'. apply Hall. by right. }
  destruct (bool_decide (Parser.out_id h ∈ translatedIds)); [done|].
  simpl in Hh. by rewrite Hh.
Qed.

Lemma ids_of_elem (records : list Translate.TranslatedHadith) (i : string) :
  i ∈ Translate.ids_of records ↔ i ∈ ids records.
Proof. unfold Translate.ids_of, ids. by rewrite elem_of_list_to_set. Qed.

Lemma ids_originals (records : list Translate.TranslatedHadith) :
  ids records = Parser.out_id <$> (Translate.original <$> records).
Proof. unfold ids. by rewrite <-list_fmap_compose. Qed.

End Rerun.

(** A run that went through leaves nothing to do: run again with the file
    it wrote as partial file, the loop skips every record, sends no
    request and writes nothing. *)
Theorem second_run_translates_nothing {T : StringTrim} (apiKeys : list string)
    (generateContent : list Translate.Event → option string → string → Translate.ApiResult)
    (partial final : list Translate.TranslatedHadith) (hadiths : list Translate.Hadith)
    (st st1 st2 : Translate.State) :
  Translate.translate_loop apiKeys generateContent (Translate.ids_of partial)
    hadiths partial st = (Ok final, st1) →
  Translate.translate_loop apiKeys generateContent (Translate.ids_of final)
    hadiths final st2 = (Ok final, st2).
Proof.
  intros Hfirst. apply translate_loop_skips_all. intros h Hh.
  destruct (translate_loop_run apiKeys generateContent (Translate.ids_of partial)
              hadiths partial st) as (evs & _ & Hrun).
  rewrite Hfirst in Hrun. simpl in Hrun.
  destruct (loop_run_writes _ _ _ _ Hrun) as [_ Hfinal].
  destruct (Hfinal final eq_refl) as [_ Horiginals].
  destruct (pending (Translate.ids_of final) h) eqn:Hpending; [|done].
  unfold pending in Hpending. apply andb_true_iff in Hpending as [Hid Hbody].
  apply negb_true_iff, bool_decide_eq_false in Hid. destruct Hid.
  apply ids_of_elem. rewrite ids_originals, Horiginals, fmap_app, elem_of_app.
  destruct (pending (Translate.ids_of partial) h) eqn:Hbefore.
  - right. apply list_elem_of_fmap_2. by apply list_elem_of_filter.
  - left. unfold pending in Hbefore. rewrite Hbody, andb_true_r in Hbefore.
    apply negb_false_iff, bool_decide_eq_true in Hbefore.
    apply ids_of_elem in Hbefore. by rewrite ids_originals in Hbefore.
Qed.

Lemma second_run_translates_nothing_witness :
  let first :=
    Translate.translate_loop (T := Demo.trim_instance) ["k1"; "k2"]%string
      Demo.echo_service (Translate.ids_of Demo.earlier) Demo.book Demo.earlier
      Translate.start in
  match first.1 with
  | Ok final =>
      Translate.translate_loop (T := Demo.trim_instance) ["k1"; "k2"]%string
        Demo.echo_service (Translate.ids_of final) Demo.book final Translate.start
      = (Ok final, Translate.start)
  | Throw _ => False
  end.
Proof.
  intros first.
  destruct first as [[final|e] st1] eqn:Hfirst; simpl.
  - apply (second_run_translates_nothing (T := Demo.trim_instance)
             ["k1"; "k2"]%string Demo.echo_service Demo.earlier final Demo.book
             Translate.start st1 Translate.start).
    exact Hfirst.
  - vm_compute in Hfirst. discriminate Hfirst.
Defined.

(** No identity is written twice: when hadiths.json has each identity once
    and the partial file too, the list the loop returns has each identity
    once. *)
Theorem translated_ids_stay_distinct {T : StringTrim} (apiKeys : list string)
    (generateContent : list Translate.Event → option string → string → Translate.ApiResult)
    (partial final : list Translate.TranslatedHadith) (hadiths : list Translate.Hadith)
    (st st1 : Translate.State) :
  NoDup (Parser.out_id <$> hadiths) → NoDup (ids partial) →
  Translate.translate_loop apiKeys generateContent (Translate.ids_of partial)
    hadiths partial st = (Ok final, st1) →
  NoDup (ids final).
Proof.
  intros Hhadiths Hpartial Hloop.
  destruct (translate_loop_run apiKeys generateContent (Translate.ids_of partial)
              hadiths partial st) as (evs & _ & Hrun).
  rewrite Hloop in Hrun. simpl in Hrun.
  destruct (loop_run_writes _ _ _ _ Hrun) as [_ Hfinal].
  destruct (Hfinal final eq_refl) as [_ Horiginals].
  rewrite ids_originals, Horiginals, fmap_app, <-ids_originals.
  apply NoDup_app. split; [done|]. split.
  - intros i Hi [h [-> [Hpending Hh]%list_elem_of_filter]]%list_elem_of_fmap.
    unfold pending in Hpending. apply andb_true_iff in Hpending as [Hid _].
    apply negb_true_iff, bool_decide_eq_false in Hid. destruct Hid.
    by apply ids_of_elem.
  - eapply sublist_NoDup; [exact Hhadiths|].
    apply fmap_sublist, sublist_filter.
Qed.

Lemma translated_ids_stay_distinct_witness :
  let first :=
    Translate.translate_loop (T := Demo.trim_instance) ["k1"; "k2"]%string
      Demo.echo_service (Translate.ids_of Demo.earlier) Demo.book Demo.earlier
      Translate.start in
  match first.1 with
  | Ok final => NoDup (ids final)
  | Throw _ => False
  end.
Proof.
  intros first.
  destruct first as [[final|e] st1] eqn:Hfirst; simpl.
  - apply (translated_ids_stay_distinct (T := Demo.trim_instance)
             ["k1"; "k2"]%string Demo.echo_service Demo.earlier final Demo.book
             Translate.start st1).
    + repeat (apply NoDup_cons; split;
              [rewrite ?elem_of_cons, elem_of_nil; intros H;
               repeat (destruct H as [H|H]; [discriminate H|]); exact H|]).
      apply NoDup_nil_2.
    + apply NoDup_singleton.
    + exact Hfirst.
  - vm_compute in Hfirst. discriminate Hfirst.
Defined.

(** ** The text [fixTranslatedFile] writes back *)

Section Replace.
Variables (open letter close : N) (replacement : list N).

Lemma replace_eq (x : N) (rest : list N) :
  Translate.replace open letter close replacement (x :: rest)
  = if Translate.starts open letter close (x :: rest)
    then replacement ++ Translate.replace open letter close replacement (drop 2 rest)
    else x :: Translate.replace open letter close replacement rest.
Proof.
  destruct rest as [|y [|z rest']]; simpl.
  - by rewrite andb_false_r.
  - by rewrite !andb_false_r.
  - reflexivity.
Qed.

Lemma starts_spec (data : list N) :
  Translate.starts open letter close data = true
  ↔ ∃ r, data = [open; letter; close] ++ r.
Proof.
  split.
  - destruct data as [|x [|y [|z r]]]; simpl; rewrite ?andb_false_r; try done.
    intros [->%N.eqb_eq [->%N.eqb_eq ->%N.eqb_eq]%andb_true_iff]%andb_true_iff.
    by exists r.
  - intros [r ->]. simpl. by rewrite !N.eqb_refl.
Qed.

Lemma occurs_spec (data : list N) :
  occurs open letter close data = true ↔ occurs_in [open; letter; close] data.
Proof.
  induction data as [|x rest IH].
  - split; [done|]. intros (l & r & H). by destruct l.
  - change (occurs open letter close (x :: rest))
      with (Translate.starts open letter close (x :: rest)
            || occurs open letter close rest).
    rewrite orb_true_iff, starts_spec, IH. split.
    + intros [[r ->]|(l & r & ->)]; [by exists [], r|by exists (x :: l), r].
    + intros (l & r & H). destruct l as [|x' l].
      * left. by exists r.
      * right. injection H as _ ->. by exists l, r.
Qed.

Lemma occurs_suffix (l data : list N) :
  occurs open letter close (l ++ data) = false →
  occurs open letter close data = false.
Proof.
  induction l as [|x l IH]; [done|].
  change (occurs open letter close ((x :: l) ++ data))
    with (Translate.starts open letter close (x :: l ++ data)
          || occurs open letter close (l ++ data)).
  intros [_ H]%orb_false_iff. by apply IH.
Qed.

(** Text without the abbreviation is left as it is. *)
Lemma replace_absent (data : list N) :
  occurs open letter close data = false →
  Translate.replace open letter close replacement data = data.
Proof.
  induction data as [|x rest IH]; [done|].
  change (occurs open letter close (x :: rest))
    with (Translate.starts open letter close (x :: rest)
          || occurs open letter close rest).
  intros [Hhead Hrest]%orb_false_iff.
  rewrite replace_eq, Hhead. f_equal. by apply IH.
Qed.

End Replace.

(** A second pattern [open' letter' close'] that the replacement neither
    holds nor completes is not brought in by the replacement, and is
    removed by it when it is the pattern replaced. *)
Section Brought.
Variables (open letter close : N) (replacement : list N).
Variables (open' letter' close' head : N) (tail : list N).
Hypothesis block : ∀ t,
  occurs open' letter' close' (replacement ++ t) = occurs open' letter' close' t.
Hypothesis replacement_head : replacement = head :: tail.
Hypothesis head_letter : head ≠ letter'.
Hypothesis head_close : head ≠ close'.

Lemma replace_brings_none (data : list N) :
  (open', letter', close') = (open, letter, close)
  ∨ occurs open' letter' close' data = false →
  occurs open' letter' close'
    (Translate.replace open letter close replacement data) = false.
Proof.
  remember (List.length data) as n eqn:Hn.
  revert data Hn. induction (lt_wf n) as [n _ IH]. intros data -> Hdata.
  destruct data as [|x rest]; [done|].
  assert (occurs open' letter' close'
            (Translate.replace open letter close replacement rest) = false) as Hrest.
  { eapply IH; [|reflexivity|]; [simpl; lia|].
    destruct Hdata as [Hsame|Hnone]; [by left|right].
    by apply (occurs_suffix open' letter' close' [x]). }
  rewrite replace_eq.
  destruct (Translate.starts open letter close (x :: rest)) eqn:Hhead.
  - rewrite block. eapply IH; [|reflexivity|].
    + simpl. rewrite length_drop. lia.
    + destruct Hdata as [Hsame|Hnone]; [by left|right].
      apply (occurs_suffix open' letter' close' (x :: take 2 rest)).
      by rewrite <-app_comm_cons, take_drop.
  - change (Translate.starts open' letter' close'
              (x :: Translate.replace open letter close replacement rest)
            || occurs open' letter' close'
                 (Translate.replace open letter close replacement rest) = false).
    rewrite Hrest, orb_false_r.
    destruct (Translate.starts open' letter' close'
                (x :: Translate.replace open letter close replacement rest))
      eqn:Hstarts; [exfalso|done].
    assert (Translate.starts open' letter' close' (x :: rest) = true) as Horig.
    { destruct rest as [|y rest2]; [simpl in Hstarts; by rewrite andb_false_r in Hstarts|].
      rewrite replace_eq in Hstarts.
      destruct (Translate.starts open letter close (y :: rest2)).
      { rewrite replacement_head in Hstarts. simpl in Hstarts.
        apply andb_true_iff in Hstarts as [_ [Hb%N.eqb_eq _]%andb_true_iff]. done. }
      destruct rest2 as [|z rest3];
        [simpl in Hstarts; by rewrite !andb_false_r in Hstarts|].
      rewrite replace_eq in Hstarts.
      destruct (Translate.starts open letter close (z :: rest3)).
      { rewrite replacement_head in Hstarts. simpl in Hstarts.
        apply andb_true_iff in Hstarts as [_ [_ Hc%N.eqb_eq]%andb_true_iff]. done. }
      exact Hstarts. }
    destruct Hdata as [Hsame|Hnone].
    + injection Hsame as -> -> ->. congruence.
    + change (Translate.starts open' letter' close' (x :: rest)
              || occurs open' letter' close' rest = false) in Hnone.
      by rewrite Horig in Hnone.
Qed.

End Brought.

Lemma fixedData_occurs (data : list N) :
  occurs Translate.paren_open Translate.sad Translate.paren_close
    (Translate.fixedData data) = false
  ∧ occurs Translate.paren_open Translate.ain Translate.paren_close
      (Translate.fixedData data) = false.
Proof.
  unfold Translate.fixedData. split.
  - apply (replace_brings_none _ _ _ Translate.salam _ _ _
             Translate.paren_open (List.tail Translate.salam));
      [by intros t|done|done|done|right].
    apply (replace_brings_none _ _ _ Translate.salawat _ _ _
             Translate.paren_open (List.tail Translate.salawat));
      [by intros t|done|done|done|by left].
  - apply (replace_brings_none _ _ _ Translate.salam _ _ _
             Translate.paren_open (List.tail Translate.salam));
      [by intros t|done|done|done|by left].
Qed.

(** [fixTranslatedFile] leaves neither abbreviation in the text it writes
    back, whatever the file held, and fixing a fixed file changes
    nothing. *)
Theorem fixed_text_has_no_abbreviation (data : list N) :
  ¬ occurs_in [Translate.paren_open; Translate.sad; Translate.paren_close]
      (Translate.fixedData data)
  ∧ ¬ occurs_in [Translate.paren_open; Translate.ain; Translate.paren_close]
        (Translate.fixedData data)
  ∧ Translate.fixedData (Translate.fixedData data) = Translate.fixedData data.
Proof.
  destruct (fixedData_occurs data) as [Hsad Hain].
  split; [|split].
  - rewrite <-occurs_spec. by rewrite Hsad.
  - rewrite <-occurs_spec. by rewrite Hain.
  - unfold Translate.fixedData at 1.
    rewrite (replace_absent _ _ _ Translate.salawat _ Hsad).
    by apply replace_absent.
Qed.

(** What the fix touches: a text that holds neither abbreviation is
    written back as it was read. *)
Theorem text_without_abbreviation_kept (data : list N) :
  ¬ occurs_in [Translate.paren_open; Translate.sad; Translate.paren_close] data →
  ¬ occurs_in [Translate.paren_open; Translate.ain; Translate.paren_close] data →
  Translate.fixedData data = data.
Proof.
  intros Hsad Hain. unfold Translate.fixedData.
  rewrite (replace_absent _ _ _ Translate.salawat data).
  - apply replace_absent. apply not_true_is_false. by rewrite occurs_spec.
  - apply not_true_is_false. by rewrite occurs_spec.
Qed.

Lemma text_without_abbreviation_kept_witness :
  Translate.fixedData [40; 1589; 32; 1593; 41]%N = [40; 1589; 32; 1593; 41]%N.
Proof.
  apply (text_without_abbreviation_kept [40; 1589; 32; 1593; 41]%N).
  - rewrite <-occurs_spec. vm_compute. discriminate.
  - rewrite <-occurs_spec. vm_compute. discriminate.
Defined.

(** ** Resuming: what is submitted and what is written *)

Section Submitted.
Context {T : StringTrim}.
Variable apiKeys : list string.
Variable generateContent : list Translate.Event → option string → string → Translate.ApiResult.





End Submitted.




